(** * Trip monitoring server: stop detection, geofence completion, trip lifecycle

    A shallow embedding of the monitoring server (the [ws] handlers,
    [processVehicleData], [handleLongStop], [checkTripCompletion], the
    monitored-trip registry) and of the offline scripts, followed by the
    properties of the specification that were checked against it.

    Conventions of the embedding.
    - The in-memory [Map]s of the server are finite maps keyed by strings.
    - The Supabase tables are lists of rows; a query returns the matching rows
      in table order.  Every awaited Supabase call is one store operation; it
      is recorded in the event trace and may fail, as decided by a fault
      schedule carried in the state.
    - The handlers are embedded twice.  As functions of a state monad they
      run to completion one after the other and a store call that fails
      throws ([run]).  As asynchronous tasks ([Async.Task]) they are suspended
      at every [await] of a store call, so that the handlers of several
      messages overlap, and a store call that fails throws or returns
      [{ data: null, error }] ([Async.serve]).  The first embedding is the
      second under the schedule that serves one input at a time, with thrown
      failures (lemmas [agrees_handle] and [run_is_one_at_a_time]).
    - Numbers that only feed comparisons of coordinates and distances are
      real numbers; timestamps are integers (epoch milliseconds); the speed
      is an integer number of km/h.
    - [console.log] lines are not modelled, [console.error] lines are. *)

From Stdlib Require Import ZArith QArith Reals Lra Lia List String Bool Factorial.
From Stdlib Require Import FunctionalExtensionality.
From stdpp Require Import base option list gmap strings.

Local Open Scope Z_scope.
Local Open Scope string_scope.
Local Open Scope list_scope.

(** ** Data model *)

(** A GeoJSON position as turf takes it: [[longitude, latitude]]. *)
Definition Point : Type := (R * R)%type.

(** [{ lat, lng }], the position kept in a stop interval. *)
Record Location : Type := mkLocation { lat : R; lng : R }.

(** The [LocTime] field of a telemetry record, seen through
    [new Date(vehicleData.LocTime)]:
    - [LocTimeMissing]: the field is falsy (absent, [null], empty string);
    - [LocTimeInvalid raw]: [getTime()] of the parsed date is [NaN];
    - [LocTimeAt ms]: the date parses to [ms] epoch milliseconds. *)
Inductive LocTimeField : Type :=
  | LocTimeMissing
  | LocTimeInvalid (raw : string)
  | LocTimeAt (ms : Z).

(** One telemetry record.  [Latitude] and [Longitude] are [None] when the
    field is falsy ([!vehicleData.Latitude]) and [Some x] when it is truthy
    with [parseFloat] value [x].  A falsy [Plate] is the empty string: the
    falsy values of the field (absent, [null], [""]), which [!Plate] does not
    tell apart but which are distinct keys of a [Map], are one key here. *)
Record VehicleData : Type := mkVehicleData {
  Plate : string;
  Speed : Z;
  Latitude : option R;
  Longitude : option R;
  LocTime : LocTimeField
}.

(** The payload of a WebSocket message: [JSON.parse] either throws or yields
    a record. *)
Inductive Message : Type :=
  | Malformed
  | Parsed (vehicleData : VehicleData).

(** [vehicleStops] entry.  [processed] is absent on a fresh entry, which the
    test [!stopInfo.processed] reads as [false]. *)
Record StopInfo : Type := mkStopInfo {
  stopStart : Z;
  location : Location;
  lastLocTime : Z;
  processed : bool
}.

(** [activeTrips] entry: [{ vehiclePlate }]. *)
Record Monitored : Type := mkMonitored { vehiclePlate : string }.

(** Row of [route_plans] (the columns the server reads or writes). *)
Record Trip : Type := mkTrip {
  trip_id : string;
  vehicle_plate : string;
  actual_start_time : option Z;
  actual_end_time : option Z
}.

(** Row of [assigned_customers]. *)
Record Customer : Type := mkCustomer {
  cust_trip_id : string;
  customer_code : string;
  latitude : R;
  longitude : R;
  completed : bool;
  completed_at : option Z
}.

(** Row of [trip_coordinates]. *)
Record Coordinate : Type := mkCoordinate {
  coord_trip_id : string;
  coord_vehicle_plate : string;
  coord_latitude : R;
  coord_longitude : R;
  coord_speed : Z;
  coord_timestamp : Z
}.

Record Tables : Type := mkTables {
  route_plans : list Trip;
  assigned_customers : list Customer;
  trip_coordinates : list Coordinate
}.

(** The module-level state of the server. *)
Record Memory : Type := mkMemory {
  activeTrips : gmap string Monitored;
  vehicleDataCache : gmap string VehicleData;
  vehicleStops : gmap string StopInfo;
  subscriptionsInitialized : bool
}.

(** The awaited Supabase calls of the server. *)
Inductive StoreCall : Type :=
  | SelectOpenTrips (plate : string)
  | SelectStartedTrips (plate : string)
  | SelectActiveTrips
  | UpdateStartTime (tripId : string) (time : Z)
  | InsertCoordinate (row : Coordinate)
  | SelectIncomplete (tripId : string)
  | UpdateCompleted (tripId code : string) (time : Z)
  | SelectCompletedFlags (tripId : string)
  | RpcCompleteTrip (tripId : string).

(** The [console.error] sites. *)
Inductive LogEntry : Type :=
  | ErrMissingCoordinates (plate : string)
  | ErrInvalidLocTime (raw : string)
  | ErrProcessingVehicleData
  | ErrParsingWebSocketData
  | ErrLoadingActiveTrips.

(** What an execution leaves behind, in order: store calls that returned,
    store calls that threw (with the in-memory state at that moment),
    error lines, and invocations of the long-stop handler. *)
Inductive Event : Type :=
  | Call (c : StoreCall)
  | Failed (c : StoreCall) (snapshot : Memory)
  | Console (line : LogEntry)
  | LongStop (plate : string) (loc : Location).

Inductive Exn : Type :=
  | SyntaxError
  | StoreFailure (c : StoreCall)
  | ReferenceError (name : string).

Record World : Type := mkWorld {
  mem : Memory;
  db : Tables;
  events : list Event;
  faults : list bool
}.

(** ** The monad of handlers: state, trace and exceptions *)

Inductive Outcome (A : Type) : Type :=
  | Ret (a : A)
  | Throw (e : Exn).
Arguments Ret {A} a.
Arguments Throw {A} e.

Definition M (A : Type) : Type := World -> Outcome A * World.

Definition ret {A} (a : A) : M A := fun w => (Ret a, w).

Definition bind {A B} (m : M A) (k : A -> M B) : M B :=
  fun w =>
    match m w with
    | (Ret a, w') => k a w'
    | (Throw e, w') => (Throw e, w')
    end.

Definition throw {A} (e : Exn) : M A := fun w => (Throw e, w).

(** [try { m } catch (error) { h error }]. *)
Definition tryCatch {A} (m : M A) (h : Exn -> M A) : M A :=
  fun w =>
    match m w with
    | (Ret a, w') => (Ret a, w')
    | (Throw e, w') => h e w'
    end.

Declare Scope handler_scope.
Delimit Scope handler_scope with handler.
Notation "x <- m ;; k" := (bind m (fun x => k))
  (at level 100, m at next level, right associativity) : handler_scope.
Notation "m ;; k" := (bind m (fun _ => k))
  (at level 100, right associativity) : handler_scope.
Local Open Scope handler_scope.

Definition emit (ev : Event) : M unit :=
  fun w => (Ret tt, mkWorld (mem w) (db w) (events w ++ [ev]) (faults w)).

Definition consoleError (line : LogEntry) : M unit := emit (Console line).

Definition getMem : M Memory := fun w => (Ret (mem w), w).

Definition modifyMem (f : Memory -> Memory) : M unit :=
  fun w => (Ret tt, mkWorld (f (mem w)) (db w) (events w) (faults w)).

(** One awaited store call [c] with effect [f] on the tables.  The head of
    the fault schedule decides whether it throws; an empty schedule means
    that every call returns.  (A failure that the client returns instead of
    throwing is in [Async.perform].) *)
Definition storeOp {A} (c : StoreCall) (f : Tables -> A * Tables) : M A :=
  fun w =>
    match faults w with
    | true :: rest =>
        (Throw (StoreFailure c),
         mkWorld (mem w) (db w) (events w ++ [Failed c (mem w)]) rest)
    | _ =>
        let '(a, t) := f (db w) in
        (Ret a, mkWorld (mem w) t (events w ++ [Call c]) (tail (faults w)))
    end.

(** [for (const x of l) { await f(x) }]. *)
Fixpoint forEach {A} (l : list A) (f : A -> M unit) : M unit :=
  match l with
  | [] => ret tt
  | x :: rest => f x ;; forEach rest f
  end.

(** ** The store *)

Definition isNone {A} (o : option A) : bool :=
  match o with None => true | Some _ => false end.

(** [.eq('vehicle_plate', plate).is('actual_end_time', null)] *)
Definition openTripsOf (plate : string) (t : Tables) : list Trip :=
  List.filter (fun r => String.eqb (vehicle_plate r) plate && isNone (actual_end_time r))
         (route_plans t).

(** [.eq('vehicle_plate', plate).not('actual_start_time', 'is', null)
     .is('actual_end_time', null)] *)
Definition startedTripsOf (plate : string) (t : Tables) : list Trip :=
  List.filter (fun r => String.eqb (vehicle_plate r) plate
                   && negb (isNone (actual_start_time r))
                   && isNone (actual_end_time r))
         (route_plans t).

(** [.not('actual_start_time', 'is', null).is('actual_end_time', null)] *)
Definition activeTripsOf (t : Tables) : list Trip :=
  List.filter (fun r => negb (isNone (actual_start_time r)) && isNone (actual_end_time r))
         (route_plans t).

(** [.eq('trip_id', tripId).eq('completed', false)] *)
Definition incompleteOf (tripId : string) (t : Tables) : list Customer :=
  List.filter (fun c => String.eqb (cust_trip_id c) tripId && negb (completed c))
         (assigned_customers t).

(** [.select('completed').eq('trip_id', tripId)] *)
Definition completedFlagsOf (tripId : string) (t : Tables) : list bool :=
  map completed
      (List.filter (fun c => String.eqb (cust_trip_id c) tripId) (assigned_customers t)).

Definition setStart (tripId : string) (time : Z) (r : Trip) : Trip :=
  if String.eqb (trip_id r) tripId
  then mkTrip (trip_id r) (vehicle_plate r) (Some time) (actual_end_time r)
  else r.

Definition setEnd (tripId : string) (time : Z) (r : Trip) : Trip :=
  if String.eqb (trip_id r) tripId
  then mkTrip (trip_id r) (vehicle_plate r) (actual_start_time r) (Some time)
  else r.

Definition setCompleted (tripId code : string) (time : Z) (c : Customer) : Customer :=
  if String.eqb (cust_trip_id c) tripId && String.eqb (customer_code c) code
  then mkCustomer (cust_trip_id c) (customer_code c) (latitude c) (longitude c)
                  true (Some time)
  else c.

Definition selectOpenTrips (plate : string) : M (list Trip) :=
  storeOp (SelectOpenTrips plate) (fun t => (openTripsOf plate t, t)).

Definition selectStartedTrips (plate : string) : M (list Trip) :=
  storeOp (SelectStartedTrips plate) (fun t => (startedTripsOf plate t, t)).

Definition selectActiveTrips : M (list Trip) :=
  storeOp SelectActiveTrips (fun t => (activeTripsOf t, t)).

Definition updateStartTime (tripId : string) (time : Z) : M unit :=
  storeOp (UpdateStartTime tripId time)
    (fun t => (tt, mkTables (map (setStart tripId time) (route_plans t))
                            (assigned_customers t) (trip_coordinates t))).

Definition insertCoordinate (row : Coordinate) : M unit :=
  storeOp (InsertCoordinate row)
    (fun t => (tt, mkTables (route_plans t) (assigned_customers t)
                            (trip_coordinates t ++ [row]))).

Definition selectIncomplete (tripId : string) : M (list Customer) :=
  storeOp (SelectIncomplete tripId) (fun t => (incompleteOf tripId t, t)).

Definition updateCompleted (tripId code : string) (time : Z) : M unit :=
  storeOp (UpdateCompleted tripId code time)
    (fun t => (tt, mkTables (route_plans t)
                            (map (setCompleted tripId code time) (assigned_customers t))
                            (trip_coordinates t))).

Definition selectCompletedFlags (tripId : string) : M (list bool) :=
  storeOp (SelectCompletedFlags tripId) (fun t => (completedFlagsOf tripId t, t)).

(** Modelled from the spec: the SQL function [complete_trip] is not among the
    sources.  The specification makes the aggregate-completion operation the
    side effect of the transition ACTIVE -> COMPLETED, and COMPLETED is the
    state with the end time set: the call sets [actual_end_time] of the trip
    and touches nothing else the server reads. *)
Definition complete_trip (tripId : string) (time : Z) (t : Tables) : Tables :=
  mkTables (map (setEnd tripId time) (route_plans t))
           (assigned_customers t) (trip_coordinates t).

Definition rpcCompleteTrip (tripId : string) (time : Z) : M unit :=
  storeOp (RpcCompleteTrip tripId) (fun t => (tt, complete_trip tripId time t)).

(** ** Great-circle distance *)

(** Modelled from the spec: the [distance] of the [@turf/distance] dependency
    is not among the sources.  The specification asks for the great-circle
    distance between two coordinates in kilometres; this is the haversine
    formula on the mean earth radius, in exact real arithmetic, on positions
    given as [[longitude, latitude]] in degrees. *)
Definition earthRadius : R := 6371008.8.

Definition degreesToRadians (degrees : R) : R := degrees * PI / 180.

Definition radiansToKilometers (radians : R) : R := radians * (earthRadius / 1000).

(** The two-argument arctangent, from [atan]. *)
Definition atan2 (y x : R) : R :=
  if Rlt_dec 0 x then atan (y / x)
  else if Rlt_dec x 0 then
         (if Rle_dec 0 y then atan (y / x) + PI else atan (y / x) - PI)
       else if Rlt_dec 0 y then PI / 2
            else if Rlt_dec y 0 then - (PI / 2) else 0.

Definition haversine (from to : Point) : R :=
  let dLat := degreesToRadians (snd to - snd from) in
  let dLon := degreesToRadians (fst to - fst from) in
  let lat1 := degreesToRadians (snd from) in
  let lat2 := degreesToRadians (snd to) in
  (sin (dLat / 2))² + (sin (dLon / 2))² * cos lat1 * cos lat2.

Definition greatCircleKm (from to : Point) : R :=
  let a := haversine from to in
  radiansToKilometers (2 * atan2 (sqrt a) (sqrt (1 - a))).

(** ** The monitored-trip registry *)

Definition setActiveTrips (f : gmap string Monitored -> gmap string Monitored)
    (m : Memory) : Memory :=
  mkMemory (f (activeTrips m)) (vehicleDataCache m) (vehicleStops m)
           (subscriptionsInitialized m).

Definition setVehicleDataCache
    (f : gmap string VehicleData -> gmap string VehicleData) (m : Memory) : Memory :=
  mkMemory (activeTrips m) (f (vehicleDataCache m)) (vehicleStops m)
           (subscriptionsInitialized m).

Definition setVehicleStops (f : gmap string StopInfo -> gmap string StopInfo)
    (m : Memory) : Memory :=
  mkMemory (activeTrips m) (vehicleDataCache m) (f (vehicleStops m))
           (subscriptionsInitialized m).

Definition setSubscriptionsInitialized (b : bool) (m : Memory) : Memory :=
  mkMemory (activeTrips m) (vehicleDataCache m) (vehicleStops m) b.

(** [startTripMonitoring]: the registry is keyed by trip id. *)
Definition startTripMonitoring (tripId vehiclePlate : string)
    (reg : gmap string Monitored) : gmap string Monitored :=
  match reg !! tripId with
  | Some _ => reg
  | None => <[tripId := mkMonitored vehiclePlate]> reg
  end.

(** [stopTripMonitoring]. *)
Definition stopTripMonitoring (tripId : string)
    (reg : gmap string Monitored) : gmap string Monitored :=
  match reg !! tripId with
  | Some _ => delete tripId reg
  | None => reg
  end.

(** [initializeSubscriptions]: subscribes once; the two subscribed callbacks
    are [onTripInserted] and [onTripUpdated] below. *)
Definition initializeSubscriptions : M unit :=
  m <- getMem ;;
  if subscriptionsInitialized m then ret tt
  else modifyMem (setSubscriptionsInitialized true).

(** [ws.on('open')]: startup reconciliation, then the subscriptions. *)
Definition onOpen : M unit :=
  tryCatch
    (trips <- selectActiveTrips ;;
     forEach trips (fun trip =>
       modifyMem (setActiveTrips
                    (startTripMonitoring (trip_id trip) (vehicle_plate trip)))))
    (fun _ => consoleError ErrLoadingActiveTrips) ;;
  initializeSubscriptions.

(** The callback of the [INSERT] subscription on [route_plans]. *)
Definition onTripInserted (new : Trip) : M unit :=
  modifyMem (setActiveTrips (startTripMonitoring (trip_id new) (vehicle_plate new))).

(** The callback of the [UPDATE] subscription on [route_plans]. *)
Definition onTripUpdated (new old : Trip) : M unit :=
  if negb (isNone (actual_end_time new)) && isNone (actual_end_time old)
  then modifyMem (setActiveTrips (stopTripMonitoring (trip_id new)))
  else ret tt.

(** ** Trip completion *)

(** [checkTripCompletion]. *)
Definition checkTripCompletion (now : Z) (tripId : string) : M unit :=
  customers <- selectCompletedFlags tripId ;;
  if (0 <? Z.of_nat (length customers))%Z && forallb (fun c => c) customers
  then rpcCompleteTrip tripId now
  else ret tt.

(** ** Stop detection *)

(** [(locTime - stopInfo.stopStart) / 1000 / 60], in minutes.  The source
    computes it in doubles on an integer number of milliseconds; the
    comparison with 5 has the same result in exact arithmetic. *)
Definition stopDuration (locTime start : Z) : Q :=
  (inject_Z (locTime - start) / 1000 / 60)%Q.

Definition truthy (s : string) : bool := negb (String.eqb s "").

Section Handlers.

(** The distance function of the geofence tests, in kilometres. *)
Variable distance : Point -> Point -> R.

(** [handleLongStop]. *)
Definition handleLongStop (now : Z) (vehiclePlate : string) (location : Location)
    : M unit :=
  emit (LongStop vehiclePlate location) ;;
  trips <- selectStartedTrips vehiclePlate ;;
  match trips with
  | [] => ret tt
  | trip :: _ =>
      let trip_id := trip_id trip in
      customers <- selectIncomplete trip_id ;;
      forEach customers (fun customer =>
        let vehiclePoint := (lng location, lat location) in
        let customerPoint := (longitude customer, latitude customer) in
        let distanceKm := distance vehiclePoint customerPoint in
        if Rle_dec distanceKm 1
        then updateCompleted trip_id (customer_code customer) now
        else ret tt) ;;
      checkTripCompletion now trip_id
  end.

(** The statements of [processVehicleData] that follow the guard
    [if (!actual_start_time) return]: the coordinate insert and the
    completion loop, for the trip [trip_id] found for the record. *)
Definition processStartedTrip (now : Z) (vehicleData : VehicleData) (trip_id : string)
    (Latitude Longitude : R) : M unit :=
  insertCoordinate
    (mkCoordinate trip_id (Plate vehicleData) Latitude Longitude
                  (Speed vehicleData) now) ;;
  customers <- selectIncomplete trip_id ;;
  forEach customers (fun customer =>
    let vehiclePoint := (Longitude, Latitude) in
    let customerPoint := (longitude customer, latitude customer) in
    let distanceKm := distance vehiclePoint customerPoint in
    if Rle_dec distanceKm 1
    then updateCompleted trip_id (customer_code customer) now ;;
         checkTripCompletion now trip_id
    else ret tt).

(** [processVehicleData].  In the [catch] block the identifier [trip_id] is
    not in scope (it is declared by [let] inside the [try] block), so its
    evaluation in [if (trip_id)] raises a [ReferenceError] and
    [stopTripMonitoring] is not reached. *)
Definition processVehicleData (now : Z) (vehicleData : VehicleData) : M unit :=
  tryCatch
    (match truthy (Plate vehicleData), Latitude vehicleData, Longitude vehicleData with
     | true, Some Latitude, Some Longitude =>
         trips <- selectOpenTrips (Plate vehicleData) ;;
         match trips with
         | [] => ret tt
         | trip :: _ =>
             let trip_id := trip_id trip in
             actual_start_time <-
               (if isNone (actual_start_time trip) && (0 <? Speed vehicleData)%Z
                then updateStartTime trip_id now ;; ret (Some now)
                else ret (actual_start_time trip)) ;;
             match actual_start_time with
             | None => ret tt
             | Some _ =>
                 processStartedTrip now vehicleData trip_id Latitude Longitude
             end
         end
     | _, _, _ => ret tt
     end)
    (fun error =>
       consoleError ErrProcessingVehicleData ;;
       throw (ReferenceError "trip_id")).

(** The stop-tracking block of [ws.on('message')] for a record with a
    parsed [LocTime]. *)
Definition trackStop (now : Z) (vehicleData : VehicleData) (Latitude Longitude : R)
    (locTime : Z) : M unit :=
  if (Speed vehicleData =? 0)%Z then
    m <- getMem ;;
    match vehicleStops m !! Plate vehicleData with
    | None =>
        modifyMem (setVehicleStops
          (insert (Plate vehicleData)
                  (mkStopInfo locTime (mkLocation Latitude Longitude) locTime false)))
    | Some stopInfo =>
        modifyMem (setVehicleStops
          (insert (Plate vehicleData)
                  (mkStopInfo (stopStart stopInfo) (location stopInfo) locTime
                              (processed stopInfo)))) ;;
        if Qle_bool 5 (stopDuration locTime (stopStart stopInfo))
           && negb (processed stopInfo)
        then handleLongStop now (Plate vehicleData) (location stopInfo) ;;
             modifyMem (setVehicleStops
               (insert (Plate vehicleData)
                       (mkStopInfo (stopStart stopInfo) (location stopInfo) locTime
                                   true)))
        else ret tt
    end
  else modifyMem (setVehicleStops (delete (Plate vehicleData))).

(** [ws.on('message')]. *)
Definition onMessage (now : Z) (data : Message) : M unit :=
  tryCatch
    (match data with
     | Malformed => throw SyntaxError
     | Parsed vehicleData =>
         modifyMem (setVehicleDataCache (insert (Plate vehicleData) vehicleData)) ;;
         match Latitude vehicleData, Longitude vehicleData with
         | Some Latitude, Some Longitude =>
             match LocTime vehicleData with
             | LocTimeMissing => ret tt
             | LocTimeInvalid raw => consoleError (ErrInvalidLocTime raw)
             | LocTimeAt locTime =>
                 trackStop now vehicleData Latitude Longitude locTime ;;
                 processVehicleData now vehicleData
             end
         | _, _ => consoleError (ErrMissingCoordinates (Plate vehicleData))
         end
     end)
    (fun error => consoleError ErrParsingWebSocketData).

(** The inputs of the server, each stamped with the clock reading of its
    handler. *)
Inductive Input : Type :=
  | WsOpen
  | WsMessage (now : Z) (data : Message)
  | TripInserted (new : Trip)
  | TripUpdated (new old : Trip).

Definition handle (i : Input) : M unit :=
  match i with
  | WsOpen => onOpen
  | WsMessage now data => onMessage now data
  | TripInserted new => onTripInserted new
  | TripUpdated new old => onTripUpdated new old
  end.

(** The server processing a sequence of inputs, one handler at a time: each
    handler has finished when the next input is delivered. *)
Fixpoint run (inputs : list Input) : M unit :=
  match inputs with
  | [] => ret tt
  | i :: rest => handle i ;; run rest
  end.

(** The offline report [checkAfter3PM], on the rows its queries return: for
    each trip of the day, the coordinates logged after 15:00 and the customers
    still incomplete. *)

(** The inner loop: the smallest distance from a logged position to the
    customer; [None] is the initial [Infinity]. *)
Definition closestDistance (coordinates : list Coordinate) (customerPoint : Point)
    : option R :=
  fold_left
    (fun minDistance coord =>
       let vehiclePoint := (coord_longitude coord, coord_latitude coord) in
       let dist := distance vehiclePoint customerPoint in
       match minDistance with
       | None => Some dist
       | Some current => if Rlt_dec dist current then Some dist else Some current
       end)
    coordinates None.

(** A numeric column is falsy when it is [null] or [0]; both read as [0]. *)
Definition falsyNumber (x : R) : bool := if Req_dec_T x 0 then true else false.

(** Whether the report prints [WOULD COMPLETE] for the customer. *)
Definition wouldComplete (coordinates : list Coordinate) (customer : Customer) : bool :=
  if falsyNumber (latitude customer) || falsyNumber (longitude customer) then false
  else
    let customerPoint := (longitude customer, latitude customer) in
    match closestDistance coordinates customerPoint with
    | None => false
    | Some minDistance => if Rle_dec minDistance 5 then true else false
    end.

(** [totalWouldComplete] at the end of [checkAfter3PM]. *)
Definition checkAfter3PM (trips : list (list Coordinate * list Customer)) : nat :=
  fold_left
    (fun totalWouldComplete '(coordinates, customers) =>
       match coordinates, customers with
       | [], _ => totalWouldComplete
       | _, [] => totalWouldComplete
       | _, _ =>
           fold_left
             (fun total customer =>
                if wouldComplete coordinates customer then S total else total)
             customers totalWouldComplete
       end)
    trips 0%nat.

End Handlers.

(** ** Reading executions *)

Definition outcome {A} (m : M A) (w : World) : Outcome A := fst (m w).

Definition exec {A} (m : M A) (w : World) : World := snd (m w).

(** The events appended to the trace between [w] and [w']. *)
Definition newEvents (w w' : World) : list Event :=
  skipn (length (events w)) (events w').

(** The weakest precondition of a handler for a postcondition on normal
    return and one on exceptional exit. *)
Definition wp {A} (m : M A) (Q : A -> World -> Prop) (E : Exn -> World -> Prop)
    (w : World) : Prop :=
  match m w with
  | (Ret a, w') => Q a w'
  | (Throw e, w') => E e w'
  end.

(** The three ways a step moves the world. *)
Definition called (c : StoreCall) (t : Tables) (w : World) : World :=
  mkWorld (mem w) t (events w ++ [Call c]) (tail (faults w)).

Definition failed (c : StoreCall) (w : World) : World :=
  mkWorld (mem w) (db w) (events w ++ [Failed c (mem w)]) (tail (faults w)).

Definition emitted (ev : Event) (w : World) : World :=
  mkWorld (mem w) (db w) (events w ++ [ev]) (faults w).

Definition withMem (f : Memory -> Memory) (w : World) : World :=
  mkWorld (f (mem w)) (db w) (events w) (faults w).

(** ** The discipline of store calls

    [applies strict c t t'] holds when the call [c] may be issued on tables
    [t] by the server and leaves [t']: it records, for each write, the
    condition under which the code reaches it.  The conditions guarded by
    [strict] are those that rest on the composite identity of customer stops
    ([wellFormed] below). *)

(** The trip has a row that is started and not ended. *)
Definition isActive (tripId : string) (t : Tables) : Prop :=
  exists r, List.In r (route_plans t) /\ trip_id r = tripId
            /\ actual_start_time r <> None /\ actual_end_time r = None.

(** The trip has a row that is neither started nor ended. *)
Definition isPlanned (tripId : string) (t : Tables) : Prop :=
  exists r, List.In r (route_plans t) /\ trip_id r = tripId
            /\ actual_start_time r = None /\ actual_end_time r = None.

(** The stop has a row that is not completed. *)
Definition isIncomplete (tripId code : string) (t : Tables) : Prop :=
  exists c, List.In c (assigned_customers t) /\ cust_trip_id c = tripId
            /\ customer_code c = code /\ completed c = false.

(** The trip has at least one stop and all its stops are completed. *)
Definition allStopsCompleted (tripId : string) (t : Tables) : Prop :=
  completedFlagsOf tripId t <> [] /\ forallb (fun c => c) (completedFlagsOf tripId t) = true.

Inductive applies (strict : Prop) : StoreCall -> Tables -> Tables -> Prop :=
  | applies_SelectOpenTrips plate t : applies strict (SelectOpenTrips plate) t t
  | applies_SelectStartedTrips plate t : applies strict (SelectStartedTrips plate) t t
  | applies_SelectActiveTrips t : applies strict SelectActiveTrips t t
  | applies_SelectIncomplete tripId t : applies strict (SelectIncomplete tripId) t t
  | applies_SelectCompletedFlags tripId t :
      applies strict (SelectCompletedFlags tripId) t t
  | applies_UpdateStartTime tripId time t :
      isPlanned tripId t ->
      applies strict (UpdateStartTime tripId time) t
              (mkTables (map (setStart tripId time) (route_plans t))
                        (assigned_customers t) (trip_coordinates t))
  | applies_InsertCoordinate row t :
      isActive (coord_trip_id row) t ->
      applies strict (InsertCoordinate row) t
              (mkTables (route_plans t) (assigned_customers t)
                        (trip_coordinates t ++ [row]))
  | applies_UpdateCompleted tripId code time t :
      (strict -> isActive tripId t /\ isIncomplete tripId code t) ->
      applies strict (UpdateCompleted tripId code time) t
              (mkTables (route_plans t)
                        (map (setCompleted tripId code time) (assigned_customers t))
                        (trip_coordinates t))
  | applies_RpcCompleteTrip tripId time t :
      (strict -> isActive tripId t) ->
      allStopsCompleted tripId t ->
      applies strict (RpcCompleteTrip tripId) t (complete_trip tripId time t).

(** [validTrace strict t evs t']: replaying the store calls of [evs] from
    [t], each one applies and the replay ends in [t']. *)
Inductive validTrace (strict : Prop) : Tables -> list Event -> Tables -> Prop :=
  | validTrace_nil t : validTrace strict t [] t
  | validTrace_call c t t1 evs t2 :
      applies strict c t t1 -> validTrace strict t1 evs t2 ->
      validTrace strict t (Call c :: evs) t2
  | validTrace_other ev t evs t2 :
      (forall c, ev <> Call c) -> validTrace strict t evs t2 ->
      validTrace strict t (ev :: evs) t2.

(** The composite identity of customer stops: no two rows of
    [assigned_customers] share [(trip_id, customer_code)]. *)
Definition stopKey (c : Customer) : string * string := (cust_trip_id c, customer_code c).

Definition wellFormed (t : Tables) : Prop := List.NoDup (map stopKey (assigned_customers t)).

(** The calls a function issues, by their arguments. *)
Definition checkSite (tripId : string) (c : StoreCall) : Prop :=
  match c with
  | SelectCompletedFlags t => t = tripId
  | RpcCompleteTrip t => t = tripId
  | _ => False
  end.

Definition longStopSite (now : Z) (plate : string) (c : StoreCall) : Prop :=
  match c with
  | SelectStartedTrips p => p = plate
  | SelectIncomplete _ => True
  | UpdateCompleted _ _ time => time = now
  | SelectCompletedFlags _ => True
  | RpcCompleteTrip _ => True
  | _ => False
  end.

Definition startedTripSite (now : Z) (vehicleData : VehicleData) (tripId : string)
    (c : StoreCall) : Prop :=
  match c with
  | InsertCoordinate row =>
      coord_trip_id row = tripId
      /\ coord_vehicle_plate row = Plate vehicleData
      /\ Some (coord_latitude row) = Latitude vehicleData
      /\ Some (coord_longitude row) = Longitude vehicleData
      /\ coord_speed row = Speed vehicleData /\ coord_timestamp row = now
  | SelectIncomplete t => t = tripId
  | UpdateCompleted t _ time => t = tripId /\ time = now
  | SelectCompletedFlags t => t = tripId
  | RpcCompleteTrip t => t = tripId
  | _ => False
  end.

Definition telemetrySite (now : Z) (vehicleData : VehicleData) (c : StoreCall) : Prop :=
  match c with
  | SelectOpenTrips p => p = Plate vehicleData
  | UpdateStartTime _ time => (0 < Speed vehicleData)%Z /\ time = now
  | InsertCoordinate row =>
      coord_vehicle_plate row = Plate vehicleData
      /\ Some (coord_latitude row) = Latitude vehicleData
      /\ Some (coord_longitude row) = Longitude vehicleData
      /\ coord_speed row = Speed vehicleData /\ coord_timestamp row = now
  | SelectIncomplete _ => True
  | UpdateCompleted _ _ time => time = now
  | SelectCompletedFlags _ => True
  | RpcCompleteTrip _ => True
  | _ => False
  end.

Definition messageSite (now : Z) (data : Message) (c : StoreCall) : Prop :=
  match data with
  | Malformed => False
  | Parsed vehicleData =>
      telemetrySite now vehicleData c \/ longStopSite now (Plate vehicleData) c
  end.

Definition inputSite (i : Input) (c : StoreCall) : Prop :=
  match i with
  | WsOpen => c = SelectActiveTrips
  | WsMessage now data => messageSite now data c
  | _ => False
  end.

(** A pair of predicates kept by every step of a store-level function that
    issues calls of [site]: [I] along normal execution, [X] once a store call
    has thrown. *)
Record stable (strict : Prop) (site : StoreCall -> Prop) (I X : World -> Prop)
    : Prop := mkStable {
  stable_call : forall c t w,
    I w -> head (faults w) <> Some true -> site c -> applies strict c (db w) t ->
    I (called c t w);
  stable_fail : forall c w,
    I w -> head (faults w) = Some true -> X (failed c w);
  stable_console : forall line w, X w -> X (emitted (Console line) w)
}.

(** The rows still to visit in a completion loop: rows of the trip, not
    completed in the current tables, with pairwise distinct codes. *)
Definition pendingRows (tripId : string) (rest : list Customer) (t : Tables) : Prop :=
  List.NoDup (map customer_code rest)
  /\ forall c, List.In c rest ->
       List.In c (assigned_customers t) /\ cust_trip_id c = tripId /\ completed c = false.

(** The updates of the in-memory state made while handling a message: of the
    cache and of the stop intervals. *)
Definition messageUpdate (f : Memory -> Memory) : Prop :=
  (exists g, f = setVehicleDataCache g) \/ (exists g, f = setVehicleStops g).

(** The events a handler emits by itself: error lines and invocations of the
    long-stop handler. *)
Definition signal (ev : Event) : Prop :=
  match ev with
  | Console _ => True
  | LongStop _ _ => True
  | _ => False
  end.

(** A pair of predicates kept by every step of a handler that issues calls
    of [site] and updates the in-memory state by functions of [update]: [I]
    along normal execution, [X] once a store call has thrown. *)
Record stableRun (strict : Prop) (site : StoreCall -> Prop)
    (update : (Memory -> Memory) -> Prop) (I X : World -> Prop) : Prop := mkStableRun {
  stableRun_stable : stable strict site I X;
  stableRun_mem : forall f w, update f -> I w -> I (withMem f w);
  stableRun_emit : forall ev w, signal ev -> I w -> I (emitted ev w);
  stableRun_wellFormed : strict -> forall w, I w -> wellFormed (db w)
}.

(** [follows strict w0 w]: the trace of [w] extends that of [w0] by a valid
    trace leading from the tables of [w0] to those of [w]. *)
Definition follows (strict : Prop) (w0 w : World) : Prop :=
  (strict -> wellFormed (db w))
  /\ exists new, events w = events w0 ++ new /\ validTrace strict (db w0) new (db w).

(** Counting events. *)
Definition occurrences (p : Event -> bool) (evs : list Event) : nat :=
  length (List.filter p evs).


Definition isCompletionOf (tripId : string) (ev : Event) : bool :=
  match ev with
  | Call (RpcCompleteTrip t) => String.eqb t tripId
  | _ => false
  end.




(** The end times of the rows of a trip. *)
Definition endTimesOf (tripId : string) (t : Tables) : list (option Z) :=
  map actual_end_time
      (List.filter (fun r => String.eqb (trip_id r) tripId) (route_plans t)).

(** [issues site w0 w]: every store call added to the trace since [w0] is
    one of [site]. *)
Definition callIn (site : StoreCall -> Prop) (ev : Event) : Prop :=
  forall c, ev = Call c -> site c.

Definition issues (site : StoreCall -> Prop) (w0 w : World) : Prop :=
  exists new, events w = events w0 ++ new /\ Forall (callIn site) new.

(** No store call is going to fail. *)
Definition faultless (w : World) : Prop := faults w = [].


(** The trip has at least one customer stop. *)
Definition hasStops (tripId : string) (t : Tables) : Prop :=
  completedFlagsOf tripId t <> [].

(** At most one monitored trip per vehicle plate. *)
Definition onePerPlate (reg : gmap string Monitored) : Prop :=
  forall tripId1 tripId2 plate,
    reg !! tripId1 = Some (mkMonitored plate) ->
    reg !! tripId2 = Some (mkMonitored plate) ->
    tripId1 = tripId2.

(** The registry after startup reconciliation over the rows [trips]. *)
Definition reconciled (trips : list Trip) (reg : gmap string Monitored)
    : gmap string Monitored :=
  fold_left (fun reg trip => startTripMonitoring (trip_id trip) (vehicle_plate trip) reg)
            trips reg.

(** A world with empty maps, the given tables, an empty trace and no fault. *)
Definition emptyMemory : Memory := mkMemory ∅ ∅ ∅ false.

Definition initialWorld (t : Tables) : World := mkWorld emptyMemory t [] [].

(** The fixture of the test endpoints of the server: the trip created by
    [/test/simulate-trip] with its two customers, here already started, and
    a record as [/test/simulate-gps] builds it. *)
Definition testTrip (start : option Z) : Trip := mkTrip "test-trip" "BH47JSGP" start None.

Definition testCustomer1 : Customer :=
  mkCustomer "test-trip" "TEST_CUST_001" (-26.1440) 28.0436 false None.

Definition testCustomer2 : Customer :=
  mkCustomer "test-trip" "TEST_CUST_002" (-26.1450) 28.0446 false None.

Definition testTables (start : option Z) : Tables :=
  mkTables [testTrip start] [testCustomer1; testCustomer2] [].

Definition testGPSData (speed : Z) (latitude longitude : R) (locTime : LocTimeField)
    : VehicleData :=
  mkVehicleData "BH47JSGP" speed (Some latitude) (Some longitude) locTime.

(** ** The stop detector, as a function of the samples *)

(** The invocations of the long-stop handler recorded in a trace. *)
Definition longStops (evs : list Event) : list (string * Location) :=
  flat_map (fun ev => match ev with LongStop p l => [(p, l)] | _ => [] end) evs.

Definition fiveMinutes : Z := 5 * 60 * 1000.

Definition locTimeOf (vehicleData : VehicleData) : Z :=
  match LocTime vehicleData with LocTimeAt ms => ms | _ => 0 end.

Definition positionOf (vehicleData : VehicleData) : Location :=
  mkLocation (match Latitude vehicleData with Some x => x | None => 0%R end)
             (match Longitude vehicleData with Some x => x | None => 0%R end).

(** A well-formed sample of a vehicle at rest: coordinates present, [LocTime]
    parsed, [Speed === 0]. *)
Definition stopped (plate : string) (vehicleData : VehicleData) : Prop :=
  Plate vehicleData = plate /\ Speed vehicleData = 0%Z
  /\ Latitude vehicleData <> None /\ Longitude vehicleData <> None
  /\ exists ms, LocTime vehicleData = LocTimeAt ms.

(** The interval opened by a first sample at rest. *)
Definition openInterval (vehicleData : VehicleData) : StopInfo :=
  mkStopInfo (locTimeOf vehicleData) (positionOf vehicleData) (locTimeOf vehicleData) false.

(** The dwell of a sample in an interval has reached five minutes. *)
Definition dwellReached (info : StopInfo) (vehicleData : VehicleData) : bool :=
  (fiveMinutes <=? locTimeOf vehicleData - stopStart info)%Z.

(** The interval after a further sample at rest. *)
Definition observe (info : StopInfo) (vehicleData : VehicleData) : StopInfo :=
  mkStopInfo (stopStart info) (location info) (locTimeOf vehicleData)
             (processed info || dwellReached info vehicleData).

(** The long-stop events of a sequence of further samples at rest. *)
Fixpoint detect (plate : string) (info : StopInfo) (samples : list (Z * VehicleData))
    : list (string * Location) :=
  match samples with
  | [] => []
  | (_, vehicleData) :: rest =>
      (if dwellReached info vehicleData && negb (processed info)
       then [(plate, location info)] else [])
      ++ detect plate (observe info vehicleData) rest
  end.

(** The messages carrying a sequence of samples, each with the clock reading
    of its handler. *)
Definition telemetry (samples : list (Z * VehicleData)) : list Input :=
  map (fun s => WsMessage (fst s) (Parsed (snd s))) samples.

(** [quiet m0 e0 stops w]: no fault is pending, the in-memory state is [m0],
    and the trace extends [e0] by events whose long stops are [stops]. *)
Definition quiet (m0 : Memory) (e0 : list Event) (stops : list (string * Location))
    (w : World) : Prop :=
  faultless w /\ mem w = m0
  /\ exists new, events w = e0 ++ new /\ longStops new = stops.

(** The interval after a sequence of further samples at rest. *)
Definition observeAll (info : StopInfo) (samples : list (Z * VehicleData)) : StopInfo :=
  fold_left (fun i s => observe i (snd s)) samples info.


(** A sample of the test vehicle at rest at the position of the first test
    customer, reported and handled at time [ms]. *)
Definition restSample (ms : Z) : Z * VehicleData :=
  (ms, testGPSData 0 (-26.1440) 28.0436 (LocTimeAt ms)).

(** Kinds of events. *)
Definition isConsole (ev : Event) : Prop :=
  match ev with Console _ => True | _ => False end.

Definition notFailed (ev : Event) : Prop :=
  match ev with Failed _ _ => False | _ => True end.

(** The events of a sample whose vehicle has no open trip: the two lookups
    of [route_plans], their failures, error lines and long-stop invocations. *)
Definition lookupOnly (ev : Event) : Prop :=
  match ev with
  | Call (SelectOpenTrips _) => True
  | Call (SelectStartedTrips _) => True
  | Call _ => False
  | _ => True
  end.

(** [unfailed e0 w]: no store call has thrown since the trace [e0]. *)
Definition unfailed (e0 : list Event) (w : World) : Prop :=
  exists new, events w = e0 ++ new /\ Forall notFailed new.

(** [failedOnce e0 w]: since the trace [e0] one store call has thrown, in the
    in-memory state that [w] still has, and only error lines were traced
    after it. *)
Definition failedOnce (e0 : list Event) (w : World) : Prop :=
  exists new c rest,
    events w = e0 ++ new ++ Failed c (mem w) :: rest
    /\ Forall notFailed new /\ Forall isConsole rest.

(** [idle w0 w]: the tables are those of [w0] and the trace extends that of
    [w0] by events of [lookupOnly]. *)
Definition idle (w0 w : World) : Prop :=
  db w = db w0 /\ exists new, events w = events w0 ++ new /\ Forall lookupOnly new.

(** The completion writes recorded in a trace: trip, customer code, time. *)
Definition marksOf (evs : list Event) : list (string * string * Z) :=
  flat_map (fun ev => match ev with
                      | Call (UpdateCompleted t c time) => [(t, c, time)]
                      | _ => []
                      end) evs.

(** The test of the completion loops, as a boolean. *)
Definition withinKm (radius : R) (distanceKm : R) : bool :=
  if Rle_dec distanceKm radius then true else false.

(** [marked e0 marks w]: no fault is pending and the trace extends [e0] by
    events whose completion writes are [marks]. *)
Definition marked (e0 : list Event) (marks : list (string * string * Z)) (w : World)
    : Prop :=
  faultless w /\ exists new, events w = e0 ++ new /\ marksOf new = marks.

(** The example of the specification: the vehicle position and the two
    customer stops, as stops of the test trip. *)
Definition examplePosition : Point := (28.0436, -26.1440)%R.

Definition exampleStop1 : Customer :=
  mkCustomer "test-trip" "STOP_1" (-26.1450) 28.0446 false None.

Definition exampleStop2 : Customer :=
  mkCustomer "test-trip" "STOP_2" (-26.1441) 28.0437 false None.

Definition exampleTables : Tables :=
  mkTables [testTrip (Some 0)] [exampleStop1; exampleStop2] [].

(** A trip of two stops fifty thousandths of a degree of latitude apart,
    and a moving sample at each of them. *)
Definition farStop : Customer :=
  mkCustomer "test-trip" "FAR_STOP" (-26.1940) 28.0436 false None.

Definition twoStopTables : Tables :=
  mkTables [testTrip (Some 0)] [testCustomer1; farStop] [].

Definition sampleAtStop (c : Customer) : VehicleData :=
  testGPSData 30 (latitude c) (longitude c) LocTimeMissing.

(** ** Further readings of the state *)

(** [getLatestVehicleData]. *)
Definition getLatestVehicleData (plate : string) (m : Memory) : option VehicleData :=
  vehicleDataCache m !! plate.

(** The last record of [plate] among the messages of a sequence of inputs,
    [previous] when there is none. *)
Fixpoint latestOf (plate : string) (inputs : list Input) (previous : option VehicleData)
    : option VehicleData :=
  match inputs with
  | [] => previous
  | WsMessage _ (Parsed vehicleData) :: rest =>
      latestOf plate rest
        (if String.eqb (Plate vehicleData) plate then Some vehicleData else previous)
  | _ :: rest => latestOf plate rest previous
  end.

(** The plate a message is about, if it parses. *)
Definition plateOf (data : Message) : option string :=
  match data with
  | Malformed => None
  | Parsed vehicleData => Some (Plate vehicleData)
  end.

(** [framed plate m0 m]: the in-memory state [m] differs from [m0] at most in
    the stop interval of [plate]. *)
Definition framed (plate : string) (m0 m : Memory) : Prop :=
  activeTrips m = activeTrips m0
  /\ vehicleDataCache m = vehicleDataCache m0
  /\ subscriptionsInitialized m = subscriptionsInitialized m0
  /\ forall other, other <> plate -> vehicleStops m !! other = vehicleStops m0 !! other.

(** A well-formed sample of a moving vehicle: coordinates present, [LocTime]
    parsed, [Speed] other than [0]. *)
Definition moving (plate : string) (vehicleData : VehicleData) : Prop :=
  Plate vehicleData = plate /\ Speed vehicleData <> 0%Z
  /\ Latitude vehicleData <> None /\ Longitude vehicleData <> None
  /\ exists ms, LocTime vehicleData = LocTimeAt ms.

(** The rows inserted into [trip_coordinates] by the calls of a trace. *)
Definition coordsOf (evs : list Event) : list Coordinate :=
  flat_map (fun ev => match ev with
                      | Call (InsertCoordinate row) => [row]
                      | _ => []
                      end) evs.

(** [logged e0 base rows w]: no fault is pending, the trace extends [e0] by
    events whose inserted rows are [rows], and the coordinate log is [base]
    followed by [rows]. *)
Definition logged (e0 : list Event) (base rows : list Coordinate) (w : World) : Prop :=
  faultless w
  /\ (exists new, events w = e0 ++ new /\ coordsOf new = rows)
  /\ trip_coordinates (db w) = base ++ rows.

(** ** The backfill of completion times: [updateCompletionTimes]

    The script rewrites [completed_at] of the completed stops of the trips of
    the day with the time of the closest logged position.  It is modelled on
    the rows of its first query ([trips]) and on the rows its window query
    returns for each trip ([coordinatesOf], in ascending order of time); the
    table [assigned_customers] is read and written as the script goes.  An
    update either succeeds or returns an error, as decided by a schedule
    carried in the state; an error thrown by the client, which would end the
    script in its [catch] block, is not modelled. *)

Section Backfill.

Variable distance : Point -> Point -> R.

(** The inner loop of the scripts with its two variables, [minDistance] and
    [closestCoordinate]; [None] stands for the initial [Infinity] and
    [null]. *)
Definition closestCoordinate (coordinates : list Coordinate) (customerPoint : Point)
    : option (R * Coordinate) :=
  fold_left
    (fun best coord =>
       let vehiclePoint := (coord_longitude coord, coord_latitude coord) in
       let dist := distance vehiclePoint customerPoint in
       match best with
       | None => Some (dist, coord)
       | Some (minDistance, _) =>
           if Rlt_dec dist minDistance then Some (dist, coord) else best
       end)
    coordinates None.

Record Backfill : Type := mkBackfill {
  customersTable : list Customer;
  totalUpdated : nat;
  updateErrors : list string;
  updateFaults : list bool
}.

(** [.eq('trip_id', tripId).eq('completed', true).not('completed_at', 'is', null)] *)
Definition completedOf (tripId : string) (customers : list Customer) : list Customer :=
  List.filter (fun c => String.eqb (cust_trip_id c) tripId && completed c
                        && negb (isNone (completed_at c)))
              customers.

(** [.update({ completed_at }).eq('trip_id', tripId).eq('customer_code', code)] *)
Definition setCompletedAt (tripId code : string) (time : Z) (c : Customer) : Customer :=
  if String.eqb (cust_trip_id c) tripId && String.eqb (customer_code c) code
  then mkCustomer (cust_trip_id c) (customer_code c) (latitude c) (longitude c)
                  (completed c) (Some time)
  else c.

(** The body of the loop over the customers of a trip. *)
Definition updateCustomer (tripId : string) (coordinates : list Coordinate)
    (s : Backfill) (customer : Customer) : Backfill :=
  if falsyNumber (latitude customer) || falsyNumber (longitude customer) then s
  else
    let customerPoint := (longitude customer, latitude customer) in
    match closestCoordinate coordinates customerPoint with
    | Some (minDistance, closest) =>
        if Rle_dec minDistance 5 then
          match updateFaults s with
          | true :: rest =>
              mkBackfill (customersTable s) (totalUpdated s)
                         (updateErrors s ++ [customer_code customer]) rest
          | _ =>
              mkBackfill (map (setCompletedAt tripId (customer_code customer)
                                              (coord_timestamp closest))
                              (customersTable s))
                         (S (totalUpdated s)) (updateErrors s) (tail (updateFaults s))
          end
        else s
    | None => s
    end.

Variable coordinatesOf : string -> list Coordinate.

(** The body of the loop over the trips. *)
Definition updateTrip (s : Backfill) (trip : Trip) : Backfill :=
  match coordinatesOf (trip_id trip) with
  | [] => s
  | coordinates =>
      match completedOf (trip_id trip) (customersTable s) with
      | [] => s
      | customers => fold_left (updateCustomer (trip_id trip) coordinates) customers s
      end
  end.

(** [updateCompletionTimes]. *)
Definition updateCompletionTimes (trips : list Trip) (s : Backfill) : Backfill :=
  fold_left updateTrip trips s.

(** What the script does to one row, in one formula: the row is rewritten
    when its trip is listed, it is completed with a time, its coordinates are
    not zero and the closest logged position of its trip is within 5 km. *)
Definition backfillRow (trips : list Trip) (c : Customer) : Customer :=
  if existsb (fun trip => String.eqb (trip_id trip) (cust_trip_id c)) trips
     && completed c && negb (isNone (completed_at c))
     && negb (falsyNumber (latitude c) || falsyNumber (longitude c))
  then
    match closestCoordinate (coordinatesOf (cust_trip_id c)) (longitude c, latitude c) with
    | Some (minDistance, closest) =>
        if Rle_dec minDistance 5
        then mkCustomer (cust_trip_id c) (customer_code c) (latitude c) (longitude c)
                        (completed c) (Some (coord_timestamp closest))
        else c
    | None => c
    end
  else c.

End Backfill.

(** The columns of a stop that the backfill does not write. *)
Definition stopShape (c : Customer) : string * string * R * R * bool :=
  (cust_trip_id c, customer_code c, latitude c, longitude c, completed c).

(** The effect on one row of the loop body run for the customer [x]. *)
Definition rowUpdate (distance : Point -> Point -> R) (tripId : string)
    (coordinates : list Coordinate) (x : Customer) (c : Customer) : Customer :=
  if falsyNumber (latitude x) || falsyNumber (longitude x) then c
  else
    match closestCoordinate distance coordinates (longitude x, latitude x) with
    | Some (minDistance, closest) =>
        if Rle_dec minDistance 5
        then setCompletedAt tripId (customer_code x) (coord_timestamp closest) c
        else c
    | None => c
    end.

Definition sameKey (x c : Customer) : bool :=
  String.eqb (cust_trip_id x) (cust_trip_id c)
  && String.eqb (customer_code x) (customer_code c).

(** The calls of [processVehicleData] for the trip [tripId], and those of
    [handleLongStop] for the trip [tripId]. *)
Definition firstTripSite (now : Z) (vehicleData : VehicleData) (tripId : string)
    (c : StoreCall) : Prop :=
  match c with
  | SelectOpenTrips p => p = Plate vehicleData
  | UpdateStartTime t time => t = tripId /\ time = now
  | _ => startedTripSite now vehicleData tripId c
  end.

Definition longStopTripSite (now : Z) (plate tripId : string) (c : StoreCall) : Prop :=
  match c with
  | SelectStartedTrips p => p = plate
  | SelectIncomplete t => t = tripId
  | UpdateCompleted t _ time => t = tripId /\ time = now
  | SelectCompletedFlags t => t = tripId
  | RpcCompleteTrip t => t = tripId
  | _ => False
  end.

(** [oblivious f m]: without faults, the handler [m] does the same whether
    or not the registry has first been changed by [f], and leaves no fault
    pending. *)
Definition oblivious {A} (f : gmap string Monitored -> gmap string Monitored) (m : M A)
    : Prop :=
  forall w,
    faultless w ->
    m (withMem (setActiveTrips f) w)
    = (fst (m w), withMem (setActiveTrips f) (snd (m w)))
    /\ faultless (snd (m w)).

(** ** The date filter of [verify-date-filtering.js]

    The two simulations read [route_plans] with the column [created_at], an
    ISO string, and keep the first trip of the plate created on a given day.
    They are modelled on the table; their [catch] blocks, reached when a
    query throws, are not. *)

(** Row of [route_plans] with its creation time. *)
Record DatedTrip : Type := mkDatedTrip { planned : Trip; created_at : string }.

(** [s.split('T')[0]]. *)
Fixpoint dateOf (s : string) : string :=
  match s with
  | EmptyString => EmptyString
  | String c rest => if String.eqb (String c EmptyString) "T" then EmptyString else String c (dateOf rest)
  end.

(** The object returned by a simulation: [{ processed: false, reason }] or
    [{ processed: true, tripId, createdDate }]. *)
Inductive Simulation : Type :=
  | NotProcessed (reason : string)
  | Processed (tripId createdDate : string).

Definition wasProcessed (result : Simulation) : bool :=
  match result with
  | NotProcessed _ => false
  | Processed _ _ => true
  end.

Section DateFilter.

Variable table : list DatedTrip.

(** [new Date().toISOString().split('T')[0]], the day of the clock. *)
Variable clock : string.

(** [simulatedDate || <the day of the clock>]. *)
Definition todayOf (simulatedDate : option string) : string :=
  match simulatedDate with
  | Some date => if truthy date then date else clock
  | None => clock
  end.

(** [simulateProcessVehicleData]. *)
Definition simulateProcessVehicleData (vehiclePlate : string)
    (simulatedDate : option string) : Simulation :=
  let trips :=
    List.filter (fun t => String.eqb (vehicle_plate (planned t)) vehiclePlate
                          && isNone (actual_end_time (planned t)))
                table in
  match trips with
  | [] => NotProcessed "No active trips"
  | _ =>
      let today := todayOf simulatedDate in
      match find (fun t => String.eqb (dateOf (created_at t)) today) trips with
      | None => NotProcessed "No trip created today"
      | Some trip => Processed (trip_id (planned trip)) (dateOf (created_at trip))
      end
  end.

(** [simulateHandleLongStop]. *)
Definition simulateHandleLongStop (vehiclePlate : string)
    (simulatedDate : option string) : Simulation :=
  let trips :=
    List.filter (fun t => String.eqb (vehicle_plate (planned t)) vehiclePlate
                          && negb (isNone (actual_start_time (planned t)))
                          && isNone (actual_end_time (planned t)))
                table in
  match trips with
  | [] => NotProcessed "No active trips"
  | _ =>
      let today := todayOf simulatedDate in
      match find (fun t => String.eqb (dateOf (created_at t)) today) trips with
      | None => NotProcessed "No trip created today"
      | Some todaysTrip =>
          Processed (trip_id (planned todaysTrip)) (dateOf (created_at todaysTrip))
      end
  end.

(** [verifyDateFiltering]: the value of [allTestsPass], for the three days
    the script derives from the clock. *)
Definition verifyDateFiltering (currentDate yesterdayStr tomorrowStr : string) : bool :=
  let result1 := simulateProcessVehicleData "XRV985GP" (Some currentDate) in
  let result2 := simulateHandleLongStop "XRV985GP" (Some currentDate) in
  let result3 := simulateProcessVehicleData "XRV985GP" (Some yesterdayStr) in
  let result4 := simulateHandleLongStop "XRV985GP" (Some yesterdayStr) in
  let result5 := simulateProcessVehicleData "XRV985GP" (Some tomorrowStr) in
  let result6 := simulateHandleLongStop "XRV985GP" (Some tomorrowStr) in
  (wasProcessed result1 && wasProcessed result2)
  && (negb (wasProcessed result3) && negb (wasProcessed result4))
  && (negb (wasProcessed result5) && negb (wasProcessed result6)).

End DateFilter.

(** ** Further fixtures *)

(** A moving sample of the test vehicle, reported and handled at [ms]. *)
Definition moveSample (ms : Z) : Z * VehicleData :=
  (ms, testGPSData 30 (-26.1440) 28.0436 (LocTimeAt ms)).

(** The test vehicle at rest since time 0, with the first store call about to
    fail. *)
Definition restingWorld : World :=
  mkWorld (mkMemory ∅ ∅ (<["BH47JSGP" := openInterval (snd (restSample 0))]> ∅) false)
          (testTables (Some 0)) [] [true].

(** The test trip, started, with its first stop completed and no other
    stop. *)
Definition visitedCustomer : Customer :=
  mkCustomer "test-trip" "TEST_CUST_001" (-26.1440) 28.0436 true (Some 500).

Definition visitedTables : Tables :=
  mkTables [testTrip (Some 0)] [visitedCustomer] [].

(** A backfill of the test trip: one completed stop, one position logged at
    the stop. *)
Definition loggedAtStop (tripId : string) : list Coordinate :=
  [mkCoordinate tripId "BH47JSGP" (-26.1440) 28.0436 0 1000].

Definition backfillStart : Backfill := mkBackfill [visitedCustomer] 0 [] [].

(** A table for the date filter: one started trip of the plate of the
    script. *)
Definition datedTable : list DatedTrip :=
  [mkDatedTrip (mkTrip "trip-1" "XRV985GP" (Some 0) None) "2024-01-15T08:00:00"].

(** ** The stops of a trip around a position *)

Definition isEmpty {A} (l : list A) : bool :=
  match l with
  | [] => true
  | _ => false
  end.

(** The stops within 1 km of a position, and those beyond. *)
Definition nearStops (distance : Point -> Point -> R) (position : Point)
    (customers : list Customer) : list Customer :=
  List.filter (fun c => withinKm 1 (distance position (longitude c, latitude c))) customers.

Definition farStops (distance : Point -> Point -> R) (position : Point)
    (customers : list Customer) : list Customer :=
  List.filter (fun c => negb (withinKm 1 (distance position (longitude c, latitude c))))
              customers.

(** [closing e0 tripId n w]: no fault is pending and the trace extends [e0]
    by events with [n] calls of [complete_trip] for the trip. *)
Definition closing (e0 : list Event) (tripId : string) (n : nat) (w : World) : Prop :=
  faultless w
  /\ exists new, events w = e0 ++ new /\ occurrences (isCompletionOf tripId) new = n.

(** [accounted e0 pending tripId w]: no fault is pending, the trace extends
    [e0], and if the trip has no incomplete stop in [w] then either
    [pending], its incomplete stops at the start, was empty or
    [complete_trip] has been called for it since. *)
Definition accounted (e0 : list Event) (pending : list Customer) (tripId : string)
    (w : World) : Prop :=
  faultless w
  /\ exists new,
       events w = e0 ++ new
       /\ (incompleteOf tripId (db w) = [] ->
           pending = [] \/ (1 <= occurrences (isCompletionOf tripId) new)%nat).

(** ** The handlers as asynchronous functions

    The listeners of [ws] are [async] functions that nobody awaits: a handler
    runs until it awaits a store call and is resumed when the reply of that
    call is there; in between, the handlers of other messages run.  A store
    call that fails either throws or, as the Supabase client does with the
    errors of the database, returns [{ data: null, error }]; the server never
    reads [error].

    A [Task] is a handler with its awaits made explicit; the handlers below
    are the functions of the server once more, in this form, with the tests
    the source makes on [data].  The entries of [vehicleStops] are objects: a
    handler that holds one across an [await] assigns to that object, which
    shows in the map only while the map still holds it.  [serve] runs the
    server under a schedule that says which input arrives and which reply is
    delivered next, with both kinds of failure.  [uninterrupted] runs one
    task to the end; with thrown failures it gives back the handlers of the
    sections above, which are therefore the server when each handler has
    finished before the next input is delivered. *)

Module Async.

(** A handler, as its source reads.  [Then] is sequencing and [Try] is
    [try { ... } catch (error) { ... }].  [Await c f] awaits the store call
    [c], whose effect on the tables is [f], and gives its [data], [None]
    when [data] is [null].  [Emit] traces a [console.error] line or an
    invocation of the long-stop handler.  [GetMem] and [ModifyMem] read and
    update the module-level state.  The others are the operations on the map
    [vehicleStops] and on the objects it holds: [StopsGet] gives the object
    of a plate with its fields, [StopsSet] puts a new object, [StopsDelete]
    removes the entry, and [StopsAssign] assigns to the fields of an object
    that has been read. *)
Inductive Task : Type -> Type :=
  | Return {A} (a : A) : Task A
  | Raise {A} (e : Exn) : Task A
  | Then {A B} (p : Task A) (k : A -> Task B) : Task B
  | Try {A} (p : Task A) (h : Exn -> Task A) : Task A
  | Await {A} (c : StoreCall) (f : Tables -> A * Tables) : Task (option A)
  | Emit (ev : Event) : Task unit
  | GetMem : Task Memory
  | ModifyMem (f : Memory -> Memory) : Task unit
  | StopsGet (plate : string) : Task (option (nat * StopInfo))
  | StopsSet (plate : string) (info : StopInfo) : Task unit
  | StopsDelete (plate : string) : Task unit
  | StopsAssign (plate : string) (object : nat) (f : StopInfo -> StopInfo) : Task unit.

Declare Scope task_scope.
Delimit Scope task_scope with task.
Notation "x <- p ;; k" := (Then p (fun x => k))
  (at level 100, p at next level, right associativity) : task_scope.
Notation "p ;; k" := (Then p (fun _ => k))
  (at level 100, right associativity) : task_scope.

(** [for (const x of l) { ... }] *)
Fixpoint forEach {A} (l : list A) (f : A -> Task unit) : Task unit :=
  match l with
  | [] => Return tt
  | x :: rest => Then (f x) (fun _ => forEach rest f)
  end.

(** [checkTripCompletion]: [data] may be [null]. *)
Definition checkTripCompletion (now : Z) (tripId : string) : Task unit :=
  (customers <- Await (SelectCompletedFlags tripId)
                      (fun t => (completedFlagsOf tripId t, t)) ;;
   match customers with
   | None => Return tt
   | Some customers =>
       if (0 <? Z.of_nat (length customers))%Z && forallb (fun c => c) customers
       then Await (RpcCompleteTrip tripId) (fun t => (tt, complete_trip tripId now t)) ;;
            Return tt
       else Return tt
   end)%task.

(** [initializeSubscriptions] *)
Definition initializeSubscriptions : Task unit :=
  (m <- GetMem ;;
   if subscriptionsInitialized m then Return tt
   else ModifyMem (setSubscriptionsInitialized true))%task.

(** [ws.on('open')] *)
Definition onOpen : Task unit :=
  (Try
     (trips <- Await SelectActiveTrips (fun t => (activeTripsOf t, t)) ;;
      match trips with
      | None => Return tt
      | Some trips =>
          forEach trips (fun trip =>
            ModifyMem (setActiveTrips
                         (startTripMonitoring (trip_id trip) (vehicle_plate trip))))
      end)
     (fun _ => Emit (Console ErrLoadingActiveTrips)) ;;
   initializeSubscriptions)%task.

Section Handlers.

Variable distance : Point -> Point -> R.

(** [handleLongStop] *)
Definition handleLongStop (now : Z) (vehiclePlate : string) (location : Location)
    : Task unit :=
  (Emit (LongStop vehiclePlate location) ;;
   trips <- Await (SelectStartedTrips vehiclePlate)
                  (fun t => (startedTripsOf vehiclePlate t, t)) ;;
   match trips with
   | None | Some [] => Return tt
   | Some (trip :: _) =>
       let trip_id := trip_id trip in
       customers <- Await (SelectIncomplete trip_id)
                          (fun t => (incompleteOf trip_id t, t)) ;;
       match customers with
       | None => Return tt
       | Some customers =>
           forEach customers (fun customer =>
             let vehiclePoint := (lng location, lat location) in
             let customerPoint := (longitude customer, latitude customer) in
             let distanceKm := distance vehiclePoint customerPoint in
             if Rle_dec distanceKm 1
             then Await (UpdateCompleted trip_id (customer_code customer) now)
                    (fun t => (tt, mkTables (route_plans t)
                                     (map (setCompleted trip_id (customer_code customer) now)
                                          (assigned_customers t))
                                     (trip_coordinates t))) ;;
                  Return tt
             else Return tt) ;;
           checkTripCompletion now trip_id
       end
   end)%task.

(** [processVehicleData] *)
Definition processVehicleData (now : Z) (vehicleData : VehicleData) : Task unit :=
  (Try
     (match truthy (Plate vehicleData), Latitude vehicleData, Longitude vehicleData with
      | true, Some Latitude, Some Longitude =>
          trips <- Await (SelectOpenTrips (Plate vehicleData))
                         (fun t => (openTripsOf (Plate vehicleData) t, t)) ;;
          match trips with
          | None | Some [] => Return tt
          | Some (trip :: _) =>
              let trip_id := trip_id trip in
              actual_start_time <-
                (if isNone (actual_start_time trip) && (0 <? Speed vehicleData)%Z
                 then Await (UpdateStartTime trip_id now)
                        (fun t => (tt, mkTables (map (setStart trip_id now) (route_plans t))
                                         (assigned_customers t) (trip_coordinates t))) ;;
                      Return (Some now)
                 else Return (actual_start_time trip)) ;;
              match actual_start_time with
              | None => Return tt
              | Some _ =>
                  let row := mkCoordinate trip_id (Plate vehicleData) Latitude Longitude
                                          (Speed vehicleData) now in
                  Await (InsertCoordinate row)
                    (fun t => (tt, mkTables (route_plans t) (assigned_customers t)
                                     (trip_coordinates t ++ [row]))) ;;
                  customers <- Await (SelectIncomplete trip_id)
                                     (fun t => (incompleteOf trip_id t, t)) ;;
                  match customers with
                  | None => Return tt
                  | Some customers =>
                      forEach customers (fun customer =>
                        let vehiclePoint := (Longitude, Latitude) in
                        let customerPoint := (longitude customer, latitude customer) in
                        let distanceKm := distance vehiclePoint customerPoint in
                        if Rle_dec distanceKm 1
                        then Await (UpdateCompleted trip_id (customer_code customer) now)
                               (fun t => (tt, mkTables (route_plans t)
                                  (map (setCompleted trip_id (customer_code customer) now)
                                       (assigned_customers t))
                                  (trip_coordinates t))) ;;
                             checkTripCompletion now trip_id
                        else Return tt)
                  end
              end
          end
      | _, _, _ => Return tt
      end)
     (fun error =>
        Emit (Console ErrProcessingVehicleData) ;;
        Raise (ReferenceError "trip_id")))%task.

(** The stop-tracking block of [ws.on('message')].  [stopInfo] is the object
    held by the map when the handler reads it; [stopInfo.processed = true]
    comes after [await handleLongStop(...)] and is an assignment to that
    object. *)
Definition trackStop (now : Z) (vehicleData : VehicleData) (Latitude Longitude : R)
    (locTime : Z) : Task unit :=
  (if (Speed vehicleData =? 0)%Z then
     entry <- StopsGet (Plate vehicleData) ;;
     match entry with
     | None =>
         StopsSet (Plate vehicleData)
                  (mkStopInfo locTime (mkLocation Latitude Longitude) locTime false)
     | Some (object, stopInfo) =>
         StopsAssign (Plate vehicleData) object
           (fun info => mkStopInfo (stopStart info) (location info) locTime
                                   (processed info)) ;;
         if Qle_bool 5 (stopDuration locTime (stopStart stopInfo))
            && negb (processed stopInfo)
         then handleLongStop now (Plate vehicleData) (location stopInfo) ;;
              StopsAssign (Plate vehicleData) object
                (fun info => mkStopInfo (stopStart info) (location info)
                                        (lastLocTime info) true)
         else Return tt
     end
   else StopsDelete (Plate vehicleData))%task.

(** [ws.on('message')] *)
Definition onMessage (now : Z) (data : Message) : Task unit :=
  (Try
     (match data with
      | Malformed => Raise SyntaxError
      | Parsed vehicleData =>
          ModifyMem (setVehicleDataCache (insert (Plate vehicleData) vehicleData)) ;;
          match Latitude vehicleData, Longitude vehicleData with
          | Some Latitude, Some Longitude =>
              match LocTime vehicleData with
              | LocTimeMissing => Return tt
              | LocTimeInvalid raw => Emit (Console (ErrInvalidLocTime raw))
              | LocTimeAt locTime =>
                  trackStop now vehicleData Latitude Longitude locTime ;;
                  processVehicleData now vehicleData
              end
          | _, _ => Emit (Console (ErrMissingCoordinates (Plate vehicleData)))
          end
      end)
     (fun error => Emit (Console ErrParsingWebSocketData)))%task.

Definition handle (i : Input) : Task unit :=
  match i with
  | WsOpen => onOpen
  | WsMessage now data => onMessage now data
  | TripInserted new =>
      ModifyMem (setActiveTrips (startTripMonitoring (trip_id new) (vehicle_plate new)))
  | TripUpdated new old =>
      if negb (isNone (actual_end_time new)) && isNone (actual_end_time old)
      then ModifyMem (setActiveTrips (stopTripMonitoring (trip_id new)))
      else Return tt
  end.

End Handlers.

(** How a failing store call reports its failure. *)
Inductive Report : Type :=
  | Thrown
  | Returned.

(** The world; how the failures to come are reported: the head of
    [reports] is for the next call that [faults] makes fail, and failures
    beyond the list are thrown; and, for each plate, how often the map
    [vehicleStops] has been given a new object or has lost its object for
    the plate, which tells the objects of a plate apart. *)
Record Store : Type := mkStore {
  world : World;
  reports : list Report;
  epochs : gmap string nat
}.

Definition onWorld (f : World -> World) (s : Store) : Store :=
  mkStore (f (world s)) (reports s) (epochs s).

Definition epoch (plate : string) (s : Store) : nat := default 0%nat (epochs s !! plate).

(** [vehicleStops.get(plate)]: the object and its fields. *)
Definition stopsGet (plate : string) (s : Store) : option (nat * StopInfo) :=
  match vehicleStops (mem (world s)) !! plate with
  | Some info => Some (epoch plate s, info)
  | None => None
  end.

(** [vehicleStops.set(plate, { ... })]: a new object. *)
Definition stopsSet (plate : string) (info : StopInfo) (s : Store) : Store :=
  mkStore (withMem (setVehicleStops (insert plate info)) (world s)) (reports s)
          (<[plate := S (epoch plate s)]> (epochs s)).

(** [vehicleStops.delete(plate)] *)
Definition stopsDelete (plate : string) (s : Store) : Store :=
  mkStore (withMem (setVehicleStops (delete plate)) (world s)) (reports s)
          (<[plate := S (epoch plate s)]> (epochs s)).

(** An assignment to the fields of an object read from the map: it shows in
    the map when the map still holds that object. *)
Definition stopsAssign (plate : string) (object : nat) (f : StopInfo -> StopInfo)
    (s : Store) : Store :=
  match vehicleStops (mem (world s)) !! plate with
  | Some info =>
      if Nat.eqb (epoch plate s) object
      then onWorld (withMem (setVehicleStops (insert plate (f info)))) s
      else s
  | None => s
  end.

(** A store call on the arrival of its reply.  A failure that is returned
    leaves [data] null and the tables as they are; the call has returned,
    and is traced as such. *)
Definition perform {A} (c : StoreCall) (f : Tables -> A * Tables) (s : Store)
    : Outcome (option A) * Store :=
  let w := world s in
  match faults w, reports s with
  | true :: _, Returned :: later =>
      (Ret None, mkStore (called c (db w) w) later (epochs s))
  | true :: _, _ =>
      (Throw (StoreFailure c), mkStore (failed c w) (tail (reports s)) (epochs s))
  | _, _ =>
      let '(a, t) := f (db w) in
      (Ret (Some a), mkStore (called c t w) (reports s) (epochs s))
  end.

(** A task run to the end without interruption: every reply is there when
    the task awaits it. *)
Fixpoint uninterrupted {A} (p : Task A) (s : Store) : Outcome A * Store :=
  match p in Task T return Outcome T * Store with
  | Return a => (Ret a, s)
  | Raise e => (Throw e, s)
  | Then p k =>
      match uninterrupted p s with
      | (Ret a, s') => uninterrupted (k a) s'
      | (Throw e, s') => (Throw e, s')
      end
  | Try p h =>
      match uninterrupted p s with
      | (Ret a, s') => (Ret a, s')
      | (Throw e, s') => uninterrupted (h e) s'
      end
  | Await c f => perform c f s
  | Emit ev => (Ret tt, onWorld (emitted ev) s)
  | GetMem => (Ret (mem (world s)), s)
  | ModifyMem f => (Ret tt, onWorld (withMem f) s)
  | StopsGet plate => (Ret (stopsGet plate s), s)
  | StopsSet plate info => (Ret tt, stopsSet plate info s)
  | StopsDelete plate => (Ret tt, stopsDelete plate s)
  | StopsAssign plate object f => (Ret tt, stopsAssign plate object f s)
  end.

Inductive Status (A : Type) : Type :=
  | Settled (o : Outcome A)
  | Suspended (p : Task A).
Arguments Settled {A} o.
Arguments Suspended {A} p.

(** One stretch of a task.  With [ready], the reply of the call the task is
    suspended at has arrived: the call takes effect and the task goes on
    until its next [await] or its end.  Without, the task runs until its
    first [await].  The call takes effect when its reply is delivered: every
    schedule is an execution of the server in which the store answers a call
    as soon as it has executed it. *)
Fixpoint advance {A} (p : Task A) (ready : bool) (s : Store) : Status A * bool * Store :=
  match p in Task T return Status T * bool * Store with
  | Return a => (Settled (Ret a), ready, s)
  | Raise e => (Settled (Throw e), ready, s)
  | Then p k =>
      match advance p ready s with
      | (Settled (Ret a), ready', s') => advance (k a) ready' s'
      | (Settled (Throw e), ready', s') => (Settled (Throw e), ready', s')
      | (Suspended p', ready', s') => (Suspended (Then p' k), ready', s')
      end
  | Try p h =>
      match advance p ready s with
      | (Settled (Ret a), ready', s') => (Settled (Ret a), ready', s')
      | (Settled (Throw e), ready', s') => advance (h e) ready' s'
      | (Suspended p', ready', s') => (Suspended (Try p' h), ready', s')
      end
  | Await c f =>
      if ready then let '(o, s') := perform c f s in (Settled o, false, s')
      else (Suspended (Await c f), false, s)
  | Emit ev => (Settled (Ret tt), ready, onWorld (emitted ev) s)
  | GetMem => (Settled (Ret (mem (world s))), ready, s)
  | ModifyMem f => (Settled (Ret tt), ready, onWorld (withMem f) s)
  | StopsGet plate => (Settled (Ret (stopsGet plate s)), ready, s)
  | StopsSet plate info => (Settled (Ret tt), ready, stopsSet plate info s)
  | StopsDelete plate => (Settled (Ret tt), ready, stopsDelete plate s)
  | StopsAssign plate object f => (Settled (Ret tt), ready, stopsAssign plate object f s)
  end.

(** The replies delivered one after the other to a single task. *)
Fixpoint settle {A} (replies : nat) (r : Status A * bool * Store)
    : Status A * bool * Store :=
  match replies, r with
  | S n, (Suspended p, _, s) => settle n (advance p true s)
  | _, _ => r
  end.

(** The server between two stretches: the store and the handlers that wait
    for a reply, oldest first. *)
Record Server : Type := mkServer {
  store : Store;
  waiting : list (Task unit)
}.

(** What happens next: an input arrives, or the reply for the [n]-th waiting
    handler does. *)
Inductive Turn : Type :=
  | Arrives (i : Input)
  | Replied (n : nat).

Section Serving.

Variable distance : Point -> Point -> R.

Definition deliver (i : Input) (sv : Server) : Server :=
  match advance (handle distance i) false (store sv) with
  | (Suspended p, _, s) => mkServer s (waiting sv ++ [p])
  | (Settled _, _, s) => mkServer s (waiting sv)
  end.

Definition resume (n : nat) (sv : Server) : Server :=
  match waiting sv !! n with
  | Some p =>
      match advance p true (store sv) with
      | (Suspended p', _, s) => mkServer s (<[n := p']> (waiting sv))
      | (Settled _, _, s) => mkServer s (delete n (waiting sv))
      end
  | None => sv
  end.

Definition turn (t : Turn) (sv : Server) : Server :=
  match t with
  | Arrives i => deliver i sv
  | Replied n => resume n sv
  end.

Definition serve (turns : list Turn) (sv : Server) : Server :=
  fold_left (fun sv t => turn t sv) turns sv.

(** The schedule that delivers the inputs one at a time, the [n]-th followed
    by the replies its handler is given. *)
Definition oneAtATime (inputs : list (Input * nat)) : list Turn :=
  flat_map (fun '(i, replies) => Arrives i :: repeat (Replied 0) replies) inputs.

End Serving.

(** The server at rest on a world, failures thrown. *)
Definition atRest (w : World) : Server := mkServer (mkStore w [] ∅) [].

(** The server with at most one handler, after a stretch of it. *)
Definition single (r : Status unit * bool * Store) : Server :=
  match r with
  | (Suspended p, _, s) => mkServer s [p]
  | (Settled _, _, s) => mkServer s []
  end.

(** [agrees p m]: without interruption and with thrown failures, the task
    [p] does to the world what the handler [m] does. *)
Definition agrees {A} (p : Task A) (m : M A) : Prop :=
  forall s, reports s = [] ->
    fst (uninterrupted p s) = fst (m (world s))
    /\ world (snd (uninterrupted p s)) = snd (m (world s))
    /\ reports (snd (uninterrupted p s)) = [].

(** [keeps p]: the task leaves the in-memory state and the objects of
    [vehicleStops] as they are. *)
Definition keeps {A} (p : Task A) : Prop :=
  forall s, mem (world (snd (uninterrupted p s))) = mem (world s)
            /\ epochs (snd (uninterrupted p s)) = epochs s.

End Async.

(** Fixtures for the schedules: the test vehicle without any trip, with its
    trip planned and without stops, and with its trip started and one stop. *)
Definition noTrips : Tables := mkTables [] [] [].



(** The messages of two samples. *)
Definition arrives (sample : Z * VehicleData) : Async.Turn :=
  Async.Arrives (WsMessage (fst sample) (Parsed (snd sample))).

(** ** Properties *)

Section WeakestPreconditions.

Context {A B : Type}.

Lemma wp_ret (a : A) Q E w : wp (ret a) Q E w <-> Q a w.
Proof. reflexivity. Qed.

Lemma wp_throw (e : Exn) (Q : A -> World -> Prop) E w : wp (throw e) Q E w <-> E e w.
Proof. reflexivity. Qed.

Lemma wp_bind (m : M A) (k : A -> M B) Q E w :
  wp (bind m k) Q E w <-> wp m (fun a w' => wp (k a) Q E w') E w.
Proof. unfold wp, bind. destruct (m w) as [[a|e] w']; reflexivity. Qed.

Lemma wp_tryCatch (m : M A) (h : Exn -> M A) Q E w :
  wp (tryCatch m h) Q E w <-> wp m Q (fun e w' => wp (h e) Q E w') w.
Proof. unfold wp, tryCatch. destruct (m w) as [[a|e] w']; reflexivity. Qed.

Lemma wp_mono (m : M A) (Q Q' : A -> World -> Prop) (E E' : Exn -> World -> Prop) w :
  wp m Q E w ->
  (forall a w', Q a w' -> Q' a w') ->
  (forall e w', E e w' -> E' e w') ->
  wp m Q' E' w.
Proof. unfold wp. destruct (m w) as [[a|e] w']; auto. Qed.

Lemma wp_storeOp (c : StoreCall) (f : Tables -> A * Tables) Q E w :
  wp (storeOp c f) Q E w <->
  match faults w with
  | true :: rest =>
      E (StoreFailure c) (mkWorld (mem w) (db w) (events w ++ [Failed c (mem w)]) rest)
  | _ =>
      Q (fst (f (db w)))
        (mkWorld (mem w) (snd (f (db w))) (events w ++ [Call c]) (tail (faults w)))
  end.
Proof.
  unfold wp, storeOp.
  destruct (faults w) as [|[|] rest]; destruct (f (db w)); reflexivity.
Qed.

End WeakestPreconditions.

Lemma wp_emit ev Q E w :
  wp (emit ev) Q E w <-> Q tt (mkWorld (mem w) (db w) (events w ++ [ev]) (faults w)).
Proof. reflexivity. Qed.

Lemma wp_getMem Q E w : wp getMem Q E w <-> Q (mem w) w.
Proof. reflexivity. Qed.

Lemma wp_modifyMem f Q E w :
  wp (modifyMem f) Q E w <-> Q tt (mkWorld (f (mem w)) (db w) (events w) (faults w)).
Proof. reflexivity. Qed.

(** The loop rule: an invariant indexed by the elements still to visit. *)
Lemma wp_forEach {A} (I : list A -> World -> Prop) (f : A -> M unit) E :
  (forall x rest w, I (x :: rest) w -> wp (f x) (fun _ => I rest) E w) ->
  forall l w, I l w -> wp (forEach l f) (fun _ => I []) E w.
Proof.
  intros Hstep l. induction l as [|x rest IH]; intros w HI.
  - exact HI.
  - simpl. apply wp_bind. eapply wp_mono.
    + apply Hstep, HI.
    + intros u w' HI'. apply IH, HI'.
    + auto.
Qed.

(** Reading a [wp] fact off the result of an execution. *)
Lemma wp_outcome {A} (m : M A) Q E w :
  wp m Q E w ->
  match outcome m w with
  | Ret a => Q a (exec m w)
  | Throw e => E e (exec m w)
  end.
Proof. unfold wp, outcome, exec. destruct (m w) as [[a|e] w']; auto. Qed.

(** ** Store calls under a stable pair *)

Lemma wp_storeOp_stable {A} strict site I X (HS : stable strict site I X) c
    (f : Tables -> A * Tables) (Q : A -> World -> Prop) w :
  I w ->
  site c ->
  applies strict c (db w) (snd (f (db w))) ->
  (I (called c (snd (f (db w))) w) -> Q (fst (f (db w))) (called c (snd (f (db w))) w)) ->
  wp (storeOp c f) Q (fun _ => X) w.
Proof.
  intros HI Hsite Hap HQ. apply wp_storeOp.
  pose proof (stable_call strict site I X HS c (snd (f (db w))) w HI) as HC.
  pose proof (stable_fail strict site I X HS c w HI) as HX.
  unfold called in HQ, HC. unfold failed in HX.
  destruct (faults w) as [|[|] rest]; simpl in *.
  - apply HQ, HC; [discriminate|exact Hsite|exact Hap].
  - apply HX. reflexivity.
  - apply HQ, HC; [discriminate|exact Hsite|exact Hap].
Qed.

Lemma stable_weaken strict (site site' : StoreCall -> Prop) I X :
  (forall c, site' c -> site c) -> stable strict site I X -> stable strict site' I X.
Proof.
  intros Hsub [Hc Hf Hl]. constructor; auto.
Qed.

Lemma applies_wellFormed strict c t t' :
  applies strict c t t' -> wellFormed t -> wellFormed t'.
Proof.
  intros Hap. destruct Hap; auto.
  unfold wellFormed. simpl. intros Hwf.
  replace (map stopKey (map (setCompleted tripId code time) (assigned_customers t)))
    with (map stopKey (assigned_customers t)); auto.
  rewrite map_map. apply map_ext. intros a. unfold setCompleted, stopKey.
  destruct (_ && _); reflexivity.
Qed.

Lemma pendingRows_incompleteOf tripId t :
  wellFormed t -> pendingRows tripId (incompleteOf tripId t) t.
Proof.
  unfold wellFormed, pendingRows, incompleteOf. intros Hwf. split.
  - induction (assigned_customers t) as [|a l IH]; simpl.
    + constructor.
    + inversion Hwf as [|? ? Hnotin Hnd]; subst.
      destruct (String.eqb (cust_trip_id a) tripId && negb (completed a)) eqn:Hc; auto.
      simpl. constructor; auto.
      intros Hin. apply Hnotin.
      apply in_map_iff in Hin. destruct Hin as [b [Hcode Hb]].
      apply filter_In in Hb. destruct Hb as [Hb Hpb].
      apply andb_true_iff in Hc. destruct Hc as [Ha _].
      apply andb_true_iff in Hpb. destruct Hpb as [Hbt _].
      apply String.eqb_eq in Ha. apply String.eqb_eq in Hbt.
      apply in_map_iff. exists b. split; auto.
      unfold stopKey. congruence.
  - intros c Hin. apply filter_In in Hin. destruct Hin as [Hin Hp].
    apply andb_true_iff in Hp. destruct Hp as [Ht Hc].
    apply String.eqb_eq in Ht. apply negb_true_iff in Hc. auto.
Qed.

Lemma pendingRows_tail tripId x rest t :
  pendingRows tripId (x :: rest) t -> pendingRows tripId rest t.
Proof.
  intros [Hnd Hall]. split.
  - simpl in Hnd. inversion Hnd; auto.
  - intros c Hc. apply Hall. right. exact Hc.
Qed.

(** Marking the head of the pending rows leaves the others pending. *)
Lemma pendingRows_setCompleted tripId x rest time t :
  pendingRows tripId (x :: rest) t ->
  pendingRows tripId rest
    (mkTables (route_plans t)
              (map (setCompleted tripId (customer_code x) time) (assigned_customers t))
              (trip_coordinates t)).
Proof.
  intros [Hnd Hall]. simpl in Hnd. inversion Hnd as [|? ? Hnotin Hnd']; subst. split; auto.
  intros c Hc. destruct (Hall c (or_intror Hc)) as [Hin [Ht Hcomp]].
  split; auto. simpl. apply in_map_iff. exists c. split; auto.
  unfold setCompleted.
  destruct (String.eqb (customer_code c) (customer_code x)) eqn:Heq.
  - apply String.eqb_eq in Heq. exfalso. apply Hnotin.
    apply in_map_iff. exists c. auto.
  - rewrite andb_false_r. reflexivity.
Qed.

Lemma isIncomplete_not_allStopsCompleted tripId code t :
  isIncomplete tripId code t -> ~ allStopsCompleted tripId t.
Proof.
  intros [c [Hin [Ht [_ Hc]]]] [_ Hall].
  rewrite forallb_forall in Hall.
  specialize (Hall (completed c)). rewrite Hc in Hall.
  assert (false = true) as Habs; [|discriminate].
  apply Hall. unfold completedFlagsOf. apply in_map_iff. exists c. split; auto.
  apply filter_In. split; auto. apply String.eqb_eq. exact Ht.
Qed.

(** ** The functions of the server under a stable pair *)

Section StableFunctions.

Variable distance : Point -> Point -> R.
Variable strict : Prop.
Variables I X : World -> Prop.

Lemma checkTripCompletion_stable now tripId w :
  stable strict (checkSite tripId) I X ->
  I w -> (strict -> isActive tripId (db w)) ->
  wp (checkTripCompletion now tripId)
     (fun _ w' => I w' /\ (db w' = db w
                           \/ (allStopsCompleted tripId (db w)
                               /\ db w' = complete_trip tripId now (db w))))
     (fun _ => X) w.
Proof.
  intros HS HI Hact. unfold checkTripCompletion. apply wp_bind.
  unfold selectCompletedFlags.
  apply (wp_storeOp_stable strict _ I X HS);
    [exact HI|reflexivity|constructor|simpl; intros HI1].
  destruct ((0 <? Z.of_nat (length (completedFlagsOf tripId (db w))))%Z
            && forallb (fun c => c) (completedFlagsOf tripId (db w))) eqn:Hc.
  - apply andb_true_iff in Hc. destruct Hc as [Hlen Hall].
    assert (allStopsCompleted tripId (db w)) as Hdone.
    { split; auto. intros Hnil. rewrite Hnil in Hlen. discriminate. }
    unfold rpcCompleteTrip.
    apply (wp_storeOp_stable strict _ I X HS);
      [exact HI1|reflexivity|simpl; constructor; auto|simpl; intros HI2].
    split; auto.
  - apply wp_ret. split; auto.
Qed.

Lemma startedTripsOf_head plate t trip trips :
  startedTripsOf plate t = trip :: trips ->
  List.In trip (route_plans t) /\ vehicle_plate trip = plate
  /\ actual_start_time trip <> None /\ actual_end_time trip = None.
Proof.
  intros Htrips.
  assert (List.In trip (startedTripsOf plate t)) as Hin
    by (rewrite Htrips; left; reflexivity).
  apply filter_In in Hin. destruct Hin as [Hin Hp].
  apply andb_true_iff in Hp. destruct Hp as [Hp He].
  apply andb_true_iff in Hp. destruct Hp as [Hp Hs].
  apply String.eqb_eq in Hp.
  repeat split; auto.
  - destruct (actual_start_time trip); [discriminate|discriminate Hs].
  - destruct (actual_end_time trip); [discriminate He|reflexivity].
Qed.

Lemma pendingRows_head tripId x rest t :
  pendingRows tripId (x :: rest) t -> isIncomplete tripId (customer_code x) t.
Proof.
  intros [_ Hall]. destruct (Hall x (or_introl eq_refl)) as [? [? ?]].
  exists x. auto.
Qed.

Lemma handleLongStop_stable now plate loc w :
  stable strict (longStopSite now plate) I X ->
  I (emitted (LongStop plate loc) w) -> (strict -> wellFormed (db w)) ->
  wp (handleLongStop distance now plate loc) (fun _ => I) (fun _ => X) w.
Proof.
  intros HS HI Hwf. unfold handleLongStop.
  apply wp_bind, wp_emit. fold (emitted (LongStop plate loc) w).
  apply wp_bind. unfold selectStartedTrips.
  apply (wp_storeOp_stable strict _ I X HS);
    [exact HI|reflexivity|constructor|simpl; intros HI2].
  destruct (startedTripsOf plate (db w)) as [|trip trips] eqn:Htrips.
  { apply wp_ret. exact HI2. }
  assert (isActive (trip_id trip) (db w)) as Hact.
  { destruct (startedTripsOf_head _ _ _ _ Htrips) as [? [? [? ?]]].
    exists trip. auto. }
  apply wp_bind. unfold selectIncomplete.
  apply (wp_storeOp_stable strict _ I X HS);
    [exact HI2|exact Logic.I|constructor|simpl; intros HI3].
  apply wp_bind.
  eapply wp_mono.
  - apply (wp_forEach
             (fun rest w' => I w' /\ (strict -> isActive (trip_id trip) (db w')
                                       /\ pendingRows (trip_id trip) rest (db w')))).
    + intros x rest w' [HIw Hpre].
      destruct (Rle_dec _ 1).
      * unfold updateCompleted.
        apply (wp_storeOp_stable strict _ I X HS);
          [exact HIw|reflexivity| |simpl; intros HI4].
        { simpl. constructor. intros Hstrict.
          destruct (Hpre Hstrict) as [Hactw Hpend]. split; auto.
          eapply pendingRows_head; eauto. }
        split; auto. intros Hstrict.
        destruct (Hpre Hstrict) as [Hactw Hpend]. split.
        { exact Hactw. }
        { apply pendingRows_setCompleted. exact Hpend. }
      * apply wp_ret. split; auto. intros Hstrict.
        destruct (Hpre Hstrict) as [Hactw Hpend]. split; auto.
        eapply pendingRows_tail; eauto.
    + split; [exact HI3|]. intros Hstrict. split; [exact Hact|].
      simpl. apply pendingRows_incompleteOf. auto.
  - intros u w' [HIw Hpre].
    eapply wp_mono.
    + apply checkTripCompletion_stable; [|exact HIw|].
      * eapply stable_weaken; [|exact HS].
        intros [] Hc; simpl in *; auto; contradiction.
      * intros Hstrict. apply (Hpre Hstrict).
    + intros ? ? [? _]. auto.
    + auto.
  - auto.
Qed.

Lemma openTripsOf_head plate t trip trips :
  openTripsOf plate t = trip :: trips ->
  List.In trip (route_plans t) /\ vehicle_plate trip = plate /\ actual_end_time trip = None.
Proof.
  intros Htrips.
  assert (List.In trip (openTripsOf plate t)) as Hin by (rewrite Htrips; left; reflexivity).
  apply filter_In in Hin. destruct Hin as [Hin Hp].
  apply andb_true_iff in Hp. destruct Hp as [Hp He].
  apply String.eqb_eq in Hp.
  destruct (actual_end_time trip); [discriminate He|auto].
Qed.

Lemma completionLoop_stable now vehicleData tripId Lat Lng customers w :
  stable strict (startedTripSite now vehicleData tripId) I X ->
  I w ->
  (strict -> customers <> [] ->
   isActive tripId (db w) /\ pendingRows tripId customers (db w)) ->
  wp (forEach customers (fun customer =>
        if Rle_dec (distance (Lng, Lat) (longitude customer, latitude customer)) 1
        then updateCompleted tripId (customer_code customer) now ;;
             checkTripCompletion now tripId
        else ret tt))
     (fun _ => I) (fun _ => X) w.
Proof.
  intros HS HI4 Hpre0.
  eapply wp_mono.
  - apply (wp_forEach
             (fun rest w' => I w' /\ (strict -> rest <> [] ->
                               isActive tripId (db w')
                               /\ pendingRows tripId rest (db w')))).
    + intros x rest w' [HIw Hpre].
      destruct (Rle_dec _ 1).
      * apply wp_bind. unfold updateCompleted.
        apply (wp_storeOp_stable strict _ I X HS);
          [exact HIw|simpl; auto| |simpl; intros HI5].
        { simpl. constructor. intros Hstrict.
          destruct (Hpre Hstrict ltac:(discriminate)) as [Hactw Hpend].
          split; auto. eapply pendingRows_head; eauto. }
        eapply wp_mono.
        -- apply checkTripCompletion_stable; [|exact HI5|].
           ++ eapply stable_weaken; [|exact HS].
              intros [] Hc; simpl in *; auto; contradiction.
           ++ intros Hstrict. simpl. apply (Hpre Hstrict). discriminate.
        -- simpl. intros u w'' [HI6 Hdb]. split; auto.
           intros Hstrict Hne.
           destruct (Hpre Hstrict ltac:(discriminate)) as [Hactw Hpend].
           pose proof (pendingRows_setCompleted _ _ _ now _ Hpend) as Hpend'.
           destruct Hdb as [Hdb|[Hdone _]].
           ++ rewrite Hdb. simpl. split; auto.
           ++ exfalso. destruct rest as [|c' rest']; [congruence|].
              eapply isIncomplete_not_allStopsCompleted; [|exact Hdone].
              eapply pendingRows_head; eauto.
        -- auto.
      * apply wp_ret. split; auto. intros Hstrict Hne.
        destruct (Hpre Hstrict ltac:(discriminate)) as [Hactw Hpend].
        split; auto. eapply pendingRows_tail; eauto.
    + split; [exact HI4|exact Hpre0].
  - intros u w' [HIw _]. exact HIw.
  - auto.
Qed.

Lemma processStartedTrip_stable now vehicleData tripId Lat Lng w :
  Latitude vehicleData = Some Lat -> Longitude vehicleData = Some Lng ->
  stable strict (startedTripSite now vehicleData tripId) I X ->
  I w -> isActive tripId (db w) -> (strict -> wellFormed (db w)) ->
  wp (processStartedTrip distance now vehicleData tripId Lat Lng)
     (fun _ => I) (fun _ => X) w.
Proof.
  intros HLat HLng HS HI2 Hact2 Hwf2. unfold processStartedTrip.
  apply wp_bind. unfold insertCoordinate.
  apply (wp_storeOp_stable strict _ I X HS);
    [exact HI2|simpl; rewrite HLat, HLng; auto 10
    |simpl; constructor; exact Hact2|simpl; intros HI3].
  apply wp_bind. unfold selectIncomplete.
  apply (wp_storeOp_stable strict _ I X HS);
    [exact HI3|reflexivity|constructor|simpl; intros HI4].
  apply (completionLoop_stable now vehicleData); [exact HS|exact HI4|].
  intros Hstrict _. simpl. split; [exact Hact2|].
  apply (pendingRows_incompleteOf tripId
           (mkTables (route_plans (db w)) (assigned_customers (db w))
              (trip_coordinates (db w) ++
                 [mkCoordinate tripId (Plate vehicleData) Lat Lng
                               (Speed vehicleData) now]))).
  exact (Hwf2 Hstrict).
Qed.

Lemma startedTripSite_telemetrySite now vehicleData tripId c :
  startedTripSite now vehicleData tripId c -> telemetrySite now vehicleData c.
Proof. destruct c; simpl; tauto. Qed.

Lemma processVehicleData_stable now vehicleData w :
  stable strict (telemetrySite now vehicleData) I X ->
  I w -> (strict -> wellFormed (db w)) ->
  wp (processVehicleData distance now vehicleData) (fun _ => I) (fun _ => X) w.
Proof.
  intros HS HI Hwf. unfold processVehicleData.
  apply wp_tryCatch.
  eapply wp_mono with (Q := fun _ => I) (E := fun _ => X).
  2: { auto. }
  2: { intros e w' HX. apply wp_bind. unfold consoleError. apply wp_emit.
       apply wp_throw. apply (stable_console strict _ I X HS). exact HX. }
  destruct (truthy (Plate vehicleData)); [|apply wp_ret; exact HI].
  destruct (Latitude vehicleData) as [Lat|] eqn:HLat; [|apply wp_ret; exact HI].
  destruct (Longitude vehicleData) as [Lng|] eqn:HLng; [|apply wp_ret; exact HI].
  apply wp_bind. unfold selectOpenTrips.
  apply (wp_storeOp_stable strict _ I X HS);
    [exact HI|reflexivity|constructor|simpl; intros HI1].
  destruct (openTripsOf (Plate vehicleData) (db w)) as [|trip trips] eqn:Htrips.
  { apply wp_ret. exact HI1. }
  destruct (openTripsOf_head _ _ _ _ Htrips) as [Hin [Hplate Hend]].
  set (w1 := called (SelectOpenTrips (Plate vehicleData)) (db w) w) in *.
  apply wp_bind.
  assert (stable strict (startedTripSite now vehicleData (trip_id trip)) I X) as HS'.
  { eapply stable_weaken; [|exact HS]. apply startedTripSite_telemetrySite. }
  destruct (isNone (actual_start_time trip) && (0 <? Speed vehicleData)%Z) eqn:Hstart.
  - apply andb_true_iff in Hstart. destruct Hstart as [Hnone Hspeed].
    apply wp_bind. unfold updateStartTime.
    apply (wp_storeOp_stable strict _ I X HS);
      [exact HI1|simpl; split; [apply Z.ltb_lt; exact Hspeed|reflexivity]
      | |simpl; intros HI2].
    { simpl. constructor. exists trip. repeat split; auto.
      destruct (actual_start_time trip); [discriminate Hnone|reflexivity]. }
    apply wp_ret. apply processStartedTrip_stable; auto.
    simpl. exists (setStart (trip_id trip) now trip). split.
    + apply in_map. exact Hin.
    + unfold setStart. rewrite String.eqb_refl. simpl.
      repeat split; try discriminate; auto.
  - apply wp_ret.
    destruct (actual_start_time trip) as [s|] eqn:Hs; [|apply wp_ret; exact HI1].
    apply processStartedTrip_stable; auto.
    simpl. exists trip. rewrite Hs. repeat split; try discriminate; auto.
Qed.

End StableFunctions.

(** ** The handlers under a predicate kept by every step *)

Section StableHandlers.

Variable distance : Point -> Point -> R.
Variable strict : Prop.
Variables I X : World -> Prop.

Lemma stableRun_weaken (site site' : StoreCall -> Prop)
    (update update' : (Memory -> Memory) -> Prop) :
  (forall c, site' c -> site c) -> (forall f, update' f -> update f) ->
  stableRun strict site update I X -> stableRun strict site' update' I X.
Proof.
  intros Hsub Hup [Hs Hm He Hw]. constructor; auto.
  eapply stable_weaken; eauto.
Qed.

Lemma trackStop_phases now vehicleData Lat Lng locTime w :
  stableRun strict (longStopSite now (Plate vehicleData)) messageUpdate I X ->
  I w ->
  wp (trackStop distance now vehicleData Lat Lng locTime) (fun _ => I) (fun _ => X) w.
Proof.
  intros HR HI. unfold trackStop.
  assert (forall g w', I w' ->
            wp (modifyMem (setVehicleStops g)) (fun _ => I) (fun _ => X) w') as Hmod.
  { intros g w' HI'. apply wp_modifyMem.
    apply (stableRun_mem strict _ _ I X HR _ w'); [right; eauto|exact HI']. }
  destruct (Speed vehicleData =? 0)%Z.
  - apply wp_bind, wp_getMem.
    destruct (vehicleStops (mem w) !! Plate vehicleData) as [stopInfo|].
    + apply wp_bind. eapply wp_mono; [apply Hmod; exact HI| |auto].
      intros u w1 HI1.
      destruct (Qle_bool 5 _ && negb (processed stopInfo)).
      * apply wp_bind. eapply wp_mono.
        -- apply (handleLongStop_stable distance strict I X).
           ++ apply (stableRun_stable strict _ _ I X HR).
           ++ apply (stableRun_emit strict _ _ I X HR); [exact Logic.I|exact HI1].
           ++ intros Hstrict.
              apply (stableRun_wellFormed strict _ _ I X HR Hstrict _ HI1).
        -- intros u' w' HI'. apply Hmod. exact HI'.
        -- auto.
      * apply wp_ret. exact HI1.
    + apply Hmod. exact HI.
  - apply Hmod. exact HI.
Qed.

(** [ws.on('message')] never throws.  It ends either in normal execution, or
    with the error line of its [catch] block appended to the world in which
    the exception was raised. *)
Lemma onMessage_phases now data w :
  stableRun strict (messageSite now data) messageUpdate I X ->
  I w ->
  wp (onMessage distance now data)
     (fun _ w' =>
        I w' \/ exists w1, (I w1 \/ X w1)
                           /\ w' = emitted (Console ErrParsingWebSocketData) w1)
     (fun _ _ => False) w.
Proof.
  intros HR HI. unfold onMessage. apply wp_tryCatch.
  eapply wp_mono with (Q := fun _ => I) (E := fun _ w1 => I w1 \/ X w1).
  2: { auto. }
  2: { intros e w' HI'. unfold consoleError. apply wp_emit. right. exists w'. auto. }
  assert (forall line w', I w' -> I (emitted (Console line) w')) as Hline.
  { intros line w' HI'. apply (stableRun_emit strict _ _ I X HR); [exact Logic.I|exact HI']. }
  destruct data as [|vehicleData].
  { apply wp_throw. left. exact HI. }
  apply wp_bind, wp_modifyMem.
  pose proof (stableRun_mem strict _ _ I X HR
                (setVehicleDataCache (insert (Plate vehicleData) vehicleData)) w
                (or_introl (ex_intro _ _ eq_refl)) HI) as HI1.
  unfold withMem in HI1.
  destruct (Latitude vehicleData) as [Lat|] eqn:HLat.
  2: { unfold consoleError. apply wp_emit. apply Hline. exact HI1. }
  destruct (Longitude vehicleData) as [Lng|] eqn:HLng.
  2: { unfold consoleError. apply wp_emit. apply Hline. exact HI1. }
  destruct (LocTime vehicleData) as [|raw|locTime].
  - apply wp_ret. exact HI1.
  - unfold consoleError. apply wp_emit. apply Hline. exact HI1.
  - apply wp_bind. eapply wp_mono.
    + apply trackStop_phases; [|exact HI1].
      eapply stableRun_weaken; [| |exact HR]; simpl; auto.
    + intros u w' HI'. eapply wp_mono.
      * apply (processVehicleData_stable distance strict I X); [|exact HI'|].
        -- eapply stable_weaken; [|apply (stableRun_stable strict _ _ I X HR)].
           simpl. auto.
        -- intros Hstrict. apply (stableRun_wellFormed strict _ _ I X HR Hstrict _ HI').
      * auto.
      * simpl. auto.
    + simpl. auto.
Qed.

End StableHandlers.

Section StableRuns.

Variable distance : Point -> Point -> R.
Variable strict : Prop.
Variable I : World -> Prop.

(** [ws.on('message')] keeps a predicate that every step keeps. *)
Lemma onMessage_run now data w :
  stableRun strict (messageSite now data) messageUpdate I I ->
  I w -> wp (onMessage distance now data) (fun _ => I) (fun _ _ => False) w.
Proof.
  intros HR HI. eapply wp_mono.
  - apply (onMessage_phases distance strict I I); eauto.
  - simpl. intros u w' [H|[w1 [H ->]]]; [exact H|].
    apply (stableRun_emit strict _ _ I I HR); [exact Logic.I|tauto].
  - auto.
Qed.

Lemma onOpen_run w :
  stableRun strict (inputSite WsOpen) (fun _ => True) I I ->
  I w -> wp onOpen (fun _ => I) (fun _ _ => False) w.
Proof.
  intros HR HI. unfold onOpen. apply wp_bind, wp_tryCatch.
  assert (forall w', I w' ->
            wp initializeSubscriptions (fun _ => I) (fun _ _ => False) w') as Hinit.
  { intros w' HI'. unfold initializeSubscriptions. apply wp_bind, wp_getMem.
    destruct (subscriptionsInitialized (mem w')).
    - apply wp_ret. exact HI'.
    - apply wp_modifyMem. apply (stableRun_mem strict _ _ I I HR _ w' Logic.I HI'). }
  eapply wp_mono with (Q := fun _ => I) (E := fun _ => I).
  2: { intros u w' HI'. apply Hinit. exact HI'. }
  2: { intros e w' HI'. unfold consoleError. apply wp_emit.
       apply Hinit. apply (stableRun_emit strict _ _ I I HR); [exact Logic.I|exact HI']. }
  apply wp_bind. unfold selectActiveTrips.
  apply (wp_storeOp_stable strict _ I I (stableRun_stable strict _ _ I I HR));
    [exact HI|reflexivity|constructor|simpl; intros HI1].
  eapply wp_mono.
  - apply (wp_forEach (fun _ => I)).
    + intros x rest w' HI'. apply (wp_modifyMem _ _ (fun _ => I)).
      apply (stableRun_mem strict _ _ I I HR _ w' Logic.I HI').
    + exact HI1.
  - auto.
  - auto.
Qed.

Lemma handle_run i w :
  stableRun strict (inputSite i) (fun _ => True) I I ->
  I w -> wp (handle distance i) (fun _ => I) (fun _ _ => False) w.
Proof.
  intros HR HI. destruct i as [|now data|new|new old]; simpl.
  - apply onOpen_run; auto.
  - apply onMessage_run; auto.
    eapply stableRun_weaken; [| |exact HR]; auto. intros f _. exact Logic.I.
  - unfold onTripInserted. apply wp_modifyMem.
    apply (stableRun_mem strict _ _ I I HR _ w Logic.I HI).
  - unfold onTripUpdated. destruct (_ && _).
    + apply wp_modifyMem. apply (stableRun_mem strict _ _ I I HR _ w Logic.I HI).
    + apply wp_ret. exact HI.
Qed.

Lemma run_run inputs :
  stableRun strict (fun _ => True) (fun _ => True) I I ->
  forall w, I w -> wp (run distance inputs) (fun _ => I) (fun _ _ => False) w.
Proof.
  intros HR. induction inputs as [|i rest IH]; intros w HI; simpl.
  - apply wp_ret. exact HI.
  - apply wp_bind. eapply wp_mono.
    + apply handle_run; [|exact HI].
      eapply stableRun_weaken; [| |exact HR]; auto. intros c _. exact Logic.I.
    + intros u w' HI'. apply IH. exact HI'.
    + auto.
Qed.

(** Reading the result of a handler that never throws. *)
Lemma wp_returns (m : M unit) w :
  wp m (fun _ => I) (fun _ _ => False) w -> outcome m w = Ret tt /\ I (exec m w).
Proof.
  intros H. apply wp_outcome in H.
  destruct (outcome m w) as [[]|e]; [auto|contradiction].
Qed.

(** The server never stops on an exception, and keeps the predicate. *)
Lemma run_returns inputs w :
  stableRun strict (fun _ => True) (fun _ => True) I I ->
  I w -> outcome (run distance inputs) w = Ret tt /\ I (exec (run distance inputs) w).
Proof. intros HR HI. apply wp_returns, run_run; auto. Qed.

End StableRuns.

(** ** Every execution of the server leaves a valid trace *)

Lemma validTrace_app strict t e1 t1 e2 t2 :
  validTrace strict t e1 t1 -> validTrace strict t1 e2 t2 ->
  validTrace strict t (e1 ++ e2) t2.
Proof.
  induction 1; simpl; intros H2; auto.
  - econstructor; eauto.
  - apply validTrace_other; auto.
Qed.

Lemma newEvents_app w w' new : events w' = events w ++ new -> newEvents w w' = new.
Proof.
  intros H. unfold newEvents. rewrite H.
  rewrite skipn_app, skipn_all, Nat.sub_diag. reflexivity.
Qed.

Lemma follows_refl strict w : (strict -> wellFormed (db w)) -> follows strict w w.
Proof.
  intros Hwf. split; auto. exists []. split.
  - rewrite app_nil_r. reflexivity.
  - constructor.
Qed.

Lemma follows_stableRun strict site update w0 :
  stableRun strict site update (follows strict w0) (follows strict w0).
Proof.
  assert (forall ev w, (forall c, ev <> Call c) -> follows strict w0 w ->
                       follows strict w0 (emitted ev w)) as Hemit.
  { intros ev w Hev [Hwf [new [Hev' Hvt]]]. split; auto.
    exists (new ++ [ev]). split.
    - simpl. rewrite Hev', <- app_assoc. reflexivity.
    - eapply validTrace_app; eauto. apply validTrace_other; auto. constructor. }
  constructor.
  - constructor.
    + intros c t w [Hwf [new [Hev Hvt]]] _ _ Hap. split.
      * intros Hstrict. simpl. eapply applies_wellFormed; eauto.
      * exists (new ++ [Call c]). split.
        -- simpl. rewrite Hev, <- app_assoc. reflexivity.
        -- eapply validTrace_app; eauto. econstructor; eauto. constructor.
    + intros c w [Hwf [new [Hev Hvt]]] _. split; auto.
      exists (new ++ [Failed c (mem w)]). split.
      * simpl. rewrite Hev, <- app_assoc. reflexivity.
      * eapply validTrace_app; eauto. apply validTrace_other; [discriminate|constructor].
    + intros line w. apply Hemit. discriminate.
  - intros f w _ [Hwf [new [Hev Hvt]]]. split; auto. exists new. auto.
  - intros ev w Hsig. apply Hemit. intros c ->. exact Hsig.
  - intros Hstrict w [Hwf _]. auto.
Qed.

(** The server never throws, only appends to the trace, and what it appends
    is a valid trace. *)
Lemma run_validTrace distance strict inputs w :
  (strict -> wellFormed (db w)) ->
  outcome (run distance inputs) w = Ret tt
  /\ events (exec (run distance inputs) w)
     = events w ++ newEvents w (exec (run distance inputs) w)
  /\ validTrace strict (db w) (newEvents w (exec (run distance inputs) w))
                (db (exec (run distance inputs) w)).
Proof.
  intros Hwf.
  destruct (run_returns distance strict (follows strict w) inputs w
              (follows_stableRun strict _ _ w) (follows_refl strict w Hwf))
    as [Hret [_ [new [Hev Hvt]]]].
  rewrite (newEvents_app _ _ _ Hev). auto.
Qed.

(** ** Events that a valid trace holds at most once *)

Section OneShot.

Variable strict : Prop.
Variable P : Tables -> Prop.
Variable p : Event -> bool.

Hypothesis p_other : forall ev, (forall c, ev <> Call c) -> p ev = false.
Hypothesis p_needs : forall c t t',
  applies strict c t t' -> ~ P t -> ~ P t' /\ p (Call c) = false.

(** Once [P] is lost it stays lost, and no event of [p] occurs. *)
Lemma validTrace_never t evs t' :
  validTrace strict t evs t' -> ~ P t -> occurrences p evs = 0%nat /\ ~ P t'.
Proof.
  unfold occurrences. induction 1 as [t|c t t1 evs t2 Hap Hvt IH|ev t evs t2 Hev Hvt IH];
    intros HnP; simpl.
  - auto.
  - destruct (p_needs c t t1 Hap HnP) as [HnP1 Hp]. rewrite Hp. auto.
  - rewrite (p_other ev Hev). auto.
Qed.

Hypothesis p_consumes : forall c t t',
  applies strict c t t' -> p (Call c) = true -> ~ P t'.


End OneShot.

Lemma filter_trip_map (f : Trip -> Trip) tripId l :
  (forall r, trip_id (f r) = trip_id r) ->
  List.filter (fun r => String.eqb (trip_id r) tripId) (map f l)
  = map f (List.filter (fun r => String.eqb (trip_id r) tripId) l).
Proof.
  intros Hf. induction l as [|r l IH]; simpl; auto.
  rewrite Hf. destruct (String.eqb (trip_id r) tripId); simpl; rewrite IH; reflexivity.
Qed.

Lemma trip_id_setStart tripId time r : trip_id (setStart tripId time r) = trip_id r.
Proof. unfold setStart. destruct (String.eqb _ _); reflexivity. Qed.

Lemma trip_id_setEnd tripId time r : trip_id (setEnd tripId time r) = trip_id r.
Proof. unfold setEnd. destruct (String.eqb _ _); reflexivity. Qed.

(** *** The start transition *)







(** ** Calls by site, and executions without faults *)

Lemma issues_refl site w : issues site w w.
Proof. exists []. rewrite app_nil_r. auto. Qed.

Lemma issues_emitted site w0 ev w :
  callIn site ev -> issues site w0 w -> issues site w0 (emitted ev w).
Proof.
  intros Hev [new [He Hall]]. exists (new ++ [ev]). split.
  - simpl. rewrite He, <- app_assoc. reflexivity.
  - apply Forall_app. split; auto.
Qed.

Lemma issues_stableRun site update w0 :
  stableRun False site update (issues site w0) (issues site w0).
Proof.
  constructor.
  - constructor.
    + intros c t w [new [He Hall]] _ Hsite _. exists (new ++ [Call c]). split.
      * simpl. rewrite He, <- app_assoc. reflexivity.
      * apply Forall_app. split; auto. constructor; auto.
        intros c' Heq. inversion Heq; subst. exact Hsite.
    + intros c w [new [He Hall]] _. exists (new ++ [Failed c (mem w)]). split.
      * simpl. rewrite He, <- app_assoc. reflexivity.
      * apply Forall_app. split; auto. constructor; auto. intros c' Heq. discriminate.
    + intros line w. apply issues_emitted. intros c Heq. discriminate.
  - intros f w _ [new [He Hall]]. exists new. auto.
  - intros ev w Hev. apply issues_emitted. intros c ->. destruct Hev.
  - intros [].
Qed.

Lemma issues_newEvents site w0 w : issues site w0 w -> Forall (callIn site) (newEvents w0 w).
Proof. intros [new [He Hall]]. rewrite (newEvents_app _ _ _ He). exact Hall. Qed.





Lemma wp_storeOp_faultless {A} c (f : Tables -> A * Tables) (Q : A -> World -> Prop) E w :
  faultless w ->
  Q (fst (f (db w))) (called c (snd (f (db w))) w) ->
  wp (storeOp c f) Q E w.
Proof.
  intros Hf HQ. apply wp_storeOp. unfold called in HQ. unfold faultless in Hf.
  rewrite Hf in *. exact HQ.
Qed.

Lemma faultless_called c t w : faultless w -> faultless (called c t w).
Proof. unfold faultless. simpl. intros ->. reflexivity. Qed.




(** *** Completion of stops and of trips *)




Lemma isCompletionOf_other tripId ev :
  (forall c, ev <> Call c) -> isCompletionOf tripId ev = false.
Proof. destruct ev; auto. intros H. exfalso. eapply H. reflexivity. Qed.





(** *** Trips without stops *)

Lemma completedFlagsOf_setCompleted_length tripId tripId' code time t :
  length (completedFlagsOf tripId
            (mkTables (route_plans t)
                      (map (setCompleted tripId' code time) (assigned_customers t))
                      (trip_coordinates t)))
  = length (completedFlagsOf tripId t).
Proof.
  unfold completedFlagsOf. simpl. rewrite !length_map.
  induction (assigned_customers t) as [|c l IH]; simpl; auto.
  replace (cust_trip_id (setCompleted tripId' code time c)) with (cust_trip_id c)
    by (unfold setCompleted; destruct (_ && _); reflexivity).
  destruct (String.eqb (cust_trip_id c) tripId); simpl; rewrite IH; reflexivity.
Qed.

Lemma hasStops_lost strict tripId c t t' :
  applies strict c t t' -> ~ hasStops tripId t ->
  ~ hasStops tripId t' /\ isCompletionOf tripId (Call c) = false.
Proof.
  intros Hap HnP. destruct Hap; simpl; auto.
  - split; auto. unfold hasStops in *. intros Hne. apply HnP. intros Hnil.
    apply Hne. apply length_zero_iff_nil.
    rewrite completedFlagsOf_setCompleted_length, Hnil. reflexivity.
  - split; auto.
    destruct (String.eqb tripId0 tripId) eqn:Heq; auto.
    apply String.eqb_eq in Heq. subst.
    exfalso. apply HnP. destruct H0 as [Hne _]. exact Hne.
Qed.

(** The end times of a trip without stops never change. *)
Lemma validTrace_endTimesOf strict tripId t evs t' :
  validTrace strict t evs t' -> ~ hasStops tripId t ->
  endTimesOf tripId t' = endTimesOf tripId t.
Proof.
  induction 1 as [t|c t t1 evs t2 Hap Hvt IH|ev t evs t2 Hev Hvt IH]; intros HnP; auto.
  destruct (hasStops_lost strict tripId c t t1 Hap HnP) as [HnP1 Hp].
  rewrite (IH HnP1). clear IH Hvt.
  destruct Hap; auto; unfold endTimesOf; simpl.
  - rewrite filter_trip_map by (intros; apply trip_id_setStart).
    rewrite map_map. apply map_ext. intros r.
    unfold setStart. destruct (String.eqb _ _); reflexivity.
  - simpl in Hp.
    rewrite filter_trip_map by (intros; apply trip_id_setEnd).
    rewrite map_map. apply map_ext_in. intros r Hr.
    apply filter_In in Hr. destruct Hr as [_ Hr]. apply String.eqb_eq in Hr.
    unfold setEnd. rewrite Hr.
    rewrite String.eqb_sym, Hp. reflexivity.
Qed.

Lemma allStopsCompleted_test tripId t :
  (0 <? Z.of_nat (length (completedFlagsOf tripId t)))%Z
  && forallb (fun c => c) (completedFlagsOf tripId t) = true
  <-> allStopsCompleted tripId t.
Proof.
  unfold allStopsCompleted. rewrite andb_true_iff. split; intros [H1 H2]; split; auto.
  - intros Hnil. rewrite Hnil in H1. discriminate.
  - destruct (completedFlagsOf tripId t); [congruence|reflexivity].
Qed.

(** C10. [checkTripCompletion] on a trip without customer stops issues no
    [complete_trip] call and leaves the tables as they are; when no store
    call fails, it issues the call exactly when the trip has at least one
    stop and all its stops are completed; and over any run of the server a
    trip without stops is never completed: no [complete_trip] call for it is
    issued and its end time stays as it was. *)
Theorem no_stops_never_completed distance :
  (forall now tripId w,
     ~ hasStops tripId (db w) ->
     db (exec (checkTripCompletion now tripId) w) = db w
     /\ ~ List.In (Call (RpcCompleteTrip tripId))
                  (newEvents w (exec (checkTripCompletion now tripId) w)))
  /\ (forall now tripId w,
        faultless w ->
        (List.In (Call (RpcCompleteTrip tripId))
                 (newEvents w (exec (checkTripCompletion now tripId) w))
         <-> allStopsCompleted tripId (db w)))
  /\ (forall inputs w tripId,
        ~ hasStops tripId (db w) ->
        occurrences (isCompletionOf tripId)
                    (newEvents w (exec (run distance inputs) w)) = 0%nat
        /\ endTimesOf tripId (db (exec (run distance inputs) w))
           = endTimesOf tripId (db w)).
Proof.
  split; [|split].
  - intros now tripId w Hn.
    assert (completedFlagsOf tripId (db w) = []) as Hnil.
    { unfold hasStops in Hn. destruct (completedFlagsOf tripId (db w)); [auto|].
      exfalso. apply Hn. discriminate. }
    unfold checkTripCompletion, selectCompletedFlags, bind, storeOp, exec, newEvents.
    destruct (faults w) as [|[|] rest]; simpl; rewrite ?Hnil; simpl;
      rewrite skipn_app, skipn_all, Nat.sub_diag; simpl;
      (split; [reflexivity|intros [H|[]]; discriminate]).
  - intros now tripId w Hf. rewrite <- allStopsCompleted_test.
    unfold checkTripCompletion, selectCompletedFlags, rpcCompleteTrip, bind, storeOp,
      exec, newEvents.
    unfold faultless in Hf. rewrite Hf. simpl.
    destruct ((0 <? Z.of_nat (length (completedFlagsOf tripId (db w))))%Z
              && forallb (fun c => c) (completedFlagsOf tripId (db w))); simpl.
    + rewrite <- app_assoc, skipn_app, skipn_all, Nat.sub_diag. simpl.
      split; auto.
    + rewrite skipn_app, skipn_all, Nat.sub_diag. simpl.
      split; [intros [H|[]]; discriminate|discriminate].
  - intros inputs w tripId Hn.
    destruct (run_validTrace distance False inputs w ltac:(intros [])) as [_ [_ Hvt]].
    split.
    + eapply (validTrace_never False (hasStops tripId)); eauto.
      * apply isCompletionOf_other.
      * intros. eapply hasStops_lost; eauto.
    + eapply validTrace_endTimesOf; eauto.
Qed.

(** ** The monitored-trip registry *)

Lemma forEach_modifyMem {A} (g : A -> Memory -> Memory) l : forall w,
  forEach l (fun x => modifyMem (g x)) w
  = (Ret tt, withMem (fun m => fold_left (fun m x => g x m) l m) w).
Proof.
  induction l as [|x l IH]; intros w; simpl.
  - unfold ret, withMem. destruct w; reflexivity.
  - unfold bind. simpl. rewrite IH. reflexivity.
Qed.

Lemma fold_left_setActiveTrips trips : forall m,
  fold_left (fun m trip =>
               setActiveTrips (startTripMonitoring (trip_id trip) (vehicle_plate trip)) m)
            trips m
  = setActiveTrips (reconciled trips) m.
Proof.
  induction trips as [|t l IH]; intros m; simpl.
  - destruct m; reflexivity.
  - rewrite IH. reflexivity.
Qed.

(** Two trips created for one plate are both registered. *)
Example registry_two_trips_one_plate :
  let reg := activeTrips (mem (exec (run greatCircleKm
                 [TripInserted (mkTrip "trip-1" "BH47JSGP" None None);
                  TripInserted (mkTrip "trip-2" "BH47JSGP" None None)])
                 (initialWorld (mkTables [] [] [])))) in
  reg !! "trip-1" = Some (mkMonitored "BH47JSGP")
  /\ reg !! "trip-2" = Some (mkMonitored "BH47JSGP").
Proof. vm_compute. split; reflexivity. Qed.

(** Handling a telemetry message never touches the registry. *)
Lemma onMessage_keeps_registry distance now data w :
  activeTrips (mem (exec (onMessage distance now data) w)) = activeTrips (mem w).
Proof.
  apply (wp_returns (fun w' => activeTrips (mem w') = activeTrips (mem w)) _ w).
  apply (onMessage_run distance False); [|reflexivity].
  constructor.
  - constructor; auto.
  - intros f w' [[g ->]|[g ->]] H; exact H.
  - auto.
  - intros [].
Qed.

(** C5 fails as stated: the registry does not keep at most one monitored trip
    per plate.  From the empty registry, two trips created for one plate are
    both registered. *)
Lemma registry_not_one_per_plate :
  onePerPlate (activeTrips (mem (initialWorld (mkTables [] [] []))))
  /\ ~ onePerPlate
         (activeTrips (mem (exec (run greatCircleKm
            [TripInserted (mkTrip "trip-1" "BH47JSGP" None None);
             TripInserted (mkTrip "trip-2" "BH47JSGP" None None)])
            (initialWorld (mkTables [] [] []))))).
Proof.
  split.
  - intros t1 t2 plate H1 _. simpl in H1. rewrite lookup_empty in H1. discriminate.
  - intros H.
    destruct registry_two_trips_one_plate as [H1 H2].
    specialize (H "trip-1" "trip-2" "BH47JSGP" H1 H2). discriminate.
Qed.

(** C5 (amended). The registry is keyed by trip id: a trip-created
    notification for a trip id that is already registered is ignored and the
    entry it has is kept; for a trip id that is not registered it adds the
    entry, whatever plates are registered, and touches no other entry; a
    trip-ended notification removes the entry of that trip id and no other;
    startup reconciliation registers the active trips of the store in the
    same way, one after the other; telemetry never changes the registry. *)
Theorem registry_keyed_by_trip_id :
  (forall reg tripId plate,
     (forall entry, reg !! tripId = Some entry ->
        startTripMonitoring tripId plate reg = reg)
     /\ (reg !! tripId = None ->
         startTripMonitoring tripId plate reg = <[tripId := mkMonitored plate]> reg)
     /\ (forall other, other <> tripId ->
           startTripMonitoring tripId plate reg !! other = reg !! other)
     /\ stopTripMonitoring tripId reg = delete tripId reg)
  /\ (forall new w,
        activeTrips (mem (exec (onTripInserted new) w))
        = startTripMonitoring (trip_id new) (vehicle_plate new) (activeTrips (mem w)))
  /\ (forall new old w,
        activeTrips (mem (exec (onTripUpdated new old) w))
        = if negb (isNone (actual_end_time new)) && isNone (actual_end_time old)
          then delete (trip_id new) (activeTrips (mem w))
          else activeTrips (mem w))
  /\ (forall w,
        faultless w ->
        activeTrips (mem (exec onOpen w))
        = reconciled (activeTripsOf (db w)) (activeTrips (mem w)))
  /\ (forall distance now data w,
        activeTrips (mem (exec (onMessage distance now data) w)) = activeTrips (mem w)).
Proof.
  assert (forall reg tripId, stopTripMonitoring tripId reg = delete tripId reg) as Hstop.
  { intros reg tripId. unfold stopTripMonitoring.
    destruct (reg !! tripId) eqn:Hl; auto.
    symmetry. apply delete_id. exact Hl. }
  split; [|split; [|split; [|split]]].
  - intros reg tripId plate. unfold startTripMonitoring. repeat split.
    + intros entry ->. reflexivity.
    + intros ->. reflexivity.
    + intros other Hne. destruct (reg !! tripId); auto.
      apply lookup_insert_ne. auto.
    + apply Hstop.
  - intros new w. reflexivity.
  - intros new old w. unfold onTripUpdated.
    destruct (negb (isNone (actual_end_time new)) && isNone (actual_end_time old)).
    + unfold exec. simpl. apply Hstop.
    + reflexivity.
  - intros w Hf. unfold onOpen, exec, bind, tryCatch, selectActiveTrips, storeOp.
    unfold faultless in Hf. rewrite Hf. simpl.
    rewrite forEach_modifyMem. simpl.
    unfold withMem, initializeSubscriptions, bind, getMem. simpl.
    rewrite fold_left_setActiveTrips. simpl.
    destruct (subscriptionsInitialized (mem w)); reflexivity.
  - intros. apply onMessage_keeps_registry.
Qed.

Lemma testTables_wellFormed start : wellFormed (testTables start).
Proof.
  unfold wellFormed. simpl. repeat constructor; simpl; intuition discriminate.
Defined.

(** ** The stop detector *)

(** The test on the dwell in minutes is a test on milliseconds. *)
Lemma stopDuration_five locTime start :
  Qle_bool 5 (stopDuration locTime start) = (fiveMinutes <=? locTime - start)%Z.
Proof.
  unfold stopDuration, fiveMinutes, Qle_bool. simpl.
  rewrite !Z.mul_1_r. reflexivity.
Qed.

Lemma longStops_app e1 e2 : longStops (e1 ++ e2) = longStops e1 ++ longStops e2.
Proof. unfold longStops. apply flat_map_app. Qed.

Lemma quiet_stable strict site m0 e0 stops :
  stable strict site (quiet m0 e0 stops) (fun _ => False).
Proof.
  constructor.
  - intros c t w [Hf [Hm [new [He Hl]]]] _ _ _. split; [|split].
    + apply faultless_called. exact Hf.
    + exact Hm.
    + exists (new ++ [Call c]). split.
      * simpl. rewrite He, <- app_assoc. reflexivity.
      * rewrite longStops_app, Hl. simpl. apply app_nil_r.
  - intros c w [Hf _] Hh. unfold faultless in Hf. rewrite Hf in Hh. discriminate.
  - auto.
Qed.

(** Without faults [processVehicleData] returns, leaves the in-memory state
    alone and invokes no long-stop handler. *)
Lemma processVehicleData_quiet distance now vehicleData m0 e0 stops w :
  quiet m0 e0 stops w ->
  wp (processVehicleData distance now vehicleData)
     (fun _ => quiet m0 e0 stops) (fun _ _ => False) w.
Proof.
  intros HQ.
  apply (processVehicleData_stable distance False _ _ now vehicleData w
           (quiet_stable _ _ _ _ _) HQ).
  intros [].
Qed.

(** Without faults [handleLongStop] returns, leaves the in-memory state alone
    and is the only long-stop invocation of its run. *)
Lemma handleLongStop_quiet distance now plate loc m0 e0 stops w :
  quiet m0 e0 stops w ->
  wp (handleLongStop distance now plate loc)
     (fun _ => quiet m0 e0 (stops ++ [(plate, loc)])) (fun _ _ => False) w.
Proof.
  intros [Hf [Hm [new [He Hl]]]].
  apply (handleLongStop_stable distance False _ _ now plate loc w
           (quiet_stable _ _ _ _ _)); [|intros []].
  split; [exact Hf|]. split; [exact Hm|].
  exists (new ++ [LongStop plate loc]). split.
  - simpl. rewrite He, <- app_assoc. reflexivity.
  - rewrite longStops_app, Hl. reflexivity.
Qed.

(** One sample at rest, without faults: the interval of the plate is opened
    or updated, and the long-stop handler is invoked exactly when the dwell
    has reached five minutes in an interval not yet processed. *)
Lemma onMessage_stopped distance now vehicleData plate w :
  faultless w -> stopped plate vehicleData ->
  wp (onMessage distance now (Parsed vehicleData))
     (fun _ w' =>
        faultless w'
        /\ vehicleStops (mem w')
           = <[plate := match vehicleStops (mem w) !! plate with
                        | None => openInterval vehicleData
                        | Some info => observe info vehicleData
                        end]> (vehicleStops (mem w))
        /\ exists new,
             events w' = events w ++ new
             /\ longStops new
                = match vehicleStops (mem w) !! plate with
                  | None => []
                  | Some info =>
                      if dwellReached info vehicleData && negb (processed info)
                      then [(plate, location info)] else []
                  end)
     (fun _ _ => False) w.
Proof.
  intros Hf [Hplate [Hspeed [HLat [HLng [ms Hloc]]]]].
  destruct (Latitude vehicleData) as [Lat|] eqn:ELat; [|congruence].
  destruct (Longitude vehicleData) as [Lng|] eqn:ELng; [|congruence].
  unfold onMessage. apply wp_tryCatch.
  apply wp_bind, wp_modifyMem. simpl. rewrite ELat, ELng, Hloc.
  apply wp_bind. unfold trackStop. rewrite Hspeed. simpl.
  apply wp_bind, wp_getMem. simpl. rewrite Hplate.
  assert (forall m0 fired w2 E,
            quiet m0 (events w) fired w2 ->
            wp (processVehicleData distance now vehicleData)
               (fun _ w' =>
                  faultless w' /\ vehicleStops (mem w') = vehicleStops m0
                  /\ exists new, events w' = events w ++ new /\ longStops new = fired)
               E w2) as Hpvd.
  { intros m0 fired w2 E HQ. eapply wp_mono.
    - apply processVehicleData_quiet. exact HQ.
    - intros u w' [Hf' [Hm' Hnew]]. rewrite Hm'. auto.
    - intros e w' []. }
  destruct (vehicleStops (mem w) !! plate) as [info|] eqn:Hlook.
  - apply wp_bind, wp_modifyMem. simpl.
    rewrite stopDuration_five.
    replace (fiveMinutes <=? ms - stopStart info)%Z with (dwellReached info vehicleData)
      by (unfold dwellReached, locTimeOf; rewrite Hloc; reflexivity).
    destruct (dwellReached info vehicleData && negb (processed info)) eqn:Hfire.
    + apply wp_bind. eapply wp_mono.
      * eapply (handleLongStop_quiet distance now plate (location info))
          with (e0 := events w) (stops := []).
        split; [exact Hf|]. split; [reflexivity|].
        exists []. simpl. rewrite app_nil_r. auto.
      * simpl. intros u w3 [Hf3 [Hm3 Hnew3]].
        apply wp_modifyMem. simpl.
        eapply wp_mono.
        -- apply Hpvd. split; [exact Hf3|]. split; [reflexivity|exact Hnew3].
        -- simpl. intros u' w' [Hf' [Hst Hnew']]. split; [exact Hf'|]. split; [|exact Hnew'].
           rewrite Hst, Hm3. simpl. rewrite insert_insert_eq.
           f_equal. unfold observe, locTimeOf. rewrite Hloc.
           apply andb_true_iff in Hfire. destruct Hfire as [-> _].
           rewrite orb_true_r. reflexivity.
        -- intros e w' H; exact H.
      * intros e w' [].
    + apply wp_ret. eapply wp_mono.
      * eapply (Hpvd _ []). split; [exact Hf|]. split; [reflexivity|].
        exists []. simpl. rewrite app_nil_r. auto.
      * simpl. intros u' w' [Hf' [Hst Hnew']]. split; [exact Hf'|]. split; [|exact Hnew'].
        rewrite Hst. f_equal. unfold observe, locTimeOf. rewrite Hloc.
        f_equal.
        destruct (processed info); simpl in *; [reflexivity|].
        rewrite andb_true_r in Hfire. rewrite Hfire. reflexivity.
      * intros e w' H; exact H.
  - apply wp_modifyMem. simpl. eapply wp_mono.
    + eapply (Hpvd _ []). split; [exact Hf|]. split; [reflexivity|].
      exists []. simpl. rewrite app_nil_r. auto.
    + simpl. intros u' w' [Hf' [Hst Hnew']]. split; [exact Hf'|]. split; [|exact Hnew'].
      rewrite Hst. f_equal. unfold openInterval, locTimeOf, positionOf.
      rewrite Hloc, ELat, ELng. reflexivity.
    + intros e w' H; exact H.
Qed.

Lemma run_stopped distance plate samples : forall w info,
  faultless w ->
  vehicleStops (mem w) !! plate = Some info ->
  Forall (fun s => stopped plate (snd s)) samples ->
  wp (run distance (telemetry samples))
     (fun _ w' =>
        faultless w'
        /\ vehicleStops (mem w') !! plate = Some (observeAll info samples)
        /\ exists new, events w' = events w ++ new
                       /\ longStops new = detect plate info samples)
     (fun _ _ => False) w.
Proof.
  induction samples as [|[now vehicleData] rest IH]; intros w info Hf Hlook Hall.
  - apply wp_ret. split; [exact Hf|]. split; [exact Hlook|].
    exists []. rewrite app_nil_r. auto.
  - inversion Hall as [|? ? Hs Hrest]; subst. simpl in Hs.
    simpl. apply wp_bind. eapply wp_mono.
    + apply (onMessage_stopped distance now vehicleData plate w Hf Hs).
    + simpl. intros u w1 [Hf1 [Hst1 [new1 [He1 Hl1]]]].
      rewrite Hlook in Hst1, Hl1.
      eapply wp_mono.
      * apply (IH w1 (observe info vehicleData) Hf1); [|exact Hrest].
        rewrite Hst1. apply lookup_insert_eq.
      * simpl. intros u' w' [Hf' [Hst' [new' [He' Hl']]]].
        split; [exact Hf'|]. split; [exact Hst'|].
        exists (new1 ++ new'). split.
        -- rewrite He', He1, <- app_assoc. reflexivity.
        -- rewrite longStops_app, Hl1, Hl'. reflexivity.
      * auto.
    + auto.
Qed.

(** A sequence of samples at rest that opens the interval of its plate. *)
Lemma run_first_stopped distance plate first rest w :
  faultless w ->
  vehicleStops (mem w) !! plate = None ->
  Forall (fun s => stopped plate (snd s)) (first :: rest) ->
  outcome (run distance (telemetry (first :: rest))) w = Ret tt
  /\ longStops (newEvents w (exec (run distance (telemetry (first :: rest))) w))
     = detect plate (openInterval (snd first)) rest.
Proof.
  intros Hf Hlook Hall. inversion Hall as [|? ? Hs Hrest]; subst.
  destruct first as [now vehicleData]. simpl in Hs.
  assert (wp (run distance (telemetry ((now, vehicleData) :: rest)))
             (fun _ w' => exists new, events w' = events w ++ new
                          /\ longStops new = detect plate (openInterval vehicleData) rest)
             (fun _ _ => False) w) as Hwp.
  { simpl. apply wp_bind. eapply wp_mono.
    - apply (onMessage_stopped distance now vehicleData plate w Hf Hs).
    - simpl. intros u w1 [Hf1 [Hst1 [new1 [He1 Hl1]]]].
      rewrite Hlook in Hst1, Hl1.
      eapply wp_mono.
      + apply (run_stopped distance plate rest w1 (openInterval vehicleData) Hf1);
          [|exact Hrest].
        rewrite Hst1. apply lookup_insert_eq.
      + simpl. intros u' w' [_ [_ [new' [He' Hl']]]].
        exists (new1 ++ new'). split.
        * rewrite He', He1, <- app_assoc. reflexivity.
        * rewrite longStops_app, Hl1, Hl'. reflexivity.
      + auto.
    - auto. }
  apply wp_outcome in Hwp.
  destruct (outcome (run distance (telemetry ((now, vehicleData) :: rest))) w) as [[]|e];
    [|contradiction].
  split; auto. destruct Hwp as [new [He Hl]].
  rewrite (newEvents_app _ _ _ He). exact Hl.
Qed.

(** *** The detector as a function *)







Lemma restSample_stopped ms : stopped "BH47JSGP" (snd (restSample ms)).
Proof.
  unfold stopped, restSample, testGPSData. simpl.
  repeat split; try discriminate. exists ms. reflexivity.
Defined.


(** The example of the specification: samples at 0, 60, ..., 300 s, all at
    rest at one position; nothing is fired up to the sample at 240 s and the
    handler is invoked by the sample at 300 s. *)
Example long_stop_at_300s :
  let w := initialWorld (testTables (Some 0)) in
  longStops (newEvents w (exec (run greatCircleKm
     (telemetry (map restSample [0; 60000; 120000; 180000; 240000]))) w)) = []
  /\ longStops (newEvents w (exec (run greatCircleKm
       (telemetry (map restSample [0; 60000; 120000; 180000; 240000; 300000]))) w))
     = [("BH47JSGP", mkLocation (-26.1440) 28.0436)].
Proof.
  intros w. split.
  - destruct (run_first_stopped greatCircleKm "BH47JSGP" (restSample 0)
                (map restSample [60000; 120000; 180000; 240000]) w) as [_ H];
      [reflexivity|reflexivity| |exact H].
    repeat constructor; apply restSample_stopped.
  - destruct (run_first_stopped greatCircleKm "BH47JSGP" (restSample 0)
                (map restSample [60000; 120000; 180000; 240000; 300000]) w) as [_ H];
      [reflexivity|reflexivity| |exact H].
    repeat constructor; apply restSample_stopped.
Qed.

(** ** Records without a usable [LocTime] *)

Lemma newEvents_emitted ev w : newEvents w (emitted ev w) = [ev].
Proof. apply newEvents_app. reflexivity. Qed.

Lemma newEvents_same w w' : events w' = events w -> newEvents w w' = [].
Proof. intros H. apply newEvents_app. rewrite H, app_nil_r. reflexivity. Qed.

(** C4 fails as stated.  A record without [LocTime] for a started trip: no error line, no
    coordinate stored. *)
Lemma missing_locTime_not_forwarded :
  let w := initialWorld (testTables (Some 0)) in
  let w' := exec (onMessage greatCircleKm 1000
                    (Parsed (testGPSData 30 (-26.1439) 28.0434 LocTimeMissing))) w in
  isActive "test-trip" (db w)
  /\ newEvents w w' = []
  /\ trip_coordinates (db w') = [].
Proof.
  split; [|split].
  - exists (testTrip (Some 0)). simpl. repeat split; try discriminate; auto.
  - reflexivity.
  - reflexivity.
Qed.

(** C4 (amended). A record whose [LocTime] is missing or does not parse is
    excluded from stop tracking (no interval is opened, updated or cleared,
    the long-stop handler is not invoked) and is not forwarded: no store call
    is made for it and the tables are left as they are.  Only the cache of
    latest records is updated.  An error line is written when the
    coordinates are missing, or when they are present and [LocTime] does not
    parse; a record with coordinates and no [LocTime] is dropped silently. *)
Theorem unparsed_locTime_is_dropped distance now vehicleData w :
  LocTime vehicleData = LocTimeMissing
  \/ (exists raw, LocTime vehicleData = LocTimeInvalid raw) ->
  let w' := exec (onMessage distance now (Parsed vehicleData)) w in
  outcome (onMessage distance now (Parsed vehicleData)) w = Ret tt
  /\ vehicleStops (mem w') = vehicleStops (mem w)
  /\ activeTrips (mem w') = activeTrips (mem w)
  /\ vehicleDataCache (mem w') = <[Plate vehicleData := vehicleData]> (vehicleDataCache (mem w))
  /\ db w' = db w
  /\ faults w' = faults w
  /\ newEvents w w'
     = match Latitude vehicleData, Longitude vehicleData, LocTime vehicleData with
       | Some _, Some _, LocTimeInvalid raw => [Console (ErrInvalidLocTime raw)]
       | Some _, Some _, _ => []
       | _, _, _ => [Console (ErrMissingCoordinates (Plate vehicleData))]
       end.
Proof.
  intros Hloc w'. unfold w', onMessage, exec, outcome, tryCatch, bind, modifyMem,
    consoleError, emit, ret. simpl.
  destruct (Latitude vehicleData) as [Lat|]; simpl.
  - destruct (Longitude vehicleData) as [Lng|]; simpl.
    + destruct Hloc as [->|[raw ->]]; simpl; repeat split.
      * apply newEvents_same. reflexivity.
      * apply newEvents_app. reflexivity.
    + repeat split. apply newEvents_app. reflexivity.
  - repeat split. apply newEvents_app. reflexivity.
Qed.

Lemma unparsed_locTime_is_dropped_witness :
  let vehicleData := testGPSData 30 (-26.1439) 28.0434 (LocTimeInvalid "not a date") in
  let w := initialWorld (testTables (Some 0)) in
  (LocTime vehicleData = LocTimeMissing
   \/ (exists raw, LocTime vehicleData = LocTimeInvalid raw))
  /\ (let w' := exec (onMessage greatCircleKm 1000 (Parsed vehicleData)) w in
      outcome (onMessage greatCircleKm 1000 (Parsed vehicleData)) w = Ret tt
      /\ vehicleStops (mem w') = vehicleStops (mem w)
      /\ activeTrips (mem w') = activeTrips (mem w)
      /\ vehicleDataCache (mem w')
         = <[Plate vehicleData := vehicleData]> (vehicleDataCache (mem w))
      /\ db w' = db w
      /\ faults w' = faults w
      /\ newEvents w w'
         = match Latitude vehicleData, Longitude vehicleData, LocTime vehicleData with
           | Some _, Some _, LocTimeInvalid raw => [Console (ErrInvalidLocTime raw)]
           | Some _, Some _, _ => []
           | _, _, _ => [Console (ErrMissingCoordinates (Plate vehicleData))]
           end).
Proof.
  intros vehicleData w.
  assert (LocTime vehicleData = LocTimeMissing
          \/ (exists raw, LocTime vehicleData = LocTimeInvalid raw)) as H.
  { right. exists "not a date". reflexivity. }
  split; [exact H|].
  exact (unparsed_locTime_is_dropped greatCircleKm 1000 vehicleData w H).
Defined.

(** ** Vehicles without an open trip *)

Lemma startedTripsOf_nil plate t : openTripsOf plate t = [] -> startedTripsOf plate t = [].
Proof.
  unfold openTripsOf, startedTripsOf. induction (route_plans t) as [|r l IH]; simpl; auto.
  destruct (String.eqb (vehicle_plate r) plate); simpl; auto.
  destruct (isNone (actual_end_time r)); simpl.
  - discriminate.
  - rewrite andb_false_r. exact IH.
Qed.

Lemma idle_refl w : idle w w.
Proof. split; auto. exists []. rewrite app_nil_r. auto. Qed.

Lemma idle_event w0 ev w w' :
  idle w0 w -> lookupOnly ev -> db w' = db w -> events w' = events w ++ [ev] ->
  idle w0 w'.
Proof.
  intros [Hdb [new [He Hall]]] Hev Hdb' He'. split; [congruence|].
  exists (new ++ [ev]). split.
  - rewrite He', He, <- app_assoc. reflexivity.
  - apply List.Forall_app. auto.
Qed.

(** A lookup of [route_plans] that finds nothing, under [idle]. *)
Lemma wp_lookup_idle w0 c (f : Tables -> list Trip * Tables) (k : list Trip -> M unit) E w :
  lookupOnly (Call c) ->
  idle w0 w ->
  f (db w) = ([], db w) ->
  (forall w', idle w0 w' -> E (StoreFailure c) w') ->
  (forall w', idle w0 w' -> mem w' = mem w -> wp (k []) (fun _ => idle w0) E w') ->
  wp (bind (storeOp c f) k) (fun _ => idle w0) E w.
Proof.
  intros Hc Hidle Hf HE Hk. apply wp_bind, wp_storeOp.
  destruct (faults w) as [|[|] rest]; rewrite ?Hf; simpl.
  - apply Hk; [|reflexivity].
    apply (idle_event w0 (Call c) w); [exact Hidle|exact Hc|reflexivity|reflexivity].
  - apply HE.
    apply (idle_event w0 (Failed c (mem w)) w);
      [exact Hidle|exact Logic.I|reflexivity|reflexivity].
  - apply Hk; [|reflexivity].
    apply (idle_event w0 (Call c) w); [exact Hidle|exact Hc|reflexivity|reflexivity].
Qed.

Lemma handleLongStop_idle distance now plate loc w0 w :
  idle w0 w -> openTripsOf plate (db w0) = [] ->
  wp (handleLongStop distance now plate loc) (fun _ => idle w0) (fun _ => idle w0) w.
Proof.
  intros Hidle Hnone. unfold handleLongStop.
  apply wp_bind, wp_emit.
  assert (idle w0 (mkWorld (mem w) (db w) (events w ++ [LongStop plate loc]) (faults w)))
    as Hidle1 by (eapply idle_event; eauto; reflexivity).
  unfold selectStartedTrips.
  apply wp_lookup_idle;
    [exact Logic.I|exact Hidle1| |auto|intros w' Hw' _; apply wp_ret; exact Hw'].
  simpl. destruct Hidle as [-> _]. rewrite (startedTripsOf_nil _ _ Hnone). reflexivity.
Qed.

Lemma processVehicleData_idle distance now vehicleData w0 w :
  idle w0 w -> openTripsOf (Plate vehicleData) (db w0) = [] ->
  wp (processVehicleData distance now vehicleData) (fun _ => idle w0) (fun _ => idle w0) w.
Proof.
  intros Hidle Hnone. unfold processVehicleData. apply wp_tryCatch.
  eapply wp_mono with (Q := fun _ => idle w0) (E := fun _ => idle w0).
  2: { auto. }
  2: { intros e w' Hw'. apply wp_bind. unfold consoleError. apply wp_emit.
       apply wp_throw. eapply idle_event; eauto; reflexivity. }
  destruct (truthy (Plate vehicleData)); [|apply wp_ret; exact Hidle].
  destruct (Latitude vehicleData) as [Lat|]; [|apply wp_ret; exact Hidle].
  destruct (Longitude vehicleData) as [Lng|]; [|apply wp_ret; exact Hidle].
  unfold selectOpenTrips.
  apply wp_lookup_idle;
    [exact Logic.I|exact Hidle| |auto|intros w' Hw' _; apply wp_ret; exact Hw'].
  simpl. destruct Hidle as [-> _]. rewrite Hnone. reflexivity.
Qed.

Lemma onMessage_idle distance now vehicleData w :
  openTripsOf (Plate vehicleData) (db w) = [] ->
  wp (onMessage distance now (Parsed vehicleData)) (fun _ => idle w) (fun _ _ => False) w.
Proof.
  intros Hnone. unfold onMessage. apply wp_tryCatch.
  assert (forall ev w', lookupOnly ev -> idle w w' -> idle w (emitted ev w')) as Hemit.
  { intros ev w' Hev Hw'. eapply idle_event; eauto; reflexivity. }
  assert (forall f w', idle w w' -> idle w (withMem f w')) as Hmem.
  { intros f w' [Hdb Hnew]. split; auto. }
  eapply wp_mono with (Q := fun _ => idle w) (E := fun _ => idle w).
  2: { auto. }
  2: { intros e w' Hw'. unfold consoleError. apply wp_emit.
       apply (Hemit (Console ErrParsingWebSocketData)); [exact Logic.I|exact Hw']. }
  apply wp_bind, wp_modifyMem.
  pose proof (Hmem (setVehicleDataCache (insert (Plate vehicleData) vehicleData)) w
                (idle_refl w)) as H1.
  unfold withMem in H1.
  destruct (Latitude vehicleData) as [Lat|].
  2: { unfold consoleError. apply wp_emit. apply (Hemit (Console _)); [exact Logic.I|exact H1]. }
  destruct (Longitude vehicleData) as [Lng|].
  2: { unfold consoleError. apply wp_emit. apply (Hemit (Console _)); [exact Logic.I|exact H1]. }
  destruct (LocTime vehicleData) as [|raw|locTime].
  - apply wp_ret. exact H1.
  - unfold consoleError. apply wp_emit. apply (Hemit (Console _)); [exact Logic.I|exact H1].
  - apply wp_bind.
    eapply wp_mono with (Q := fun _ => idle w) (E := fun _ => idle w).
    2: { intros u w' Hw'. apply processVehicleData_idle; auto. }
    2: { auto. }
    unfold trackStop.
    assert (forall g w', idle w w' ->
              wp (modifyMem (setVehicleStops g)) (fun _ => idle w) (fun _ => idle w) w')
      as Hmod.
    { intros g w' Hw'. apply wp_modifyMem. apply (Hmem _ w' Hw'). }
    destruct (Speed vehicleData =? 0)%Z; [|apply Hmod; exact H1].
    apply wp_bind, wp_getMem. simpl.
    destruct (vehicleStops (mem w) !! Plate vehicleData) as [stopInfo|];
      [|apply Hmod; exact H1].
    apply wp_bind. eapply wp_mono; [apply Hmod; exact H1| |auto].
    intros u w1 Hw1.
    destruct (Qle_bool 5 _ && negb (processed stopInfo)); [|apply wp_ret; exact Hw1].
    apply wp_bind. eapply wp_mono.
    + apply (handleLongStop_idle distance now _ _ w w1); [exact Hw1|exact Hnone].
    + intros u' w' Hw'. apply Hmod. exact Hw'.
    + auto.
Qed.

(** C6 fails as stated.  A vehicle without any trip: its first sample at rest opens a stop
    interval, and a sample five minutes later invokes the long-stop
    handler. *)
Lemma unmonitored_vehicle_is_tracked :
  let w := initialWorld (mkTables [] [] []) in
  openTripsOf "BH47JSGP" (db w) = []
  /\ vehicleStops (mem (exec (run greatCircleKm (telemetry [restSample 0])) w))
       !! "BH47JSGP"
     = Some (openInterval (snd (restSample 0)))
  /\ longStops (newEvents w (exec (run greatCircleKm
                                     (telemetry [restSample 0; restSample 300000])) w))
     = [("BH47JSGP", mkLocation (-26.1440) 28.0436)].
Proof.
  intros w. split; [reflexivity|]. split.
  - reflexivity.
  - destruct (run_first_stopped greatCircleKm "BH47JSGP" (restSample 0)
                [restSample 300000] w) as [_ H];
      [reflexivity|reflexivity| |exact H].
    repeat constructor; apply restSample_stopped.
Qed.

(** C6 (amended). For a sample whose plate has no trip with
    [actual_end_time] unset, the server performs no geofence evaluation and
    stores nothing: the only store calls are the lookups of [route_plans]
    (by [processVehicleData], and by the long-stop handler when it is
    invoked), no customer stop is read or marked, no completion check runs,
    no coordinate is inserted, and the tables are left as they are.  Stop
    tracking does not depend on trips: a well-formed sample at rest opens or
    updates the stop interval of its plate, and the long-stop handler is
    invoked once the dwell reaches five minutes. *)
Theorem unmonitored_vehicle_no_geofence distance now vehicleData w :
  openTripsOf (Plate vehicleData) (db w) = [] ->
  let w' := exec (onMessage distance now (Parsed vehicleData)) w in
  outcome (onMessage distance now (Parsed vehicleData)) w = Ret tt
  /\ db w' = db w
  /\ Forall lookupOnly (newEvents w w')
  /\ (forall plate,
        faultless w -> stopped plate vehicleData ->
        vehicleStops (mem w')
        = <[plate := match vehicleStops (mem w) !! plate with
                     | None => openInterval vehicleData
                     | Some info => observe info vehicleData
                     end]> (vehicleStops (mem w))
        /\ longStops (newEvents w w')
           = match vehicleStops (mem w) !! plate with
             | None => []
             | Some info =>
                 if dwellReached info vehicleData && negb (processed info)
                 then [(plate, location info)] else []
             end).
Proof.
  intros Hnone w'.
  pose proof (wp_outcome _ _ _ _ (onMessage_idle distance now vehicleData w Hnone)) as H.
  fold w' in H.
  destruct (outcome (onMessage distance now (Parsed vehicleData)) w) as [[]|e] eqn:Hout;
    [|contradiction].
  destruct H as [Hdb [new [He Hall]]].
  split; [reflexivity|]. split; [exact Hdb|]. split.
  - rewrite (newEvents_app _ _ _ He). exact Hall.
  - intros plate Hf Hs.
    pose proof (wp_outcome _ _ _ _ (onMessage_stopped distance now vehicleData plate w Hf Hs))
      as H. fold w' in H. rewrite Hout in H.
    destruct H as [_ [Hst [new' [He' Hl]]]]. split; [exact Hst|].
    rewrite (newEvents_app _ _ _ He'). exact Hl.
Qed.

Lemma unmonitored_vehicle_no_geofence_witness :
  let vehicleData := snd (restSample 0) in
  let w := initialWorld (mkTables [] [] []) in
  openTripsOf (Plate vehicleData) (db w) = []
  /\ (let w' := exec (onMessage greatCircleKm 0 (Parsed vehicleData)) w in
      outcome (onMessage greatCircleKm 0 (Parsed vehicleData)) w = Ret tt
      /\ db w' = db w
      /\ Forall lookupOnly (newEvents w w')
      /\ (forall plate,
            faultless w -> stopped plate vehicleData ->
            vehicleStops (mem w')
            = <[plate := match vehicleStops (mem w) !! plate with
                         | None => openInterval vehicleData
                         | Some info => observe info vehicleData
                         end]> (vehicleStops (mem w))
            /\ longStops (newEvents w w')
               = match vehicleStops (mem w) !! plate with
                 | None => []
                 | Some info =>
                     if dwellReached info vehicleData && negb (processed info)
                     then [(plate, location info)] else []
                 end)).
Proof.
  intros vehicleData w.
  assert (openTripsOf (Plate vehicleData) (db w) = []) as H by reflexivity.
  split; [exact H|].
  exact (unmonitored_vehicle_no_geofence greatCircleKm 0 vehicleData w H).
Defined.

(** ** Store failures *)

Lemma unfailed_refl w : unfailed (events w) w.
Proof. exists []. rewrite app_nil_r. auto. Qed.

Lemma failure_stableRun site e0 :
  stableRun False site messageUpdate (unfailed e0) (failedOnce e0).
Proof.
  constructor.
  - constructor.
    + intros c t w [new [He Hall]] _ _ _. exists (new ++ [Call c]). split.
      * simpl. rewrite He, <- app_assoc. reflexivity.
      * apply List.Forall_app. split; auto. constructor; [exact Logic.I|constructor].
    + intros c w [new [He Hall]] _. exists new, c, []. split; [|split; auto].
      simpl. rewrite He, <- app_assoc. reflexivity.
    + intros line w [new [c [rest [He [Hall Hrest]]]]].
      exists new, c, (rest ++ [Console line]). split; [|split; auto].
      * simpl. rewrite He, <- !app_assoc. reflexivity.
      * apply List.Forall_app. split; auto. constructor; [exact Logic.I|constructor].
  - intros f w _ [new [He Hall]]. exists new. auto.
  - intros ev w Hsig [new [He Hall]]. exists (new ++ [ev]). split.
    + simpl. rewrite He, <- app_assoc. reflexivity.
    + apply List.Forall_app. split; auto. constructor; [|constructor].
      destruct ev; simpl in *; auto.
  - intros [].
Qed.




(** The failure of the first store call of a sample for a started trip: it
    is traced with the in-memory state of that moment, then come the error
    line of [processVehicleData] and the one of the handler; the next message
    is handled as usual. *)
Example store_failure_trace :
  let w := mkWorld emptyMemory (testTables (Some 0)) [] [true] in
  let data := Parsed (testGPSData 30 (-26.1439) 28.0434 LocTimeMissing) in
  let sample := Parsed (testGPSData 0 (-26.1439) 28.0434 (LocTimeAt 1000)) in
  let w' := exec (onMessage greatCircleKm 1000 sample) w in
  newEvents w w'
  = [Failed (SelectOpenTrips "BH47JSGP") (mem w');
     Console ErrProcessingVehicleData;
     Console ErrParsingWebSocketData]
  /\ outcome (onMessage greatCircleKm 2000 data) w' = Ret tt.
Proof. split; reflexivity. Qed.

(** ** The completion radius *)

Lemma marksOf_app e1 e2 : marksOf (e1 ++ e2) = marksOf e1 ++ marksOf e2.
Proof. unfold marksOf. apply flat_map_app. Qed.

Lemma marked_called e0 marks c t w :
  marked e0 marks w -> marksOf [Call c] = [] -> marked e0 marks (called c t w).
Proof.
  intros [Hf [new [He Hm]]] Hc. split; [apply faultless_called; exact Hf|].
  exists (new ++ [Call c]). split.
  - simpl. rewrite He, <- app_assoc. reflexivity.
  - rewrite marksOf_app, Hm, Hc. apply app_nil_r.
Qed.

Lemma marked_stable_check tripId e0 marks :
  stable False (checkSite tripId) (marked e0 marks) (fun _ => False).
Proof.
  constructor.
  - intros c t w HM _ Hsite _. apply marked_called; auto.
    destruct c; simpl in Hsite; try contradiction; reflexivity.
  - intros c w [Hf _] Hh. unfold faultless in Hf. rewrite Hf in Hh. discriminate.
  - auto.
Qed.

(** The loop of [processVehicleData], without faults: it writes the
    completion of exactly the visited stops whose distance is at most 1. *)
Lemma telemetryLoop_marks (distance : Point -> Point -> R) now tripId (Lat Lng : R)
    customers : forall e0 marks w,
  marked e0 marks w ->
  wp (forEach customers (fun customer =>
        if Rle_dec (distance (Lng, Lat) (longitude customer, latitude customer)) 1
        then updateCompleted tripId (customer_code customer) now ;;
             checkTripCompletion now tripId
        else ret tt))
     (fun _ => marked e0
        (marks ++ map (fun c => (tripId, customer_code c, now))
                      (List.filter (fun c => withinKm 1 (distance (Lng, Lat)
                                                           (longitude c, latitude c)))
                                   customers)))
     (fun _ _ => False) w.
Proof.
  induction customers as [|x rest IH]; intros e0 marks w HM.
  - simpl. apply wp_ret. rewrite app_nil_r. exact HM.
  - simpl. apply wp_bind. unfold withinKm at 1.
    destruct (Rle_dec (distance (Lng, Lat) (longitude x, latitude x)) 1).
    + apply wp_bind. unfold updateCompleted.
      apply wp_storeOp_faultless; [apply HM|]. simpl.
      match goal with |- wp _ _ _ ?w1' => set (w1 := w1') end.
      assert (marked e0 (marks ++ [(tripId, customer_code x, now)]) w1) as HM1.
      { destruct HM as [Hf [new [He Hm]]]. split; [apply faultless_called; exact Hf|].
        exists (new ++ [Call (UpdateCompleted tripId (customer_code x) now)]). split.
        - simpl. rewrite He, <- app_assoc. reflexivity.
        - rewrite marksOf_app, Hm. reflexivity. }
      eapply wp_mono.
      * apply (checkTripCompletion_stable False _ _ now tripId w1
                 (marked_stable_check tripId e0 _) HM1). intros [].
      * simpl. intros u w2 [HM2 _]. eapply wp_mono.
        -- apply (IH e0 _ w2 HM2).
        -- simpl. intros u' w' HM'. rewrite <- app_assoc in HM'. exact HM'.
        -- auto.
      * auto.
    + apply wp_ret. apply IH. exact HM.
Qed.


Lemma marked_refl w : faultless w -> marked (events w) [] w.
Proof. intros Hf. split; auto. exists []. rewrite app_nil_r. auto. Qed.

Lemma marked_newEvents w marks w' :
  marked (events w) marks w' -> marksOf (newEvents w w') = marks.
Proof. intros [_ [new [He Hm]]]. rewrite (newEvents_app _ _ _ He). exact Hm. Qed.

(** The completion writes of [processVehicleData] for a trip that is started
    or that the sample starts, without faults. *)
Lemma processVehicleData_marks (distance : Point -> Point -> R) now vehicleData
    (Lat Lng : R) trip trips w :
  faultless w ->
  truthy (Plate vehicleData) = true ->
  Latitude vehicleData = Some Lat -> Longitude vehicleData = Some Lng ->
  openTripsOf (Plate vehicleData) (db w) = trip :: trips ->
  actual_start_time trip <> None \/ (0 < Speed vehicleData)%Z ->
  marksOf (newEvents w (exec (processVehicleData distance now vehicleData) w))
  = map (fun c => (trip_id trip, customer_code c, now))
        (List.filter (fun c => withinKm 1 (distance (Lng, Lat) (longitude c, latitude c)))
                     (incompleteOf (trip_id trip) (db w))).
Proof.
  intros Hf Hplate HLat HLng Htrips Hstarted.
  set (expected := map (fun c => (trip_id trip, customer_code c, now))
        (List.filter (fun c => withinKm 1 (distance (Lng, Lat) (longitude c, latitude c)))
                     (incompleteOf (trip_id trip) (db w)))).
  assert (wp (processVehicleData distance now vehicleData)
             (fun _ => marked (events w) expected) (fun _ _ => False) w) as Hwp.
  { assert (forall w2, marked (events w) [] w2 ->
              assigned_customers (db w2) = assigned_customers (db w) ->
              wp (processStartedTrip distance now vehicleData (trip_id trip) Lat Lng)
                 (fun _ => marked (events w) expected) (fun _ _ => False) w2) as Hrest.
    { intros w2 HM2 Hsame. unfold processStartedTrip.
      apply wp_bind. unfold insertCoordinate.
      apply wp_storeOp_faultless; [apply HM2|]. simpl.
      apply wp_bind. unfold selectIncomplete.
      apply wp_storeOp_faultless; [apply faultless_called; apply HM2|]. simpl.
      eapply wp_mono.
      - apply (telemetryLoop_marks distance now (trip_id trip) Lat Lng _ (events w) []).
        apply marked_called; [|reflexivity]. apply marked_called; [|reflexivity]. exact HM2.
      - simpl. intros u w' HM'. unfold expected, incompleteOf.
        unfold incompleteOf in HM'. simpl in HM'. rewrite Hsame in HM'. exact HM'.
      - auto. }
    unfold processVehicleData. apply wp_tryCatch.
    rewrite Hplate, HLat, HLng.
    apply wp_bind. unfold selectOpenTrips.
    apply wp_storeOp_faultless; [exact Hf|]. simpl. rewrite Htrips.
    pose proof (marked_called (events w) [] (SelectOpenTrips (Plate vehicleData)) (db w) w
                  (marked_refl w Hf) eq_refl) as HM1.
    apply wp_bind.
    destruct (isNone (actual_start_time trip) && (0 <? Speed vehicleData)%Z) eqn:Hc.
    - apply wp_bind. unfold updateStartTime.
      apply wp_storeOp_faultless; [apply HM1|]. simpl.
      apply wp_ret. eapply wp_mono.
      + apply Hrest; [|reflexivity]. apply marked_called; [exact HM1|reflexivity].
      + auto.
      + simpl. intros e w' [].
    - apply wp_ret. destruct (actual_start_time trip) as [s|] eqn:Hs.
      + eapply wp_mono.
        * apply Hrest; [exact HM1|reflexivity].
        * auto.
        * simpl. intros e w' [].
      + exfalso. destruct Hstarted as [H|H]; [congruence|].
        apply Z.ltb_lt in H. rewrite H in Hc. discriminate. }
  apply wp_outcome in Hwp.
  destruct (outcome (processVehicleData distance now vehicleData) w) as [[]|e];
    [|contradiction].
  apply marked_newEvents. exact Hwp.
Qed.


(** *** The offline report *)

Section Offline.

Variable distance : Point -> Point -> R.
Variable customerPoint : Point.

Let dist (coord : Coordinate) : R :=
  distance (coord_longitude coord, coord_latitude coord) customerPoint.

Lemma closestDistance_from coordinates : forall current,
  exists m,
    fold_left
      (fun minDistance coord =>
         match minDistance with
         | None => Some (dist coord)
         | Some current => if Rlt_dec (dist coord) current
                           then Some (dist coord) else Some current
         end)
      coordinates (Some current) = Some m
    /\ (m <= current)%R
    /\ (forall coord, List.In coord coordinates -> (m <= dist coord)%R)
    /\ (m = current \/ exists coord, List.In coord coordinates /\ m = dist coord).
Proof.
  induction coordinates as [|c rest IH]; intros current; simpl.
  - exists current. repeat split; auto; try lra. intros coord [].
  - destruct (Rlt_dec (dist c) current) as [Hlt|Hge].
    + destruct (IH (dist c)) as [m [Hm [Hle [Hall Hex]]]].
      exists m. split; [exact Hm|]. split; [lra|]. split.
      * intros coord [<-|Hin]; auto.
      * right. destruct Hex as [->|[coord [Hin ->]]]; eauto.
    + destruct (IH current) as [m [Hm [Hle [Hall Hex]]]].
      exists m. split; [exact Hm|]. split; [lra|]. split.
      * intros coord [<-|Hin]; auto. lra.
      * destruct Hex as [->|[coord [Hin ->]]]; eauto.
Qed.

(** On a non-empty log the inner loop returns the smallest distance. *)
Lemma closestDistance_min coordinates :
  coordinates <> [] ->
  exists m,
    closestDistance distance coordinates customerPoint = Some m
    /\ (forall coord, List.In coord coordinates -> (m <= dist coord)%R)
    /\ (exists coord, List.In coord coordinates /\ m = dist coord).
Proof.
  destruct coordinates as [|c rest]; [congruence|]. intros _.
  unfold closestDistance. simpl.
  destruct (closestDistance_from rest (dist c)) as [m [Hm [Hle [Hall Hex]]]].
  exists m. split; [exact Hm|]. split.
  - intros coord [<-|Hin]; auto.
  - destruct Hex as [->|[coord [Hin ->]]]; eauto.
Qed.

Lemma closestDistance_nil : closestDistance distance [] customerPoint = None.
Proof. reflexivity. Qed.

End Offline.

(** The report counts a customer exactly when its coordinates are truthy and
    its smallest distance to a logged position is at most 5. *)
Lemma wouldComplete_iff distance coordinates customer :
  wouldComplete distance coordinates customer = true
  <-> latitude customer <> 0%R /\ longitude customer <> 0%R
      /\ exists m,
           closestDistance distance coordinates (longitude customer, latitude customer)
           = Some m
           /\ (m <= 5)%R.
Proof.
  unfold wouldComplete, falsyNumber.
  destruct (Req_dec_T (latitude customer) 0) as [Hlat|Hlat]; simpl.
  { split; [discriminate|]. intros [H _]. contradiction. }
  destruct (Req_dec_T (longitude customer) 0) as [Hlng|Hlng]; simpl.
  { split; [discriminate|]. intros [_ [H _]]. contradiction. }
  destruct (closestDistance distance coordinates (longitude customer, latitude customer))
    as [m|].
  - destruct (Rle_dec m 5) as [Hle|Hgt].
    + split; auto. intros _. repeat split; auto. exists m. auto.
    + split; [discriminate|]. intros [_ [_ [m' [Heq Hle]]]].
      inversion Heq; subst. contradiction.
  - split; [discriminate|]. intros [_ [_ [m' [Heq _]]]]. discriminate.
Qed.

Lemma withinKm_true radius d : withinKm radius d = true <-> (d <= radius)%R.
Proof.
  unfold withinKm. destruct (Rle_dec d radius); split; auto; discriminate.
Qed.

(** ** The great-circle distance of nearby points *)

Local Open Scope R_scope.

Lemma PI_gt_3 : 3 < PI.
Proof. pose proof PI2_3_2. lra. Qed.

Lemma sin_between x : 0 <= x -> - x <= sin x <= x.
Proof.
  intros [Hpos|<-].
  - split.
    + destruct (Rle_or_lt x PI) as [Hle|Hgt].
      * pose proof (sin_ge_0 x (Rlt_le _ _ Hpos) Hle). lra.
      * pose proof (SIN_bound x). pose proof PI_gt_3. lra.
    + apply Rlt_le, sin_lt_x, Hpos.
  - rewrite sin_0. lra.
Qed.

Lemma sin_sqr_le x : (sin x)² <= x².
Proof.
  unfold Rsqr. destruct (Rle_or_lt 0 x) as [H|H].
  - pose proof (sin_between x H). nra.
  - assert (0 <= - x) as H' by lra. pose proof (sin_between (- x) H') as Hs.
    rewrite sin_neg in Hs. nra.
Qed.

(** sin x >= x - x^3/6 on [0,1] *)
Lemma sin_lower x : 0 <= x <= 1 -> x - x * x * x / 6 <= sin x.
Proof.
  intros [H0 H1].
  assert (x <= PI) as HPI by (pose proof PI_gt_3; lra).
  destruct (SIN x H0 HPI) as [Hlb _].
  unfold sin_lb, sin_approx in Hlb. cbn [sum_f_R0] in Hlb. unfold sin_term in Hlb.
  replace (INR (fact (2 * 0 + 1))) with 1 in Hlb
    by (rewrite INR_IZR_INZ; apply f_equal; reflexivity).
  replace (INR (fact (2 * 1 + 1))) with 6 in Hlb
    by (rewrite INR_IZR_INZ; apply f_equal; reflexivity).
  replace (INR (fact (2 * 2 + 1))) with 120 in Hlb
    by (rewrite INR_IZR_INZ; apply f_equal; reflexivity).
  replace (INR (fact (2 * 3 + 1))) with 5040 in Hlb
    by (rewrite INR_IZR_INZ; apply f_equal; reflexivity).
  simpl in Hlb.
  assert (0 <= x * x * x * x * x / 120 - x * x * x * x * x * x * x / 5040) as Hpos.
  { assert (0 <= x * x * x * x * x) by (repeat apply Rmult_le_pos; lra).
    assert (x * x <= 1) by nra.
    assert (x * x * x * x * x * x * x <= x * x * x * x * x) by nra.
    lra. }
  lra.
Qed.

Lemma atan2_sqrt a :
  0 <= a -> a < 1 / 2 ->
  sqrt a <= atan2 (sqrt a) (sqrt (1 - a)) <= 6 / 5 * sqrt a.
Proof.
  intros Ha0 Ha1.
  pose proof (sqrt_pos a) as Hs0.
  pose proof (Rsqr_sqrt a Ha0) as Hsq. unfold Rsqr in Hsq.
  assert (0 < sqrt (1 - a)) as Hc by (apply sqrt_lt_R0; lra).
  assert (sqrt a < sqrt (1 - a)) as Hlt by (apply sqrt_lt_1; lra).
  assert (sqrt a < 1) as Hs1 by nra.
  unfold atan2. destruct (Rlt_dec 0 (sqrt (1 - a))) as [_|Hn]; [|contradiction].
  set (theta := atan (sqrt a / sqrt (1 - a))).
  assert (theta = asin (sqrt a)) as Hasin.
  { unfold theta. rewrite asin_atan by lra.
    rewrite Rsqr_sqrt by lra. reflexivity. }
  assert (sin theta = sqrt a) as Hsin by (rewrite Hasin; apply sin_asin; lra).
  assert (theta < 1) as Hub.
  { unfold theta.
    assert (sqrt a / sqrt (1 - a) < 1) as Hu.
    { apply (Rmult_lt_reg_r (sqrt (1 - a))); [exact Hc|].
      unfold Rdiv. rewrite Rmult_assoc, Rinv_l by lra. lra. }
    apply atan_increasing in Hu. rewrite atan_1 in Hu.
    pose proof PI_4. lra. }
  assert (0 <= theta) as Hlb.
  { destruct (Rle_or_lt 0 theta) as [H|H]; [exact H|].
    exfalso.
    assert (- PI < theta) as Hb.
    { pose proof (atan_bound (sqrt a / sqrt (1 - a))) as [Hb _].
      fold theta in Hb. pose proof PI_RGT_0. lra. }
    pose proof (sin_lt_0_var theta Hb H). lra. }
  split.
  - pose proof (sin_between theta Hlb). lra.
  - pose proof (sin_lower theta (conj Hlb (Rlt_le _ _ Hub))) as Hlow.
    rewrite Hsin in Hlow.
    assert (theta * theta * theta <= theta) by nra.
    lra.
Qed.

Lemma cos_latitude lat : -90 <= lat <= 90 -> 0 <= cos (degreesToRadians lat) <= 1.
Proof.
  intros [H1 H2]. unfold degreesToRadians. pose proof PI_RGT_0 as HPI. split.
  - apply cos_ge_0; nra.
  - apply COS_bound.
Qed.

(** The sine of half a small angle given in degrees. *)
Lemma sin_half_degrees d delta :
  0 < delta <= 1 -> Rabs d <= delta ->
  (sin (degreesToRadians d / 2))² <= (delta / 90)².
Proof.
  intros [Hd0 Hd1] Hd.
  eapply Rle_trans; [apply sin_sqr_le|].
  unfold degreesToRadians. pose proof PI_4. pose proof PI_RGT_0.
  apply Rsqr_le_abs_1.
  rewrite (Rabs_right (delta / 90)) by lra.
  replace (d * PI / 180 / 2) with (d * (PI / 360)) by field.
  rewrite Rabs_mult, (Rabs_right (PI / 360)) by lra.
  assert (0 <= Rabs d) by apply Rabs_pos. nra.
Qed.

Lemma sin_half_degrees_lower d delta :
  0 < delta <= 1 -> Rabs d = delta ->
  (99 / 100 * (delta / 120))² <= (sin (degreesToRadians d / 2))².
Proof.
  intros [Hd0 Hd1] Hd.
  pose proof PI_4. pose proof PI_gt_3.
  set (X := delta * (PI / 360)).
  assert (0 <= X <= 1) as HX by (unfold X; split; nra).
  assert ((sin (degreesToRadians d / 2))² = (sin X)²) as ->.
  { unfold degreesToRadians, X.
    destruct (Rcase_abs d) as [Hneg|Hpos].
    - rewrite (Rabs_left d Hneg) in Hd.
      replace (d * PI / 180 / 2) with (- (delta * (PI / 360))) by (subst delta; field).
      rewrite sin_neg. symmetry. apply Rsqr_neg.
    - rewrite (Rabs_right d Hpos) in Hd.
      replace (d * PI / 180 / 2) with (delta * (PI / 360)) by (subst delta; field).
      reflexivity. }
  pose proof (sin_lower X HX) as Hlow.
  assert (X <= 1 / 90) as HX90 by (unfold X; nra).
  assert (delta / 120 <= X) as HX120 by (unfold X; nra).
  assert (99 / 100 * X <= sin X) as Hs.
  { assert (X * X <= 1 / 8100) by nra.
    assert (X * X * X <= X / 8100) by nra. lra. }
  apply Rsqr_incr_1; nra.
Qed.

Lemma haversine_bounds from to delta :
  0 < delta <= 1 ->
  Rabs (snd to - snd from) = delta -> Rabs (fst to - fst from) <= delta ->
  -90 <= snd from <= 90 -> -90 <= snd to <= 90 ->
  (99 / 100 * (delta / 120))² <= haversine from to <= 2 * (delta / 90)².
Proof.
  intros Hd Hlat Hlon H1 H2. unfold haversine.
  pose proof (cos_latitude _ H1) as Hc1. pose proof (cos_latitude _ H2) as Hc2.
  pose proof (sin_half_degrees_lower _ _ Hd Hlat) as Hlow.
  pose proof (sin_half_degrees (snd to - snd from) delta Hd ltac:(lra)) as Hup1.
  pose proof (sin_half_degrees _ _ Hd Hlon) as Hup2.
  set (sx := (sin (degreesToRadians (snd to - snd from) / 2))²) in *.
  set (sy := (sin (degreesToRadians (fst to - fst from) / 2))²) in *.
  assert (0 <= sy) by apply Rle_0_sqr.
  set (c1 := cos (degreesToRadians (snd from))) in *.
  set (c2 := cos (degreesToRadians (snd to))) in *.
  clearbody sx sy c1 c2.
  assert (0 <= sy * c1 <= sy) as Hprod1 by nra.
  assert (0 <= sy * c1 * c2 <= sy) as Hprod by nra.
  lra.
Qed.

(** The great-circle distance of two points some thousandths of a degree
    apart: between 100 and 250 km per degree of latitude difference. *)
Lemma greatCircleKm_bounds from to delta :
  0 < delta <= 1 ->
  Rabs (snd to - snd from) = delta -> Rabs (fst to - fst from) <= delta ->
  -90 <= snd from <= 90 -> -90 <= snd to <= 90 ->
  100 * delta < greatCircleKm from to < 250 * delta.
Proof.
  intros Hd Hlat Hlon H1 H2.
  destruct (haversine_bounds from to delta Hd Hlat Hlon H1 H2) as [Hlow Hup].
  unfold greatCircleKm. set (a := haversine from to) in *.
  assert (0 <= a) as Ha0.
  { eapply Rle_trans; [apply Rle_0_sqr|exact Hlow]. }
  assert (a < 1 / 2) as Ha1.
  { unfold Rsqr in Hup. nra. }
  destruct (atan2_sqrt a Ha0 Ha1) as [Ht1 Ht2].
  assert (99 / 100 * (delta / 120) <= sqrt a) as Hs1.
  { rewrite <- (sqrt_Rsqr (99 / 100 * (delta / 120))) by lra.
    apply sqrt_le_1; [apply Rle_0_sqr|exact Ha0|exact Hlow]. }
  assert (sqrt a <= 15715 / 1000000 * delta) as Hs2.
  { rewrite <- (sqrt_Rsqr (15715 / 1000000 * delta)) by lra.
    apply sqrt_le_1; [exact Ha0|apply Rle_0_sqr|].
    eapply Rle_trans; [exact Hup|]. unfold Rsqr. nra. }
  unfold radiansToKilometers, earthRadius. lra.
Qed.

Lemma greatCircleKm_same p : greatCircleKm p p = 0.
Proof.
  unfold greatCircleKm, haversine, degreesToRadians.
  replace ((snd p - snd p) * PI / 180 / 2) with 0 by field.
  replace ((fst p - fst p) * PI / 180 / 2) with 0 by field.
  rewrite sin_0. unfold Rsqr. rewrite !Rmult_0_l, Rplus_0_l, sqrt_0, Rminus_0_r, sqrt_1.
  unfold atan2. destruct (Rlt_dec 0 1) as [_|H]; [|lra].
  replace (0 / 1) with 0 by field. rewrite atan_0.
  unfold radiansToKilometers. lra.
Qed.

(** ** The example of the specification *)

(** The two stops of [twoStopTables] are more than a kilometre apart. *)
Lemma far_apart :
  1 < greatCircleKm (longitude testCustomer1, latitude testCustomer1)
                    (longitude farStop, latitude farStop).
Proof.
  pose proof (greatCircleKm_bounds (longitude testCustomer1, latitude testCustomer1)
                (longitude farStop, latitude farStop) 0.05) as H.
  unfold testCustomer1, farStop in *. simpl fst in H. simpl snd in H.
  simpl longitude in *. simpl latitude in *.
  assert (Rabs (-26.1940 - -26.1440) = 0.05) as H1 by (rewrite Rabs_left; lra).
  assert (Rabs (28.0436 - 28.0436) <= 0.05) as H2 by (rewrite Rabs_right; lra).
  specialize (H ltac:(lra) H1 H2 ltac:(lra) ltac:(lra)). lra.
Qed.

(** A trip with two stops, reached by two separate evaluations: the first
    evaluation marks one stop and completes nothing, the second marks the other
    stop and completes the trip, and a third evaluation at the same place
    leaves the count of [complete_trip] calls at one. *)
Example two_stops_one_completion :
  let w0 := initialWorld twoStopTables in
  let w1 := exec (processVehicleData greatCircleKm 1000 (sampleAtStop testCustomer1)) w0 in
  let w2 := exec (processVehicleData greatCircleKm 2000 (sampleAtStop farStop)) w1 in
  let w3 := exec (processVehicleData greatCircleKm 3000 (sampleAtStop farStop)) w2 in
  occurrences (isCompletionOf "test-trip") (events w1) = 0%nat
  /\ occurrences (isCompletionOf "test-trip") (events w2) = 1%nat
  /\ occurrences (isCompletionOf "test-trip") (events w3) = 1%nat.
Proof.
  pose proof far_apart as Hfar.
  pose proof (greatCircleKm_same (longitude testCustomer1, latitude testCustomer1)) as HA.
  pose proof (greatCircleKm_same (longitude farStop, latitude farStop)) as HB.
  unfold testCustomer1, farStop in Hfar, HA, HB. simpl in Hfar, HA, HB.
  intros w0 w1 w2 w3; subst w0 w1 w2 w3.
  unfold exec, processVehicleData, processStartedTrip, tryCatch.
  repeat (unfold bind; cbn -[greatCircleKm Rle_dec Z.ltb Z.of_nat];
          try match goal with
          | |- context [Rle_dec ?a ?b] =>
              destruct (Rle_dec a b); [try (exfalso; lra) | try (exfalso; lra)]
          | |- context [(0 <? Z.of_nat ?n)%Z] =>
              change (0 <? Z.of_nat n)%Z with true
          end).
  repeat split; reflexivity.
Qed.

Lemma example_distance1 :
  0.1 < greatCircleKm examplePosition (longitude exampleStop1, latitude exampleStop1) < 0.25.
Proof.
  pose proof (greatCircleKm_bounds examplePosition
                (longitude exampleStop1, latitude exampleStop1) 0.001) as H.
  unfold examplePosition, exampleStop1 in *. simpl fst in H. simpl snd in H.
  simpl longitude in *. simpl latitude in *.
  assert (Rabs (-26.1450 - -26.1440) = 0.001) as H1 by (rewrite Rabs_left; lra).
  assert (Rabs (28.0446 - 28.0436) <= 0.001) as H2 by (rewrite Rabs_right; lra).
  specialize (H ltac:(lra) H1 H2 ltac:(lra) ltac:(lra)). lra.
Qed.

Lemma example_distance2 :
  0.01 < greatCircleKm examplePosition (longitude exampleStop2, latitude exampleStop2)
  < 0.025.
Proof.
  pose proof (greatCircleKm_bounds examplePosition
                (longitude exampleStop2, latitude exampleStop2) 0.0001) as H.
  unfold examplePosition, exampleStop2 in *. simpl fst in H. simpl snd in H.
  simpl longitude in *. simpl latitude in *.
  assert (Rabs (-26.1441 - -26.1440) = 0.0001) as H1 by (rewrite Rabs_left; lra).
  assert (Rabs (28.0437 - 28.0436) <= 0.0001) as H2 by (rewrite Rabs_right; lra).
  specialize (H ltac:(lra) H1 H2 ltac:(lra) ltac:(lra)). lra.
Qed.

(** The completion writes of the sample of the example. *)
Lemma example_marks :
  marksOf (newEvents (initialWorld exampleTables)
             (exec (processVehicleData greatCircleKm 1000
                      (testGPSData 30 (-26.1440) 28.0436 (LocTimeAt 1000)))
                   (initialWorld exampleTables)))
  = [("test-trip", "STOP_1", 1000%Z); ("test-trip", "STOP_2", 1000%Z)].
Proof.
  rewrite (processVehicleData_marks greatCircleKm 1000%Z _ (-26.1440) 28.0436
             (testTrip (Some 0%Z)) [] (initialWorld exampleTables));
    [|reflexivity|reflexivity|reflexivity|reflexivity|reflexivity|left; discriminate].
  change (incompleteOf (trip_id (testTrip (Some 0%Z))) (db (initialWorld exampleTables)))
    with [exampleStop1; exampleStop2].
  cbn [List.filter].
  pose proof example_distance1 as H1. pose proof example_distance2 as H2.
  unfold examplePosition in H1, H2.
  rewrite (proj2 (withinKm_true 1 _)) by lra.
  rewrite (proj2 (withinKm_true 1 _)) by lra.
  reflexivity.
Qed.

(** C9 fails as stated.  The first stop of the example is not 1.4 km away and is not left
    incomplete: it is less than 0.25 km away and its completion is written. *)
Lemma example_stop1_is_completed :
  greatCircleKm examplePosition (longitude exampleStop1, latitude exampleStop1) < 0.25
  /\ List.In ("test-trip", "STOP_1", 1000%Z)
       (marksOf (newEvents (initialWorld exampleTables)
                   (exec (processVehicleData greatCircleKm 1000
                            (testGPSData 30 (-26.1440) 28.0436 (LocTimeAt 1000)))
                         (initialWorld exampleTables)))).
Proof.
  split.
  - apply example_distance1.
  - rewrite example_marks. left. reflexivity.
Qed.

(** C9 (amended). For a vehicle at (-26.1440, 28.0436) and the radius of
    1.0 km, the great-circle distance to the stop at (-26.1450, 28.0446) is
    between 0.1 and 0.25 km, and to the stop at (-26.1441, 28.0437) between
    0.01 and 0.025 km; both are within the radius, and the evaluation of a
    sample at that position writes the completion of both stops. *)
Theorem example_distances :
  0.1 < greatCircleKm examplePosition (longitude exampleStop1, latitude exampleStop1) < 0.25
  /\ 0.01 < greatCircleKm examplePosition (longitude exampleStop2, latitude exampleStop2)
     < 0.025
  /\ withinKm 1 (greatCircleKm examplePosition
                   (longitude exampleStop1, latitude exampleStop1)) = true
  /\ withinKm 1 (greatCircleKm examplePosition
                   (longitude exampleStop2, latitude exampleStop2)) = true
  /\ marksOf (newEvents (initialWorld exampleTables)
                (exec (processVehicleData greatCircleKm 1000
                         (testGPSData 30 (-26.1440) 28.0436 (LocTimeAt 1000)))
                      (initialWorld exampleTables)))
     = [("test-trip", "STOP_1", 1000%Z); ("test-trip", "STOP_2", 1000%Z)].
Proof.
  pose proof example_distance1 as H1. pose proof example_distance2 as H2.
  split; [exact H1|]. split; [exact H2|]. split; [|split].
  - apply withinKm_true. lra.
  - apply withinKm_true. lra.
  - apply example_marks.
Qed.

Local Close Scope R_scope.

(** ** The in-memory state under messages *)

Lemma framed_refl plate m : framed plate m m.
Proof. repeat split; auto. Qed.

Lemma framed_stable strict site plate m0 :
  stable strict site (fun w => framed plate m0 (mem w)) (fun w => framed plate m0 (mem w)).
Proof. constructor; auto. Qed.

Lemma framed_insert plate m0 m info :
  framed plate m0 m -> framed plate m0 (setVehicleStops (insert plate info) m).
Proof.
  intros [H1 [H2 [H3 H4]]]. repeat split; auto.
  intros other Hne. simpl. rewrite lookup_insert_ne by congruence. auto.
Qed.

Lemma framed_delete plate m0 m :
  framed plate m0 m -> framed plate m0 (setVehicleStops (delete plate) m).
Proof.
  intros [H1 [H2 [H3 H4]]]. repeat split; auto.
  intros other Hne. simpl. rewrite lookup_delete_ne by congruence. auto.
Qed.

(** Stop tracking touches the interval of the plate of the record and nothing
    else of the in-memory state, whatever the store does. *)
Lemma trackStop_framed distance now vehicleData Lat Lng locTime m0 w :
  framed (Plate vehicleData) m0 (mem w) ->
  wp (trackStop distance now vehicleData Lat Lng locTime)
     (fun _ w' => framed (Plate vehicleData) m0 (mem w'))
     (fun _ w' => framed (Plate vehicleData) m0 (mem w')) w.
Proof.
  intros HF. unfold trackStop.
  destruct (Speed vehicleData =? 0)%Z.
  - apply wp_bind, wp_getMem.
    destruct (vehicleStops (mem w) !! Plate vehicleData) as [stopInfo|].
    + apply wp_bind, wp_modifyMem.
      destruct (Qle_bool 5 (stopDuration locTime (stopStart stopInfo))
                && negb (processed stopInfo)).
      * apply wp_bind. eapply wp_mono.
        -- apply (handleLongStop_stable distance False _ _ now (Plate vehicleData)
                    (location stopInfo) _
                    (framed_stable _ _ (Plate vehicleData) m0)); [|intros []].
           simpl. apply framed_insert. exact HF.
        -- simpl. intros u w' HF'. apply wp_modifyMem. simpl.
           apply framed_insert. exact HF'.
        -- auto.
      * apply wp_ret. simpl. apply framed_insert. exact HF.
    + apply wp_modifyMem. simpl. apply framed_insert. exact HF.
  - apply wp_modifyMem. simpl. apply framed_delete. exact HF.
Qed.

(** A message changes the cache at the plate of its record, the stop interval
    of that plate, and nothing else of the in-memory state. *)
Lemma onMessage_framed distance now data w :
  wp (onMessage distance now data)
     (fun _ w' =>
        match data with
        | Malformed => mem w' = mem w
        | Parsed vehicleData =>
            framed (Plate vehicleData)
                   (setVehicleDataCache (insert (Plate vehicleData) vehicleData) (mem w))
                   (mem w')
        end)
     (fun _ _ => False) w.
Proof.
  unfold onMessage. apply wp_tryCatch. destruct data as [|vehicleData].
  - apply wp_throw. apply wp_emit. reflexivity.
  - apply wp_bind, wp_modifyMem.
    set (m1 := setVehicleDataCache (insert (Plate vehicleData) vehicleData) (mem w)).
    destruct (Latitude vehicleData) as [Lat|]; [|apply wp_emit; apply framed_refl].
    destruct (Longitude vehicleData) as [Lng|]; [|apply wp_emit; apply framed_refl].
    destruct (LocTime vehicleData) as [|raw|locTime].
    + apply wp_ret. apply framed_refl.
    + apply wp_emit. apply framed_refl.
    + apply wp_bind. eapply wp_mono.
      * apply (trackStop_framed distance now vehicleData Lat Lng locTime m1).
        apply framed_refl.
      * simpl. intros u w1 HF. eapply wp_mono.
        -- apply (processVehicleData_stable distance False _ _ now vehicleData w1
                    (framed_stable _ _ (Plate vehicleData) m1) HF). intros [].
        -- auto.
        -- simpl. intros e w' HF'. apply wp_emit. exact HF'.
      * simpl. intros e w' HF'. apply wp_emit. exact HF'.
Qed.

Lemma onMessage_returns distance now data w :
  outcome (onMessage distance now data) w = Ret tt.
Proof.
  pose proof (wp_outcome _ _ _ _ (onMessage_framed distance now data w)) as H.
  destruct (outcome (onMessage distance now data) w) as [[]|e]; [reflexivity|contradiction].
Qed.

Lemma onMessage_mem distance now data w :
  match data with
  | Malformed => mem (exec (onMessage distance now data) w) = mem w
  | Parsed vehicleData =>
      framed (Plate vehicleData)
             (setVehicleDataCache (insert (Plate vehicleData) vehicleData) (mem w))
             (mem (exec (onMessage distance now data) w))
  end.
Proof.
  pose proof (wp_outcome _ _ _ _ (onMessage_framed distance now data w)) as H.
  destruct (outcome (onMessage distance now data) w) as [[]|e]; [exact H|contradiction].
Qed.

(** [ws.on('open')], in full: the startup query either throws, and the error
    is logged, or returns, and its rows are registered one after the other;
    the subscriptions are initialised in both cases. *)
Lemma onOpen_exec w :
  onOpen w
  = (Ret tt,
     match faults w with
     | true :: rest =>
         mkWorld (setSubscriptionsInitialized true (mem w)) (db w)
                 (events w ++ [Failed SelectActiveTrips (mem w);
                               Console ErrLoadingActiveTrips])
                 rest
     | _ =>
         mkWorld (setSubscriptionsInitialized true
                    (setActiveTrips (reconciled (activeTripsOf (db w))) (mem w)))
                 (db w) (events w ++ [Call SelectActiveTrips]) (tail (faults w))
     end).
Proof.
  assert (forall w1, initializeSubscriptions w1
                     = (Ret tt, mkWorld (setSubscriptionsInitialized true (mem w1))
                                        (db w1) (events w1) (faults w1))) as Hinit.
  { intros [[reg cache stops flag] t evs fs].
    unfold initializeSubscriptions, bind, getMem, ret, modifyMem. simpl.
    destruct flag; reflexivity. }
  unfold onOpen, bind, tryCatch, selectActiveTrips, storeOp.
  destruct (faults w) as [|[] rest] eqn:Hfaults; simpl.
  - rewrite forEach_modifyMem, Hinit. simpl. rewrite fold_left_setActiveTrips.
    reflexivity.
  - unfold consoleError, emit. simpl. rewrite Hinit. simpl.
    rewrite <- app_assoc. reflexivity.
  - rewrite forEach_modifyMem, Hinit. simpl. rewrite fold_left_setActiveTrips.
    reflexivity.
Qed.

Lemma handle_returns distance i w : outcome (handle distance i) w = Ret tt.
Proof.
  destruct i as [|now data|new|new old]; simpl.
  - unfold outcome. rewrite onOpen_exec. reflexivity.
  - apply onMessage_returns.
  - reflexivity.
  - unfold onTripUpdated.
    destruct (negb (isNone (actual_end_time new)) && isNone (actual_end_time old));
      reflexivity.
Qed.

Lemma run_cons distance i rest w :
  run distance (i :: rest) w = run distance rest (exec (handle distance i) w).
Proof.
  simpl. unfold bind. pose proof (handle_returns distance i w) as H.
  unfold outcome, exec in *. destruct (handle distance i w) as [[[]|e] w1]; simpl in *.
  - reflexivity.
  - discriminate.
Qed.

Lemma run_app distance l1 : forall l2 w,
  run distance (l1 ++ l2) w = run distance l2 (exec (run distance l1) w).
Proof.
  induction l1 as [|i rest IH]; intros l2 w.
  - reflexivity.
  - simpl app. rewrite run_cons.
    change (exec (run distance (i :: rest)) w) with (snd (run distance (i :: rest) w)).
    rewrite run_cons. apply IH.
Qed.

Lemma handle_cache distance i w :
  vehicleDataCache (mem (exec (handle distance i) w))
  = match i with
    | WsMessage _ (Parsed vehicleData) =>
        <[Plate vehicleData := vehicleData]> (vehicleDataCache (mem w))
    | _ => vehicleDataCache (mem w)
    end.
Proof.
  destruct i as [|now data|new|new old]; simpl.
  - unfold exec. rewrite onOpen_exec. simpl. destruct (faults w) as [|[] rest]; reflexivity.
  - pose proof (onMessage_mem distance now data w) as H.
    destruct data as [|vehicleData]; [rewrite H; reflexivity|].
    destruct H as [_ [H _]]. exact H.
  - reflexivity.
  - unfold onTripUpdated.
    destruct (negb (isNone (actual_end_time new)) && isNone (actual_end_time old));
      reflexivity.
Qed.

(** X1. [getLatestVehicleData] returns, for every plate that is not the
    empty string, the last record received for it over the WebSocket,
    whether that record was valid, tracked or stored, and whatever the store
    did in between; no other input of the server changes the cache.  (The
    records without a plate are cached too, under the key their [Plate] field
    has in the source, which is not told apart from the empty string here.) *)
Theorem latest_record_is_cached distance inputs : forall w plate,
  truthy plate = true ->
  getLatestVehicleData plate (mem (exec (run distance inputs) w))
  = latestOf plate inputs (getLatestVehicleData plate (mem w)).
Proof.
  induction inputs as [|i rest IH]; intros w plate Hplate.
  - reflexivity.
  - unfold exec. rewrite run_cons. fold (exec (run distance rest) (exec (handle distance i) w)).
    rewrite (IH _ _ Hplate). unfold getLatestVehicleData. rewrite handle_cache.
    destruct i as [|now [|vehicleData]|new|new old]; simpl; try reflexivity.
    f_equal. destruct (String.eqb (Plate vehicleData) plate) eqn:Heq.
    + apply String.eqb_eq in Heq. subst. apply lookup_insert_eq.
    + apply String.eqb_neq in Heq. apply lookup_insert_ne. exact Heq.
Qed.

Lemma latest_record_is_cached_witness :
  let inputs := telemetry [restSample 0; moveSample 1000] in
  let w := initialWorld (testTables None) in
  truthy "BH47JSGP" = true
  /\ getLatestVehicleData "BH47JSGP" (mem (exec (run greatCircleKm inputs) w))
     = latestOf "BH47JSGP" inputs (getLatestVehicleData "BH47JSGP" (mem w)).
Proof.
  intros inputs w. split; [reflexivity|].
  apply (latest_record_is_cached greatCircleKm inputs w "BH47JSGP"). reflexivity.
Defined.

(** X2. A message is about one plate: it leaves the stop interval and the
    cached record of every other plate, the registry and the subscription
    flag as they were, whatever its payload and whatever the store does. *)
Theorem message_touches_own_plate_only distance now data w :
  let w' := exec (onMessage distance now data) w in
  activeTrips (mem w') = activeTrips (mem w)
  /\ subscriptionsInitialized (mem w') = subscriptionsInitialized (mem w)
  /\ forall plate,
       plateOf data <> Some plate ->
       vehicleStops (mem w') !! plate = vehicleStops (mem w) !! plate
       /\ getLatestVehicleData plate (mem w') = getLatestVehicleData plate (mem w).
Proof.
  pose proof (onMessage_mem distance now data w) as H. simpl.
  destruct data as [|vehicleData].
  - rewrite H. auto.
  - destruct H as [Hreg [Hcache [Hflag Hstops]]]. simpl in *.
    split; [exact Hreg|]. split; [exact Hflag|].
    intros plate Hne. assert (plate <> Plate vehicleData) as Hne' by congruence.
    split; [apply Hstops; exact Hne'|].
    unfold getLatestVehicleData. rewrite Hcache. apply lookup_insert_ne. congruence.
Qed.

(** ** Movement and the dwell clock *)

(** One sample of a moving vehicle, without faults: the interval of the plate
    is dropped and the long-stop handler is not invoked. *)
Lemma onMessage_moving distance now vehicleData plate w :
  faultless w -> moving plate vehicleData ->
  wp (onMessage distance now (Parsed vehicleData))
     (fun _ w' =>
        faultless w'
        /\ vehicleStops (mem w') = delete plate (vehicleStops (mem w))
        /\ exists new, events w' = events w ++ new /\ longStops new = [])
     (fun _ _ => False) w.
Proof.
  intros Hf [Hplate [Hspeed [HLat [HLng [ms Hloc]]]]].
  destruct (Latitude vehicleData) as [Lat|] eqn:ELat; [|congruence].
  destruct (Longitude vehicleData) as [Lng|] eqn:ELng; [|congruence].
  unfold onMessage. apply wp_tryCatch.
  apply wp_bind, wp_modifyMem. simpl. rewrite ELat, ELng, Hloc.
  apply wp_bind. unfold trackStop.
  apply Z.eqb_neq in Hspeed. rewrite Hspeed.
  apply wp_modifyMem. simpl. rewrite Hplate.
  eapply wp_mono.
  - eapply (processVehicleData_quiet distance now vehicleData) with (e0 := events w) (stops := []).
    split; [exact Hf|]. split; [reflexivity|]. exists []. rewrite app_nil_r. auto.
  - simpl. intros u w' [Hf' [Hm' Hnew]]. rewrite Hm'. auto.
  - intros e w' [].
Qed.

Lemma run_events distance inputs w :
  events (exec (run distance inputs) w)
  = events w ++ newEvents w (exec (run distance inputs) w).
Proof. apply (run_validTrace distance False inputs w). intros []. Qed.

Lemma run_faultless distance inputs : forall w,
  faultless w -> faultless (exec (run distance inputs) w).
Proof.
  intros w Hf.
  assert (stableRun False (fun _ => True) (fun _ => True) faultless faultless) as HS.
  { constructor.
    - constructor.
      + intros c t w0 H _ _ _. apply faultless_called. exact H.
      + intros c w0 H Hh. unfold faultless in H. rewrite H in Hh. discriminate.
      + auto.
    - auto.
    - auto.
    - intros []. }
  apply (run_returns distance False faultless inputs w HS Hf).
Qed.

(** X3. Movement resets the dwell clock.  Whatever the server handled
    before, once a moving sample of a plate has been handled a following
    sequence of samples at rest is a fresh stop: its dwell is counted from
    its own first sample, so the long stops of the whole run are those fired
    before the move followed by those of the new sequence alone. *)
Theorem movement_resets_dwell distance plate earlier move first rest w :
  faultless w ->
  moving plate (snd move) ->
  Forall (fun s => stopped plate (snd s)) (first :: rest) ->
  longStops (newEvents w (exec (run distance
                                  (earlier ++ telemetry (move :: first :: rest))) w))
  = longStops (newEvents w (exec (run distance earlier) w))
    ++ detect plate (openInterval (snd first)) rest.
Proof.
  intros Hf Hmove Hall.
  set (w1 := exec (run distance earlier) w).
  assert (faultless w1) as Hf1 by (apply run_faultless; exact Hf).
  pose proof (run_events distance earlier w) as He1. fold w1 in He1.
  destruct move as [now vehicleData]. simpl in Hmove.
  pose proof (wp_outcome _ _ _ _
                (onMessage_moving distance now vehicleData plate w1 Hf1 Hmove)) as H2.
  set (w2 := exec (onMessage distance now (Parsed vehicleData)) w1) in *.
  destruct (outcome (onMessage distance now (Parsed vehicleData)) w1) as [[]|e];
    [|contradiction].
  destruct H2 as [Hf2 [Hst2 [new2 [He2 Hl2]]]].
  assert (vehicleStops (mem w2) !! plate = None) as Hnone
    by (rewrite Hst2; apply lookup_delete_eq).
  destruct (run_first_stopped distance plate first rest w2 Hf2 Hnone Hall) as [_ Hl3].
  pose proof (run_events distance (telemetry (first :: rest)) w2) as He3.
  set (w3 := exec (run distance (telemetry (first :: rest))) w2) in *.
  assert (exec (run distance (earlier ++ telemetry ((now, vehicleData) :: first :: rest))) w
          = w3) as Hw.
  { unfold exec at 1. rewrite run_app. fold w1.
    change (telemetry ((now, vehicleData) :: first :: rest))
      with (WsMessage now (Parsed vehicleData) :: telemetry (first :: rest)).
    rewrite run_cons. reflexivity. }
  rewrite Hw.
  assert (events w3 = events w ++ (newEvents w w1 ++ new2 ++ newEvents w2 w3)) as He.
  { rewrite He3, He2, He1, <- !app_assoc. reflexivity. }
  rewrite (newEvents_app _ _ _ He), !longStops_app, Hl2, Hl3. reflexivity.
Qed.

Lemma movement_resets_dwell_witness :
  let w := initialWorld (testTables (Some 0)) in
  let earlier := telemetry [restSample 0; restSample 240000] in
  let move := moveSample 250000 in
  let first := restSample 260000 in
  let rest := [restSample 400000] in
  faultless w
  /\ moving "BH47JSGP" (snd move)
  /\ Forall (fun s => stopped "BH47JSGP" (snd s)) (first :: rest)
  /\ longStops (newEvents w (exec (run greatCircleKm
                                     (earlier ++ telemetry (move :: first :: rest))) w))
     = longStops (newEvents w (exec (run greatCircleKm earlier) w))
       ++ detect "BH47JSGP" (openInterval (snd first)) rest.
Proof.
  intros w earlier move first rest.
  assert (faultless w) as H1 by reflexivity.
  assert (moving "BH47JSGP" (snd move)) as H2.
  { repeat split; try discriminate. exists 250000. reflexivity. }
  assert (Forall (fun s => stopped "BH47JSGP" (snd s)) (first :: rest)) as H3.
  { repeat constructor; apply restSample_stopped. }
  split; [exact H1|]. split; [exact H2|]. split; [exact H3|].
  exact (movement_resets_dwell greatCircleKm "BH47JSGP" earlier move first rest w H1 H2 H3).
Defined.

(** ** A long stop whose handling fails *)

(** The sample that triggers the long-stop handler, when the first store call
    of the handler throws: the error is caught by the message handler, after
    the update of [lastLocTime] and before [processed] is set and
    [processVehicleData] is called. *)
Lemma onMessage_long_stop_failed distance now vehicleData plate info rest w :
  faults w = true :: rest ->
  stopped plate vehicleData ->
  vehicleStops (mem w) !! plate = Some info ->
  processed info = false ->
  dwellReached info vehicleData = true ->
  onMessage distance now (Parsed vehicleData) w
  = (Ret tt,
     let m1 := setVehicleStops
                 (insert plate (mkStopInfo (stopStart info) (location info)
                                           (locTimeOf vehicleData) false))
                 (setVehicleDataCache (insert plate vehicleData) (mem w)) in
     mkWorld m1 (db w)
             (events w ++ [LongStop plate (location info);
                           Failed (SelectStartedTrips plate) m1;
                           Console ErrParsingWebSocketData])
             rest).
Proof.
  intros Hfaults [Hplate [Hspeed [HLat [HLng [ms Hloc]]]]] Hlook Hproc Hdwell.
  destruct (Latitude vehicleData) as [Lat|] eqn:ELat; [|congruence].
  destruct (Longitude vehicleData) as [Lng|] eqn:ELng; [|congruence].
  unfold onMessage, tryCatch, bind at 1, modifyMem. simpl.
  rewrite ELat, ELng, Hloc. unfold bind at 1, trackStop. rewrite Hspeed. simpl.
  unfold bind at 1, getMem. simpl. rewrite Hplate, Hlook.
  unfold bind at 1, modifyMem. simpl.
  rewrite stopDuration_five.
  replace (fiveMinutes <=? ms - stopStart info)%Z with (dwellReached info vehicleData)
    by (unfold dwellReached, locTimeOf; rewrite Hloc; reflexivity).
  rewrite Hdwell, Hproc. simpl.
  unfold bind at 1, handleLongStop, bind at 1, emit. simpl.
  unfold bind at 1, selectStartedTrips, storeOp. simpl. rewrite Hfaults.
  unfold consoleError, emit. simpl. rewrite <- !app_assoc.
  unfold locTimeOf. rewrite Hloc. reflexivity.
Qed.

(** X4. When the first store call of the long-stop handler throws on the
    sample that triggers it, the error is logged by the message handler, the
    sample is not passed to [processVehicleData], and the interval is left
    unprocessed; the next sample at rest invokes the long-stop handler again,
    so the stop fires twice. *)
Theorem failed_long_stop_is_retried distance plate info trigger next w :
  faults w = [true] ->
  stopped plate (snd trigger) -> stopped plate (snd next) ->
  vehicleStops (mem w) !! plate = Some info ->
  processed info = false ->
  dwellReached info (snd trigger) = true ->
  dwellReached info (snd next) = true ->
  let w' := exec (run distance (telemetry [trigger])) w in
  vehicleStops (mem w') !! plate
  = Some (mkStopInfo (stopStart info) (location info) (locTimeOf (snd trigger)) false)
  /\ newEvents w w'
     = [LongStop plate (location info);
        Failed (SelectStartedTrips plate) (mem w');
        Console ErrParsingWebSocketData]
  /\ db w' = db w
  /\ longStops (newEvents w (exec (run distance (telemetry [trigger; next])) w))
     = [(plate, location info); (plate, location info)].
Proof.
  intros Hfaults Htrigger Hnext Hlook Hproc Hdwell Hdwell'.
  destruct trigger as [now vehicleData]. destruct next as [now' vehicleData'].
  simpl in Htrigger, Hnext, Hdwell, Hdwell'. cbv zeta. simpl snd.
  pose proof (onMessage_long_stop_failed distance now vehicleData plate info [] w
                Hfaults Htrigger Hlook Hproc Hdwell) as Hrun.
  set (m1 := setVehicleStops
               (insert plate (mkStopInfo (stopStart info) (location info)
                                         (locTimeOf vehicleData) false))
               (setVehicleDataCache (insert plate vehicleData) (mem w))) in *.
  set (w1 := mkWorld m1 (db w)
                     (events w ++ [LongStop plate (location info);
                                   Failed (SelectStartedTrips plate) m1;
                                   Console ErrParsingWebSocketData]) []) in *.
  cbv zeta in Hrun. fold w1 in Hrun.
  assert (exec (run distance (telemetry [(now, vehicleData)])) w = w1) as Hone.
  { unfold exec, telemetry. simpl map. rewrite run_cons.
    unfold exec. simpl handle. rewrite Hrun. reflexivity. }
  assert (exec (run distance (telemetry [(now, vehicleData); (now', vehicleData')])) w
          = exec (onMessage distance now' (Parsed vehicleData')) w1) as Htwo.
  { unfold exec at 1. unfold telemetry. simpl map. rewrite !run_cons.
    simpl handle. unfold exec at 2. rewrite Hrun. reflexivity. }
  rewrite Hone, Htwo.
  split; [apply lookup_insert_eq|]. split; [apply newEvents_app; reflexivity|].
  split; [reflexivity|].
  assert (faultless w1) as Hf1 by reflexivity.
  pose proof (wp_outcome _ _ _ _
                (onMessage_stopped distance now' vehicleData' plate w1 Hf1 Hnext)) as H2.
  destruct (outcome (onMessage distance now' (Parsed vehicleData')) w1) as [[]|e];
    [|contradiction].
  destruct H2 as [_ [_ [new [He Hl]]]].
  assert (vehicleStops (mem w1) !! plate
          = Some (mkStopInfo (stopStart info) (location info) (locTimeOf vehicleData) false))
    as Hlook1 by apply lookup_insert_eq.
  rewrite Hlook1 in Hl. unfold dwellReached in Hl, Hdwell'. simpl in Hl.
  rewrite Hdwell' in Hl. simpl in Hl.
  assert (events (exec (onMessage distance now' (Parsed vehicleData')) w1)
          = events w ++ ([LongStop plate (location info);
                          Failed (SelectStartedTrips plate) m1;
                          Console ErrParsingWebSocketData] ++ new)) as He'.
  { rewrite He. unfold w1. simpl. rewrite <- app_assoc. reflexivity. }
  rewrite (newEvents_app _ _ _ He'), longStops_app, Hl. reflexivity.
Qed.

Lemma failed_long_stop_is_retried_witness :
  let w := restingWorld in
  let info := openInterval (snd (restSample 0)) in
  let trigger := restSample 300000 in
  let next := restSample 360000 in
  faults w = [true]
  /\ stopped "BH47JSGP" (snd trigger) /\ stopped "BH47JSGP" (snd next)
  /\ vehicleStops (mem w) !! "BH47JSGP" = Some info
  /\ processed info = false
  /\ dwellReached info (snd trigger) = true
  /\ dwellReached info (snd next) = true
  /\ (let w' := exec (run greatCircleKm (telemetry [trigger])) w in
      vehicleStops (mem w') !! "BH47JSGP"
      = Some (mkStopInfo (stopStart info) (location info) (locTimeOf (snd trigger)) false)
      /\ newEvents w w'
         = [LongStop "BH47JSGP" (location info);
            Failed (SelectStartedTrips "BH47JSGP") (mem w');
            Console ErrParsingWebSocketData]
      /\ db w' = db w
      /\ longStops (newEvents w (exec (run greatCircleKm (telemetry [trigger; next])) w))
         = [("BH47JSGP", location info); ("BH47JSGP", location info)]).
Proof.
  intros w info trigger next.
  assert (faults w = [true]) as H1 by reflexivity.
  assert (stopped "BH47JSGP" (snd trigger)) as H2 by apply restSample_stopped.
  assert (stopped "BH47JSGP" (snd next)) as H3 by apply restSample_stopped.
  assert (vehicleStops (mem w) !! "BH47JSGP" = Some info) as H4 by apply lookup_insert_eq.
  assert (processed info = false) as H5 by reflexivity.
  assert (dwellReached info (snd trigger) = true) as H6 by reflexivity.
  assert (dwellReached info (snd next) = true) as H7 by reflexivity.
  split; [exact H1|]. split; [exact H2|]. split; [exact H3|]. split; [exact H4|].
  split; [exact H5|]. split; [exact H6|]. split; [exact H7|].
  exact (failed_long_stop_is_retried greatCircleKm "BH47JSGP" info trigger next w
           H1 H2 H3 H4 H5 H6 H7).
Defined.

(** ** How [processVehicleData] fails *)

Lemma wp_trivial {A} (m : M A) (Q : A -> World -> Prop) (E : Exn -> World -> Prop) w :
  (forall a w', Q a w') -> (forall e w', E e w') -> wp m Q E w.
Proof. intros HQ HE. unfold wp. destruct (m w) as [[a|e] w']; auto. Qed.

Lemma wp_and {A} (m : M A) (Q Q' : A -> World -> Prop) (E E' : Exn -> World -> Prop) w :
  wp m Q E w -> wp m Q' E' w ->
  wp m (fun a w' => Q a w' /\ Q' a w') (fun e w' => E e w' /\ E' e w') w.
Proof. unfold wp. destruct (m w) as [[a|e] w']; auto. Qed.

(** The [catch] block of [processVehicleData] ends every failure by a
    [ReferenceError], after its error line. *)
Lemma processVehicleData_throws distance now vehicleData w :
  wp (processVehicleData distance now vehicleData)
     (fun _ _ => True)
     (fun e w' => e = ReferenceError "trip_id"
                  /\ exists evs, events w' = evs ++ [Console ErrProcessingVehicleData]) w.
Proof.
  unfold processVehicleData. apply wp_tryCatch. apply wp_trivial; [auto|].
  intros e w'. apply wp_bind, wp_emit. apply wp_throw. simpl. eauto.
Qed.

Lemma mem_stable strict site m0 :
  stable strict site (fun w => mem w = m0) (fun w => mem w = m0).
Proof. constructor; auto. Qed.

Lemma noLongStop_stable strict site e0 :
  stable strict site
         (fun w => exists new, events w = e0 ++ new /\ longStops new = [])
         (fun w => exists new, events w = e0 ++ new /\ longStops new = []).
Proof.
  constructor.
  - intros c t w [new [He Hl]] _ _ _. exists (new ++ [Call c]). split.
    + simpl. rewrite He, <- app_assoc. reflexivity.
    + rewrite longStops_app, Hl. reflexivity.
  - intros c w [new [He Hl]] _. exists (new ++ [Failed c (mem w)]). split.
    + simpl. rewrite He, <- app_assoc. reflexivity.
    + rewrite longStops_app, Hl. reflexivity.
  - intros line w [new [He Hl]]. exists (new ++ [Console line]). split.
    + simpl. rewrite He, <- app_assoc. reflexivity.
    + rewrite longStops_app, Hl. reflexivity.
Qed.

(** X5. [processVehicleData] never changes the in-memory state and never
    invokes the long-stop handler.  It returns
    normally exactly when no store call throws; when one throws, no further
    store call is made, the error line of the [catch] block is written, and
    the function rejects with the [ReferenceError] raised by that block (for
    [trip_id], which is not in scope there) instead of the error of the
    store. *)
Theorem processVehicleData_rejects_by_ReferenceError distance now vehicleData w :
  let w' := exec (processVehicleData distance now vehicleData) w in
  mem w' = mem w
  /\ longStops (newEvents w w') = []
  /\ match outcome (processVehicleData distance now vehicleData) w with
     | Ret _ => Forall notFailed (newEvents w w')
     | Throw e =>
         e = ReferenceError "trip_id"
         /\ exists before c lines,
              newEvents w w'
              = before ++ Failed c (mem w) :: lines ++ [Console ErrProcessingVehicleData]
              /\ Forall notFailed before /\ Forall isConsole lines
     end.
Proof.
  pose proof (processVehicleData_stable distance False _ _ now vehicleData w
                (mem_stable _ _ (mem w)) eq_refl) as Hmem.
  pose proof (processVehicleData_stable distance False _ _ now vehicleData w
                (noLongStop_stable _ _ (events w))) as Hquiet.
  pose proof (processVehicleData_stable distance False _ _ now vehicleData w
                (stableRun_stable _ _ _ _ _
                   (failure_stableRun (telemetrySite now vehicleData) (events w)))
                (unfailed_refl w)) as Hfail.
  assert (exists new, events w = events w ++ new /\ longStops new = []) as Hq0
    by (exists []; rewrite app_nil_r; auto).
  pose proof (wp_and _ _ _ _ _ _
                (wp_and _ _ _ _ _ _
                   (wp_and _ _ _ _ _ _ (Hmem ltac:(intros [])) (Hquiet Hq0 ltac:(intros [])))
                   (Hfail ltac:(intros [])))
                (processVehicleData_throws distance now vehicleData w)) as H.
  apply wp_outcome in H. simpl.
  destruct (outcome (processVehicleData distance now vehicleData) w) as [[]|e].
  - destruct H as [[[Hm [newq [Heq Hq]]] [new [He Hnew]]] _]. split; [exact Hm|].
    split; [rewrite (newEvents_app _ _ _ Heq); exact Hq|].
    rewrite (newEvents_app _ _ _ He). exact Hnew.
  - destruct H as [[[Hm [newq [Heq Hq]]] [new [c [rest [He [Hnew Hrest]]]]]]
                     [Hexn [evs Hlast]]].
    split; [exact Hm|].
    split; [rewrite (newEvents_app _ _ _ Heq); exact Hq|].
    split; [exact Hexn|].
    rewrite Hm in He.
    destruct (exists_last (l := rest)) as [lines [final Hsplit]].
    { intros ->. rewrite He in Hlast.
      change (events w ++ new ++ [Failed c (mem w)])
        with (events w ++ new ++ [] ++ [Failed c (mem w)]) in Hlast.
      rewrite !app_assoc in Hlast. apply app_inj_tail in Hlast.
      destruct Hlast as [_ Hlast]. discriminate. }
    subst rest. exists new, c, lines.
    assert (final = Console ErrProcessingVehicleData) as ->.
    { rewrite He in Hlast.
      change (Failed c (mem w) :: lines ++ [final])
        with ((Failed c (mem w) :: lines) ++ [final]) in Hlast.
      rewrite !app_assoc in Hlast. apply app_inj_tail in Hlast. apply Hlast. }
    split; [|split; [exact Hnew|]].
    + apply newEvents_app. exact He.
    + apply List.Forall_app in Hrest. apply Hrest.
Qed.

(** ** Trips that wait for the vehicle to move *)

Lemma open_not_started plate t trip trips :
  startedTripsOf plate t = [] -> openTripsOf plate t = trip :: trips ->
  actual_start_time trip = None.
Proof.
  unfold startedTripsOf, openTripsOf. revert trip trips.
  induction (route_plans t) as [|r l IH]; simpl; intros trip trips Hs Ho; [discriminate|].
  destruct (String.eqb (vehicle_plate r) plate); simpl in *; [|eapply IH; eauto].
  destruct (isNone (actual_end_time r)); simpl in *.
  - destruct (actual_start_time r) eqn:Hr; simpl in *; [discriminate|].
    inversion Ho; subst. exact Hr.
  - rewrite ?andb_false_r in Hs. eapply IH; eauto.
Qed.

Lemma idle_trans w0 w1 w2 : idle w0 w1 -> idle w1 w2 -> idle w0 w2.
Proof.
  intros [Hdb1 [new1 [He1 Hall1]]] [Hdb2 [new2 [He2 Hall2]]]. split; [congruence|].
  exists (new1 ++ new2). split.
  - rewrite He2, He1, <- app_assoc. reflexivity.
  - apply List.Forall_app. auto.
Qed.

Lemma handleLongStop_waiting distance now plate loc w0 w :
  idle w0 w -> startedTripsOf plate (db w0) = [] ->
  wp (handleLongStop distance now plate loc) (fun _ => idle w0) (fun _ => idle w0) w.
Proof.
  intros Hidle Hnone. unfold handleLongStop.
  apply wp_bind, wp_emit.
  assert (idle w0 (mkWorld (mem w) (db w) (events w ++ [LongStop plate loc]) (faults w)))
    as Hidle1 by (eapply idle_event; eauto; reflexivity).
  unfold selectStartedTrips.
  apply wp_lookup_idle;
    [exact Logic.I|exact Hidle1| |auto|intros w' Hw' _; apply wp_ret; exact Hw'].
  simpl. destruct Hidle as [-> _]. rewrite Hnone. reflexivity.
Qed.

Lemma processVehicleData_waiting distance now vehicleData w0 w :
  idle w0 w -> startedTripsOf (Plate vehicleData) (db w0) = [] ->
  (Speed vehicleData <= 0)%Z ->
  wp (processVehicleData distance now vehicleData) (fun _ => idle w0) (fun _ => idle w0) w.
Proof.
  intros Hidle Hnone Hspeed. unfold processVehicleData. apply wp_tryCatch.
  eapply wp_mono with (Q := fun _ => idle w0) (E := fun _ => idle w0).
  2: { auto. }
  2: { intros e w' Hw'. apply wp_bind. unfold consoleError. apply wp_emit.
       apply wp_throw. eapply idle_event; eauto; reflexivity. }
  destruct (truthy (Plate vehicleData)); [|apply wp_ret; exact Hidle].
  destruct (Latitude vehicleData) as [Lat|]; [|apply wp_ret; exact Hidle].
  destruct (Longitude vehicleData) as [Lng|]; [|apply wp_ret; exact Hidle].
  unfold selectOpenTrips. apply wp_bind, wp_storeOp.
  assert (idle w0 (mkWorld (mem w) (db w)
                           (events w ++ [Call (SelectOpenTrips (Plate vehicleData))])
                           (tail (faults w)))) as Hcalled
    by (eapply idle_event; eauto; reflexivity).
  assert (wp (match openTripsOf (Plate vehicleData) (db w) with
              | [] => ret tt
              | trip :: _ =>
                  actual_start_time <-
                    (if isNone (actual_start_time trip) && (0 <? Speed vehicleData)%Z
                     then updateStartTime (trip_id trip) now ;; ret (Some now)
                     else ret (actual_start_time trip)) ;;
                  match actual_start_time with
                  | None => ret tt
                  | Some _ =>
                      processStartedTrip distance now vehicleData (trip_id trip) Lat Lng
                  end
              end)
             (fun _ => idle w0) (fun _ => idle w0)
             (mkWorld (mem w) (db w)
                      (events w ++ [Call (SelectOpenTrips (Plate vehicleData))])
                      (tail (faults w)))) as Hrest.
  { destruct (openTripsOf (Plate vehicleData) (db w)) as [|trip trips] eqn:Hopen;
      [apply wp_ret; exact Hcalled|].
    destruct Hidle as [Hdb _]. rewrite Hdb in Hopen.
    rewrite (open_not_started _ _ _ _ Hnone Hopen).
    replace (0 <? Speed vehicleData)%Z with false
      by (symmetry; apply Z.ltb_ge; exact Hspeed).
    simpl. apply wp_bind, wp_ret, wp_ret. exact Hcalled. }
  destruct (faults w) as [|[|] rest]; simpl in *.
  - exact Hrest.
  - apply (idle_event w0 (Failed (SelectOpenTrips (Plate vehicleData)) (mem w)) w);
      [exact Hidle|exact Logic.I|reflexivity|reflexivity].
  - exact Hrest.
Qed.

Lemma onMessage_waiting distance now vehicleData w0 w :
  idle w0 w -> startedTripsOf (Plate vehicleData) (db w0) = [] ->
  (Speed vehicleData <= 0)%Z ->
  wp (onMessage distance now (Parsed vehicleData)) (fun _ => idle w0) (fun _ _ => False) w.
Proof.
  intros Hidle Hnone Hspeed. unfold onMessage. apply wp_tryCatch.
  assert (forall ev w', lookupOnly ev -> idle w0 w' -> idle w0 (emitted ev w')) as Hemit.
  { intros ev w' Hev Hw'. eapply idle_event; eauto; reflexivity. }
  assert (forall f w', idle w0 w' -> idle w0 (withMem f w')) as Hmem.
  { intros f w' [Hdb Hnew]. split; auto. }
  eapply wp_mono with (Q := fun _ => idle w0) (E := fun _ => idle w0).
  2: { auto. }
  2: { intros e w' Hw'. unfold consoleError. apply wp_emit.
       apply (Hemit (Console ErrParsingWebSocketData)); [exact Logic.I|exact Hw']. }
  apply wp_bind, wp_modifyMem.
  pose proof (Hmem (setVehicleDataCache (insert (Plate vehicleData) vehicleData)) w
                Hidle) as H1.
  unfold withMem in H1.
  destruct (Latitude vehicleData) as [Lat|].
  2: { unfold consoleError. apply wp_emit. apply (Hemit (Console _)); [exact Logic.I|exact H1]. }
  destruct (Longitude vehicleData) as [Lng|].
  2: { unfold consoleError. apply wp_emit. apply (Hemit (Console _)); [exact Logic.I|exact H1]. }
  destruct (LocTime vehicleData) as [|raw|locTime].
  - apply wp_ret. exact H1.
  - unfold consoleError. apply wp_emit. apply (Hemit (Console _)); [exact Logic.I|exact H1].
  - apply wp_bind.
    eapply wp_mono with (Q := fun _ => idle w0) (E := fun _ => idle w0).
    2: { intros u w' Hw'. apply processVehicleData_waiting; auto. }
    2: { auto. }
    unfold trackStop.
    assert (forall g w', idle w0 w' ->
              wp (modifyMem (setVehicleStops g)) (fun _ => idle w0) (fun _ => idle w0) w')
      as Hmod.
    { intros g w' Hw'. apply wp_modifyMem. apply (Hmem _ w' Hw'). }
    destruct (Speed vehicleData =? 0)%Z; [|apply Hmod; exact H1].
    apply wp_bind, wp_getMem. simpl.
    destruct (vehicleStops (mem w) !! Plate vehicleData) as [stopInfo|];
      [|apply Hmod; exact H1].
    apply wp_bind. eapply wp_mono; [apply Hmod; exact H1| |auto].
    intros u w1 Hw1.
    destruct (Qle_bool 5 _ && negb (processed stopInfo)); [|apply wp_ret; exact Hw1].
    apply wp_bind. eapply wp_mono.
    + apply (handleLongStop_waiting distance now _ _ w0 w1); [exact Hw1|exact Hnone].
    + intros u' w' Hw'. apply Hmod. exact Hw'.
    + auto.
Qed.

(** X6. A trip waits for its vehicle to move.  Telemetry that never reports
    a positive speed, for plates none of whose open trips is started, writes
    nothing, however many samples arrive and whatever the store does: the
    tables are left as they are (no trip is started, no coordinate is logged,
    no stop is completed) and the only store calls are lookups of
    [route_plans]. *)
Theorem planned_trip_waits_for_movement distance samples w :
  Forall (fun s => startedTripsOf (Plate (snd s)) (db w) = []
                   /\ (Speed (snd s) <= 0)%Z) samples ->
  let w' := exec (run distance (telemetry samples)) w in
  db w' = db w /\ Forall lookupOnly (newEvents w w').
Proof.
  intros Hall. simpl.
  assert (forall w1, idle w w1 -> idle w (exec (run distance (telemetry samples)) w1))
    as Hrun.
  { induction samples as [|[now vehicleData] rest IH]; intros w1 Hidle.
    - exact Hidle.
    - inversion Hall as [|? ? [Hnone Hspeed] Hrest]; subst. simpl in Hnone, Hspeed.
      unfold exec, telemetry. simpl map. rewrite run_cons. apply IH; [exact Hrest|].
      simpl handle.
      pose proof (wp_outcome _ _ _ _
                    (onMessage_waiting distance now vehicleData w w1 Hidle Hnone Hspeed))
        as H.
      destruct (outcome (onMessage distance now (Parsed vehicleData)) w1) as [[]|e];
        [exact H|contradiction]. }
  destruct (Hrun w (idle_refl w)) as [Hdb [new [He Hnew]]].
  split; [exact Hdb|]. rewrite (newEvents_app _ _ _ He). exact Hnew.
Qed.

Lemma planned_trip_waits_for_movement_witness :
  let w := initialWorld (testTables None) in
  let samples := [restSample 0; restSample 60000] in
  Forall (fun s => startedTripsOf (Plate (snd s)) (db w) = []
                   /\ (Speed (snd s) <= 0)%Z) samples
  /\ (let w' := exec (run greatCircleKm (telemetry samples)) w in
      db w' = db w /\ Forall lookupOnly (newEvents w w')).
Proof.
  intros w samples.
  assert (Forall (fun s => startedTripsOf (Plate (snd s)) (db w) = []
                           /\ (Speed (snd s) <= 0)%Z) samples) as H.
  { repeat constructor; simpl; lia. }
  split; [exact H|].
  exact (planned_trip_waits_for_movement greatCircleKm samples w H).
Defined.

(** ** The coordinate log *)

Lemma coordsOf_app e1 e2 : coordsOf (e1 ++ e2) = coordsOf e1 ++ coordsOf e2.
Proof. unfold coordsOf. apply flat_map_app. Qed.

Lemma logged_called e0 base rows c t w :
  logged e0 base rows w -> coordsOf [Call c] = [] ->
  trip_coordinates t = trip_coordinates (db w) ->
  logged e0 base rows (called c t w).
Proof.
  intros [Hf [[new [He Hc]] Hdb]] Hnone Hsame.
  split; [apply faultless_called; exact Hf|]. split.
  - exists (new ++ [Call c]). split.
    + simpl. rewrite He, <- app_assoc. reflexivity.
    + rewrite coordsOf_app, Hc, Hnone. apply app_nil_r.
  - simpl. rewrite Hsame. exact Hdb.
Qed.

Lemma logged_stable_check tripId e0 base rows :
  stable False (checkSite tripId) (logged e0 base rows) (fun _ => False).
Proof.
  constructor.
  - intros c t w HL _ Hsite Happ.
    destruct c; simpl in Hsite; try contradiction;
      inversion Happ; subst; apply logged_called; auto.
  - intros c w [Hf _] Hh. unfold faultless in Hf. rewrite Hf in Hh. discriminate.
  - auto.
Qed.

(** The completion loop of [processVehicleData] inserts no coordinate. *)
Lemma telemetryLoop_logged (distance : Point -> Point -> R) now tripId (Lat Lng : R)
    e0 base rows customers : forall w,
  logged e0 base rows w ->
  wp (forEach customers (fun customer =>
        if Rle_dec (distance (Lng, Lat) (longitude customer, latitude customer)) 1
        then updateCompleted tripId (customer_code customer) now ;;
             checkTripCompletion now tripId
        else ret tt))
     (fun _ => logged e0 base rows) (fun _ _ => False) w.
Proof.
  induction customers as [|x rest IH]; intros w HL.
  - apply wp_ret. exact HL.
  - simpl. apply wp_bind.
    destruct (Rle_dec (distance (Lng, Lat) (longitude x, latitude x)) 1).
    + apply wp_bind. unfold updateCompleted.
      apply wp_storeOp_faultless; [apply HL|]. simpl.
      eapply wp_mono.
      * apply (checkTripCompletion_stable False _ _ now tripId _
                 (logged_stable_check tripId e0 base rows)); [|intros []].
        apply logged_called; [exact HL|reflexivity|reflexivity].
      * simpl. intros u w2 [HL2 _]. apply IH. exact HL2.
      * auto.
    + apply wp_ret. apply IH. exact HL.
Qed.

(** X7. Without store failure, a record with a plate and coordinates is
    logged exactly once when the first open trip of its plate is started or
    is started by the record itself (speed above zero), with the trip id, the
    plate, the position and the speed of the record and the clock of the
    server, and it is not logged at all otherwise: exactly that row is
    appended to [trip_coordinates]. *)
Theorem sample_is_logged_once distance now vehicleData Lat Lng w :
  faultless w ->
  truthy (Plate vehicleData) = true ->
  Latitude vehicleData = Some Lat -> Longitude vehicleData = Some Lng ->
  let w' := exec (processVehicleData distance now vehicleData) w in
  let rows :=
    match openTripsOf (Plate vehicleData) (db w) with
    | [] => []
    | trip :: _ =>
        if isNone (actual_start_time trip) && negb (0 <? Speed vehicleData)%Z then []
        else [mkCoordinate (trip_id trip) (Plate vehicleData) Lat Lng
                           (Speed vehicleData) now]
    end in
  coordsOf (newEvents w w') = rows
  /\ trip_coordinates (db w') = trip_coordinates (db w) ++ rows.
Proof.
  intros Hf Hplate HLat HLng. cbv zeta.
  set (rows := match openTripsOf (Plate vehicleData) (db w) with
               | [] => []
               | trip :: _ =>
                   if isNone (actual_start_time trip) && negb (0 <? Speed vehicleData)%Z
                   then []
                   else [mkCoordinate (trip_id trip) (Plate vehicleData) Lat Lng
                                      (Speed vehicleData) now]
               end).
  set (base := trip_coordinates (db w)).
  assert (wp (processVehicleData distance now vehicleData)
             (fun _ => logged (events w) base rows) (fun _ _ => False) w) as Hwp.
  { assert (logged (events w) base [] w) as HL0.
    { split; [exact Hf|]. split; [exists []; rewrite app_nil_r; auto|].
      unfold base. rewrite app_nil_r. reflexivity. }
    assert (forall tripId w2,
              logged (events w) base [] w2 ->
              wp (processStartedTrip distance now vehicleData tripId Lat Lng)
                 (fun _ => logged (events w) base
                             [mkCoordinate tripId (Plate vehicleData) Lat Lng
                                           (Speed vehicleData) now])
                 (fun _ _ => False) w2) as Hrest.
    { intros tripId w2 HL2. unfold processStartedTrip.
      apply wp_bind. unfold insertCoordinate.
      apply wp_storeOp_faultless; [apply HL2|]. simpl.
      apply wp_bind. unfold selectIncomplete.
      apply wp_storeOp_faultless; [apply faultless_called; apply HL2|]. simpl.
      apply telemetryLoop_logged.
      apply logged_called; [|reflexivity|reflexivity].
      destruct HL2 as [Hf2 [[new [He Hc]] Hdb]].
      split; [apply faultless_called; exact Hf2|]. split.
      - eexists. split.
        + simpl. rewrite He, <- app_assoc. reflexivity.
        + rewrite coordsOf_app, Hc. reflexivity.
      - simpl. rewrite Hdb, app_nil_r. reflexivity. }
    unfold processVehicleData. apply wp_tryCatch.
    rewrite Hplate, HLat, HLng.
    apply wp_bind. unfold selectOpenTrips.
    apply wp_storeOp_faultless; [exact Hf|]. simpl.
    pose proof (logged_called (events w) base [] (SelectOpenTrips (Plate vehicleData))
                  (db w) w HL0 eq_refl eq_refl) as HL1.
    unfold rows.
    destruct (openTripsOf (Plate vehicleData) (db w)) as [|trip trips];
      [apply wp_ret; exact HL1|].
    apply wp_bind.
    destruct (actual_start_time trip) as [start|] eqn:Hstart; simpl.
    - apply wp_ret. eapply wp_mono; [apply Hrest; exact HL1|auto|intros e w' []].
    - destruct (0 <? Speed vehicleData)%Z; simpl.
      + apply wp_bind. unfold updateStartTime.
        apply wp_storeOp_faultless; [apply HL1|]. simpl.
        apply wp_ret. eapply wp_mono; [apply Hrest|auto|intros e w' []].
        apply logged_called; [exact HL1|reflexivity|reflexivity].
      + apply wp_ret. apply wp_ret. exact HL1. }
  apply wp_outcome in Hwp.
  destruct (outcome (processVehicleData distance now vehicleData) w) as [[]|e];
    [|contradiction].
  destruct Hwp as [_ [[new [He Hc]] Hdb]].
  split; [|exact Hdb]. rewrite (newEvents_app _ _ _ He). exact Hc.
Qed.

Lemma sample_is_logged_once_witness :
  let w := initialWorld (testTables (Some 0)) in
  let vehicleData := sampleAtStop testCustomer1 in
  faultless w
  /\ truthy (Plate vehicleData) = true
  /\ Latitude vehicleData = Some (latitude testCustomer1)
  /\ Longitude vehicleData = Some (longitude testCustomer1)
  /\ (let w' := exec (processVehicleData greatCircleKm 1000 vehicleData) w in
      let rows :=
        match openTripsOf (Plate vehicleData) (db w) with
        | [] => []
        | trip :: _ =>
            if isNone (actual_start_time trip) && negb (0 <? Speed vehicleData)%Z then []
            else [mkCoordinate (trip_id trip) (Plate vehicleData)
                               (latitude testCustomer1) (longitude testCustomer1)
                               (Speed vehicleData) 1000]
        end in
      coordsOf (newEvents w w') = rows
      /\ trip_coordinates (db w') = trip_coordinates (db w) ++ rows).
Proof.
  intros w vehicleData.
  assert (faultless w) as H1 by reflexivity.
  assert (truthy (Plate vehicleData) = true) as H2 by reflexivity.
  assert (Latitude vehicleData = Some (latitude testCustomer1)) as H3 by reflexivity.
  assert (Longitude vehicleData = Some (longitude testCustomer1)) as H4 by reflexivity.
  split; [exact H1|]. split; [exact H2|]. split; [exact H3|]. split; [exact H4|].
  exact (sample_is_logged_once greatCircleKm 1000 vehicleData _ _ w H1 H2 H3 H4).
Defined.


(** ** Trips whose stops are all completed *)

Lemma storeOp_faultless {A} c (f : Tables -> A * Tables) w :
  faults w = [] ->
  storeOp c f w
  = (Ret (fst (f (db w))), mkWorld (mem w) (snd (f (db w))) (events w ++ [Call c]) []).
Proof.
  intros Hf. unfold storeOp. rewrite Hf. destruct (f (db w)). reflexivity.
Qed.

Lemma allStopsCompleted_incompleteOf tripId t :
  forallb (fun c => c) (completedFlagsOf tripId t) = true -> incompleteOf tripId t = [].
Proof.
  unfold completedFlagsOf, incompleteOf.
  induction (assigned_customers t) as [|c l IH]; simpl; [reflexivity|].
  destruct (String.eqb (cust_trip_id c) tripId); simpl; [|exact IH].
  destruct (completed c); simpl; [exact IH|discriminate].
Qed.

Lemma first_open_started plate t trip trips :
  openTripsOf plate t = trip :: trips -> actual_start_time trip <> None ->
  exists trips', startedTripsOf plate t = trip :: trips'.
Proof.
  unfold startedTripsOf, openTripsOf. revert trip trips.
  induction (route_plans t) as [|r l IH]; simpl; intros trip trips Ho Hs; [discriminate|].
  destruct (String.eqb (vehicle_plate r) plate); simpl in *; [|eapply IH; eauto].
  destruct (isNone (actual_end_time r)); simpl in *.
  - inversion Ho; subst. destruct (actual_start_time trip); [|congruence].
    simpl. eauto.
  - rewrite ?andb_false_r. eapply IH; eauto.
Qed.

(** X8. A started trip whose stops are all completed already is not closed
    by telemetry: [processVehicleData] runs the completion check only after
    marking a stop itself, so it logs the position of the record and nothing
    more.  The long-stop handler runs the check in any case: the next long
    stop of the vehicle calls [complete_trip] for the trip. *)
Theorem finished_trip_is_closed_by_long_stop distance now vehicleData Lat Lng loc
    trip trips w :
  faultless w ->
  truthy (Plate vehicleData) = true ->
  Latitude vehicleData = Some Lat -> Longitude vehicleData = Some Lng ->
  openTripsOf (Plate vehicleData) (db w) = trip :: trips ->
  actual_start_time trip <> None ->
  allStopsCompleted (trip_id trip) (db w) ->
  newEvents w (exec (processVehicleData distance now vehicleData) w)
  = [Call (SelectOpenTrips (Plate vehicleData));
     Call (InsertCoordinate (mkCoordinate (trip_id trip) (Plate vehicleData) Lat Lng
                                          (Speed vehicleData) now));
     Call (SelectIncomplete (trip_id trip))]
  /\ newEvents w (exec (handleLongStop distance now (Plate vehicleData) loc) w)
     = [LongStop (Plate vehicleData) loc;
        Call (SelectStartedTrips (Plate vehicleData));
        Call (SelectIncomplete (trip_id trip));
        Call (SelectCompletedFlags (trip_id trip));
        Call (RpcCompleteTrip (trip_id trip))]
  /\ db (exec (handleLongStop distance now (Plate vehicleData) loc) w)
     = complete_trip (trip_id trip) now (db w).
Proof.
  intros Hf Hplate HLat HLng Hopen Hstart [Hsome Hall].
  destruct (first_open_started _ _ _ _ Hopen Hstart) as [trips' Hstarted].
  pose proof (allStopsCompleted_incompleteOf _ _ Hall) as Hnone.
  destruct (actual_start_time trip) as [start|] eqn:Estart; [|congruence].
  split; [|split].
  - apply newEvents_app. unfold exec, processVehicleData, tryCatch.
    rewrite Hplate, HLat, HLng. unfold bind at 1, selectOpenTrips.
    rewrite storeOp_faultless by exact Hf. simpl. rewrite Hopen, Estart. simpl.
    unfold bind at 1, ret at 1, processStartedTrip, bind at 1, insertCoordinate.
    rewrite storeOp_faultless by reflexivity. simpl.
    unfold bind, selectIncomplete. rewrite storeOp_faultless by reflexivity. simpl.
    change (incompleteOf (trip_id trip) _) with (incompleteOf (trip_id trip) (db w)).
    rewrite Hnone. simpl. rewrite <- !app_assoc. reflexivity.
  - apply newEvents_app. unfold exec, handleLongStop, bind at 1, emit. simpl.
    unfold bind at 1, selectStartedTrips. rewrite storeOp_faultless by exact Hf. simpl.
    rewrite Hstarted. unfold bind at 1, selectIncomplete.
    rewrite storeOp_faultless by reflexivity. simpl. rewrite Hnone. simpl.
    unfold bind at 1, ret at 1, checkTripCompletion, bind, selectCompletedFlags.
    rewrite storeOp_faultless by reflexivity. simpl.
    rewrite (proj2 (allStopsCompleted_test _ _) (conj Hsome Hall)).
    unfold rpcCompleteTrip. rewrite storeOp_faultless by reflexivity. simpl.
    rewrite <- !app_assoc. reflexivity.
  - unfold exec, handleLongStop, bind at 1, emit. simpl.
    unfold bind at 1, selectStartedTrips. rewrite storeOp_faultless by exact Hf. simpl.
    rewrite Hstarted. unfold bind at 1, selectIncomplete.
    rewrite storeOp_faultless by reflexivity. simpl. rewrite Hnone. simpl.
    unfold bind at 1, ret at 1, checkTripCompletion, bind, selectCompletedFlags.
    rewrite storeOp_faultless by reflexivity. simpl.
    rewrite (proj2 (allStopsCompleted_test _ _) (conj Hsome Hall)).
    unfold rpcCompleteTrip. rewrite storeOp_faultless by reflexivity. reflexivity.
Qed.

Lemma finished_trip_is_closed_by_long_stop_witness :
  let w := initialWorld visitedTables in
  let vehicleData := sampleAtStop testCustomer1 in
  let loc := mkLocation (latitude testCustomer1) (longitude testCustomer1) in
  let trip := testTrip (Some 0) in
  faultless w
  /\ truthy (Plate vehicleData) = true
  /\ Latitude vehicleData = Some (latitude testCustomer1)
  /\ Longitude vehicleData = Some (longitude testCustomer1)
  /\ openTripsOf (Plate vehicleData) (db w) = [trip]
  /\ actual_start_time trip <> None
  /\ allStopsCompleted (trip_id trip) (db w)
  /\ newEvents w (exec (processVehicleData greatCircleKm 1000 vehicleData) w)
     = [Call (SelectOpenTrips (Plate vehicleData));
        Call (InsertCoordinate
                (mkCoordinate (trip_id trip) (Plate vehicleData)
                              (latitude testCustomer1) (longitude testCustomer1)
                              (Speed vehicleData) 1000));
        Call (SelectIncomplete (trip_id trip))]
  /\ newEvents w (exec (handleLongStop greatCircleKm 1000 (Plate vehicleData) loc) w)
     = [LongStop (Plate vehicleData) loc;
        Call (SelectStartedTrips (Plate vehicleData));
        Call (SelectIncomplete (trip_id trip));
        Call (SelectCompletedFlags (trip_id trip));
        Call (RpcCompleteTrip (trip_id trip))]
  /\ db (exec (handleLongStop greatCircleKm 1000 (Plate vehicleData) loc) w)
     = complete_trip (trip_id trip) 1000 (db w).
Proof.
  intros w vehicleData loc trip.
  assert (faultless w) as H1 by reflexivity.
  assert (truthy (Plate vehicleData) = true) as H2 by reflexivity.
  assert (Latitude vehicleData = Some (latitude testCustomer1)) as H3 by reflexivity.
  assert (Longitude vehicleData = Some (longitude testCustomer1)) as H4 by reflexivity.
  assert (openTripsOf (Plate vehicleData) (db w) = [trip]) as H5 by reflexivity.
  assert (actual_start_time trip <> None) as H6 by discriminate.
  assert (allStopsCompleted (trip_id trip) (db w)) as H7
    by (split; [discriminate|reflexivity]).
  split; [exact H1|]. split; [exact H2|]. split; [exact H3|]. split; [exact H4|].
  split; [exact H5|]. split; [exact H6|]. split; [exact H7|].
  exact (finished_trip_is_closed_by_long_stop greatCircleKm 1000 vehicleData _ _ loc
           trip [] w H1 H2 H3 H4 H5 H6 H7).
Defined.

(** ** What a record does to the stops of its trip *)

Lemma occurrences_app p e1 e2 :
  occurrences p (e1 ++ e2) = (occurrences p e1 + occurrences p e2)%nat.
Proof. unfold occurrences. rewrite List.filter_app, length_app. reflexivity. Qed.

Lemma closing_called e0 tripId n c t w :
  closing e0 tripId n w -> isCompletionOf tripId (Call c) = false ->
  closing e0 tripId n (called c t w).
Proof.
  intros [Hf [new [He Hn]]] Hc. split; [apply faultless_called; exact Hf|].
  exists (new ++ [Call c]). split.
  - simpl. rewrite He, <- app_assoc. reflexivity.
  - rewrite occurrences_app, Hn. unfold occurrences.
    change (List.filter (isCompletionOf tripId) [Call c])
      with (if isCompletionOf tripId (Call c) then [Call c] else []).
    rewrite Hc. simpl. lia.
Qed.

(** [checkTripCompletion] without faults, in full. *)
Lemma checkTripCompletion_faultless now tripId w :
  faultless w ->
  checkTripCompletion now tripId w
  = (Ret tt,
     if (0 <? Z.of_nat (length (completedFlagsOf tripId (db w))))%Z
        && forallb (fun c => c) (completedFlagsOf tripId (db w))
     then called (RpcCompleteTrip tripId) (complete_trip tripId now (db w))
                 (called (SelectCompletedFlags tripId) (db w) w)
     else called (SelectCompletedFlags tripId) (db w) w).
Proof.
  intros Hf. unfold checkTripCompletion, bind, selectCompletedFlags.
  rewrite storeOp_faultless by exact Hf. simpl.
  unfold called. rewrite Hf. simpl.
  destruct ((0 <? Z.of_nat (length (completedFlagsOf tripId (db w))))%Z
            && forallb (fun c => c) (completedFlagsOf tripId (db w))); [|reflexivity].
  unfold rpcCompleteTrip. rewrite storeOp_faultless by reflexivity. reflexivity.
Qed.

Lemma incompleteOf_nil_flags tripId t :
  incompleteOf tripId t = [] -> forallb (fun c => c) (completedFlagsOf tripId t) = true.
Proof.
  unfold completedFlagsOf, incompleteOf.
  induction (assigned_customers t) as [|c l IH]; simpl; [reflexivity|].
  destruct (String.eqb (cust_trip_id c) tripId); simpl; [|exact IH].
  destruct (completed c); simpl; [exact IH|discriminate].
Qed.

(** Marking a stop takes the rows with its code out of the incomplete stops
    of the trip and leaves the others. *)
Lemma incompleteOf_setCompleted tripId code time t :
  incompleteOf tripId
    (mkTables (route_plans t) (map (setCompleted tripId code time) (assigned_customers t))
              (trip_coordinates t))
  = List.filter (fun c => negb (String.eqb (customer_code c) code)) (incompleteOf tripId t).
Proof.
  unfold incompleteOf, setCompleted. simpl.
  induction (assigned_customers t) as [|c l IH]; simpl; [reflexivity|].
  destruct (String.eqb (cust_trip_id c) tripId) eqn:Htrip;
    destruct (String.eqb (customer_code c) code) eqn:Hcode;
    destruct (completed c) eqn:Hdone;
    simpl; rewrite ?Htrip, ?Hcode, ?Hdone; simpl; rewrite ?Hcode; simpl;
    rewrite IH; reflexivity.
Qed.

Lemma filter_other_codes pre x rest :
  List.NoDup (map customer_code (pre ++ x :: rest)) ->
  List.filter (fun c => negb (String.eqb (customer_code c) (customer_code x)))
              (pre ++ x :: rest)
  = pre ++ rest.
Proof.
  intros Hnd.
  assert (forall l, (forall c, List.In c l -> customer_code c <> customer_code x) ->
            List.filter (fun c => negb (String.eqb (customer_code c) (customer_code x))) l
            = l) as Hkeep.
  { induction l as [|c l IH]; simpl; intros Hall; [reflexivity|].
    destruct (String.eqb (customer_code c) (customer_code x)) eqn:Heq.
    - apply String.eqb_eq in Heq. exfalso. apply (Hall c); auto.
    - simpl. rewrite IH; auto. }
  rewrite map_app in Hnd. simpl in Hnd.
  pose proof (NoDup_remove_2 _ _ _ Hnd) as Hnotin.
  rewrite List.filter_app. simpl. rewrite String.eqb_refl. simpl.
  rewrite !Hkeep; [reflexivity| |].
  - intros c Hin Heq. apply Hnotin. apply in_or_app. right.
    rewrite <- Heq. apply in_map. exact Hin.
  - intros c Hin Heq. apply Hnotin. apply in_or_app. left.
    rewrite <- Heq. apply in_map. exact Hin.
Qed.

Lemma flags_of_incomplete tripId x t :
  List.In x (incompleteOf tripId t) -> completedFlagsOf tripId t <> [].
Proof.
  unfold incompleteOf, completedFlagsOf. intros Hin Hnil.
  apply filter_In in Hin. destruct Hin as [Hin Hp].
  apply andb_true_iff in Hp. destruct Hp as [Htrip _].
  apply map_eq_nil in Hnil.
  assert (List.In x (List.filter (fun c => String.eqb (cust_trip_id c) tripId)
                                 (assigned_customers t))) as Hx
    by (apply filter_In; auto).
  rewrite Hnil in Hx. contradiction.
Qed.

Section Closing.

Variable distance : Point -> Point -> R.

(** The completion loop of [processVehicleData], without faults, on rows with
    pairwise distinct codes: the stops within 1 km are marked, those beyond
    stay incomplete, and [complete_trip] is called once, after the last
    mark, exactly when a stop was marked and none stays incomplete. *)
Lemma telemetryLoop_closes now tripId (Lat Lng : R) e0 rest : forall pre w,
  closing e0 tripId 0 w ->
  List.NoDup (map customer_code (pre ++ rest)) ->
  incompleteOf tripId (db w) = pre ++ rest ->
  wp (forEach rest (fun customer =>
        if Rle_dec (distance (Lng, Lat) (longitude customer, latitude customer)) 1
        then updateCompleted tripId (customer_code customer) now ;;
             checkTripCompletion now tripId
        else ret tt))
     (fun _ w' =>
        incompleteOf tripId (db w') = pre ++ farStops distance (Lng, Lat) rest
        /\ closing e0 tripId
             (if negb (isEmpty (nearStops distance (Lng, Lat) rest))
                 && isEmpty (pre ++ farStops distance (Lng, Lat) rest)
              then 1 else 0)%nat w')
     (fun _ _ => False) w.
Proof.
  induction rest as [|x rest IH]; intros pre w HC Hnd Hinc.
  - apply wp_ret. simpl. split; [exact Hinc|exact HC].
  - simpl forEach. apply wp_bind.
    unfold nearStops, farStops. cbn [List.filter].
    fold (nearStops distance (Lng, Lat) rest). fold (farStops distance (Lng, Lat) rest).
    pose proof (eq_refl (withinKm 1 (distance (Lng, Lat) (longitude x, latitude x))))
      as Hw.
    unfold withinKm at 2 in Hw.
    destruct (Rle_dec (distance (Lng, Lat) (longitude x, latitude x)) 1) as [Hnear|Hfar];
      rewrite Hw; cbn [negb].
    + apply wp_bind. unfold updateCompleted.
      apply wp_storeOp_faultless; [apply HC|]. simpl.
      match goal with |- wp _ _ _ ?w1' => set (w1 := w1') end.
      assert (closing e0 tripId 0 w1) as HC1 by (apply closing_called; auto).
      assert (incompleteOf tripId (db w1) = pre ++ rest) as Hinc1.
      { unfold w1. simpl. rewrite incompleteOf_setCompleted, Hinc.
        apply filter_other_codes. exact Hnd. }
      unfold wp at 1. rewrite (checkTripCompletion_faultless now tripId w1 (proj1 HC1)).
      assert (completedFlagsOf tripId (db w1) <> []) as Hflags.
      { intros Hnil.
        pose proof (completedFlagsOf_setCompleted_length tripId tripId (customer_code x)
                      now (db w)) as Hlen.
        change (mkTables (route_plans (db w))
                  (map (setCompleted tripId (customer_code x) now)
                       (assigned_customers (db w)))
                  (trip_coordinates (db w))) with (db w1) in Hlen.
        rewrite Hnil in Hlen. simpl in Hlen. symmetry in Hlen.
        apply length_zero_iff_nil in Hlen.
        apply (flags_of_incomplete tripId x (db w)); [|exact Hlen].
        rewrite Hinc. apply in_or_app. right. left. reflexivity. }
      assert ((0 <? Z.of_nat (length (completedFlagsOf tripId (db w1))))%Z = true) as Hpos.
      { apply Z.ltb_lt. destruct (completedFlagsOf tripId (db w1)); [congruence|].
        simpl. lia. }
      rewrite Hpos, andb_true_l.
      destruct (forallb (fun c => c) (completedFlagsOf tripId (db w1))) eqn:Hall.
      * pose proof (allStopsCompleted_incompleteOf _ _ Hall) as Hnone.
        rewrite Hinc1 in Hnone. apply app_eq_nil in Hnone. destruct Hnone as [-> ->].
        apply wp_ret. split.
        -- transitivity (incompleteOf tripId (db w1)); [reflexivity|].
           rewrite Hinc1. reflexivity.
        -- destruct (closing_called e0 tripId 0 (SelectCompletedFlags tripId) (db w1) w1
                       HC1 eq_refl) as [Hf2 [new [He Hn]]].
           split; [apply faultless_called; exact Hf2|].
           exists (new ++ [Call (RpcCompleteTrip tripId)]). split.
           ++ change (events (called (RpcCompleteTrip tripId)
                                (complete_trip tripId now (db w1))
                                (called (SelectCompletedFlags tripId) (db w1) w1)))
                with (events (called (SelectCompletedFlags tripId) (db w1) w1)
                      ++ [Call (RpcCompleteTrip tripId)]).
              rewrite He, <- app_assoc. reflexivity.
           ++ rewrite occurrences_app, Hn. unfold occurrences. simpl.
              rewrite String.eqb_refl. reflexivity.
      * eapply wp_mono.
        -- apply (IH pre (called (SelectCompletedFlags tripId) (db w1) w1)).
           ++ apply closing_called; [exact HC1|reflexivity].
           ++ rewrite map_app in *. simpl in Hnd.
              apply NoDup_remove_1 with (a := customer_code x). exact Hnd.
           ++ exact Hinc1.
        -- simpl. intros u w' [Hinc' HC']. split; [exact Hinc'|].
           destruct (isEmpty (pre ++ farStops distance (Lng, Lat) rest)) eqn:Hempty;
             [|rewrite !andb_false_r in HC'; exact HC'].
           assert (nearStops distance (Lng, Lat) rest <> []) as Hsome.
           { intros Hnil.
             destruct (pre ++ farStops distance (Lng, Lat) rest) eqn:Hpf; [|discriminate].
             apply app_eq_nil in Hpf. destruct Hpf as [-> Hfars].
             assert (rest = []) as ->.
             { destruct rest as [|y rest']; [reflexivity|]. exfalso.
               unfold nearStops, farStops in *. simpl in Hnil, Hfars.
               destruct (withinKm 1 (distance (Lng, Lat) (longitude y, latitude y)));
                 simpl in *; discriminate. }
             simpl in Hinc1.
             rewrite (incompleteOf_nil_flags tripId (db w1) Hinc1) in Hall.
             discriminate. }
           destruct (nearStops distance (Lng, Lat) rest); [congruence|].
           simpl in HC'. exact HC'.
        -- auto.
    + apply wp_ret. eapply wp_mono.
      * apply (IH (pre ++ [x]) w HC).
        -- rewrite <- app_assoc. exact Hnd.
        -- rewrite <- app_assoc. exact Hinc.
      * simpl. intros u w' [Hinc' HC'].
        fold (farStops distance (Lng, Lat) rest) in *.
        fold (nearStops distance (Lng, Lat) rest) in *.
        rewrite <- app_assoc in Hinc', HC'. simpl in Hinc', HC'.
        split; [exact Hinc'|].
        assert (isEmpty (pre ++ x :: farStops distance (Lng, Lat) rest) = false) as Hne
          by (destruct pre; reflexivity).
        rewrite Hne in *. rewrite !andb_false_r in *. exact HC'.
      * auto.
Qed.

End Closing.

Lemma closing_start e0 tripId w : faultless w -> events w = e0 -> closing e0 tripId 0 w.
Proof.
  intros Hf He. split; [exact Hf|]. exists []. rewrite app_nil_r. split; auto.
Qed.

Lemma closing_newEvents w tripId n w' :
  closing (events w) tripId n w' ->
  occurrences (isCompletionOf tripId) (newEvents w w') = n.
Proof. intros [_ [new [He Hn]]]. rewrite (newEvents_app _ _ _ He). exact Hn. Qed.

(** [processVehicleData] on the first open trip of the record, without
    store failure: what it leaves incomplete and how often it calls
    [complete_trip]. *)
Lemma processVehicleData_closes distance now vehicleData Lat Lng trip trips w :
  faultless w -> wellFormed (db w) ->
  truthy (Plate vehicleData) = true ->
  Latitude vehicleData = Some Lat -> Longitude vehicleData = Some Lng ->
  openTripsOf (Plate vehicleData) (db w) = trip :: trips ->
  actual_start_time trip <> None \/ (0 < Speed vehicleData)%Z ->
  wp (processVehicleData distance now vehicleData)
     (fun _ w' =>
        incompleteOf (trip_id trip) (db w')
        = farStops distance (Lng, Lat) (incompleteOf (trip_id trip) (db w))
        /\ closing (events w) (trip_id trip)
             (if negb (isEmpty (nearStops distance (Lng, Lat)
                                          (incompleteOf (trip_id trip) (db w))))
                 && isEmpty (farStops distance (Lng, Lat)
                                      (incompleteOf (trip_id trip) (db w)))
              then 1%nat else 0%nat) w')
     (fun _ _ => False) w.
Proof.
  intros Hf Hwf Hplate HLat HLng Hopen Hstart.
  set (tid := trip_id trip). set (pending := incompleteOf tid (db w)).
  set (n := if negb (isEmpty (nearStops distance (Lng, Lat) pending))
               && isEmpty (farStops distance (Lng, Lat) pending)
            then 1%nat else 0%nat).
  assert (forall w2, closing (events w) tid 0 w2 ->
          incompleteOf tid (db w2) = pending ->
          wp (processStartedTrip distance now vehicleData tid Lat Lng)
             (fun _ w' =>
                incompleteOf tid (db w') = farStops distance (Lng, Lat) pending
                /\ closing (events w) tid n w')
             (fun _ _ => False) w2) as Hrest.
{ intros w2 HC2 Hinc2. unfold processStartedTrip.
  apply wp_bind. unfold insertCoordinate.
  apply wp_storeOp_faultless; [apply HC2|]. cbn [fst snd].
  match goal with |- wp _ _ _ ?w3' => set (w3 := w3') end.
  assert (closing (events w) tid 0 w3) as HC3
    by (apply closing_called; [exact HC2|reflexivity]).
  apply wp_bind. unfold selectIncomplete.
  apply wp_storeOp_faultless; [apply HC3|]. cbn [fst snd].
  change (incompleteOf tid (db w3)) with (incompleteOf tid (db w2)).
  rewrite Hinc2.
  apply (telemetryLoop_closes distance now tid Lat Lng (events w) pending []).
  - apply closing_called; [exact HC3|reflexivity].
  - apply (pendingRows_incompleteOf tid (db w) Hwf).
  - exact Hinc2. }
unfold processVehicleData. apply wp_tryCatch. rewrite Hplate, HLat, HLng.
eapply wp_mono with (E := fun _ _ => False);
  [|intros a w' H; exact H|intros e w' []].
apply wp_bind. unfold selectOpenTrips.
apply wp_storeOp_faultless; [exact Hf|]. cbn [fst snd]. rewrite Hopen.
match goal with |- wp _ _ _ ?w1' => set (w1 := w1') end.
assert (closing (events w) tid 0 w1) as HC1.
{ apply closing_called; [|reflexivity]. apply closing_start; auto. }
apply wp_bind. fold tid.
destruct (isNone (actual_start_time trip) && (0 <? Speed vehicleData)%Z) eqn:Hc.
- apply wp_bind. unfold updateStartTime.
  apply wp_storeOp_faultless; [apply HC1|]. cbn [fst snd].
  apply wp_ret. apply Hrest.
  + apply closing_called; [exact HC1|reflexivity].
  + reflexivity.
- apply wp_ret. destruct (actual_start_time trip) as [t|] eqn:Hs.
  + apply Hrest; [exact HC1|reflexivity].
  + exfalso. destruct Hstart as [Hs'|Hspeed]; [congruence|].
    apply Z.ltb_lt in Hspeed. rewrite Hspeed in Hc. discriminate.
Qed.

(** X20. Telemetry closes a trip with its last stop.  Without store failure,
    on tables where no two stops of a trip share a code, a record with a
    plate and coordinates whose trip is started (or starts with this record)
    leaves incomplete exactly the stops of the trip that were incomplete and
    are more than 1 km from the position, and [processVehicleData] calls
    [complete_trip] for the trip exactly once if the record marks a stop and
    leaves none incomplete, and not at all otherwise: several stops marked by
    one record do not close the trip twice, and a record that marks nothing
    never closes it. *)
Theorem telemetry_closes_trip_with_last_stop distance now vehicleData Lat Lng
    trip trips w :
  faultless w -> wellFormed (db w) ->
  truthy (Plate vehicleData) = true ->
  Latitude vehicleData = Some Lat -> Longitude vehicleData = Some Lng ->
  openTripsOf (Plate vehicleData) (db w) = trip :: trips ->
  actual_start_time trip <> None \/ (0 < Speed vehicleData)%Z ->
  let w' := exec (processVehicleData distance now vehicleData) w in
  let pending := incompleteOf (trip_id trip) (db w) in
  incompleteOf (trip_id trip) (db w') = farStops distance (Lng, Lat) pending
  /\ occurrences (isCompletionOf (trip_id trip)) (newEvents w w')
     = if negb (isEmpty (nearStops distance (Lng, Lat) pending))
          && isEmpty (farStops distance (Lng, Lat) pending)
       then 1%nat else 0%nat.
Proof.
  intros Hf Hwf Hplate HLat HLng Hopen Hstart. cbv zeta.
  pose proof (processVehicleData_closes distance now vehicleData Lat Lng trip trips w
                Hf Hwf Hplate HLat HLng Hopen Hstart) as Hwp.
  apply wp_outcome in Hwp.
  destruct (outcome (processVehicleData distance now vehicleData) w); [|contradiction].
  destruct Hwp as [Hinc HC]. split; [exact Hinc|apply closing_newEvents; exact HC].
Qed.

Lemma telemetry_closes_trip_with_last_stop_witness :
  let w := initialWorld (testTables (Some 0)) in
  let vehicleData := testGPSData 30 (-26.1440) 28.0436 LocTimeMissing in
  let trip := testTrip (Some 0) in
  let pending := incompleteOf (trip_id trip) (db w) in
  let w' := exec (processVehicleData greatCircleKm 1000 vehicleData) w in
  faultless w /\ wellFormed (db w)
  /\ truthy (Plate vehicleData) = true
  /\ openTripsOf (Plate vehicleData) (db w) = [trip]
  /\ (actual_start_time trip <> None \/ (0 < Speed vehicleData)%Z)
  /\ incompleteOf (trip_id trip) (db w')
     = farStops greatCircleKm (28.0436, -26.1440)%R pending
  /\ occurrences (isCompletionOf (trip_id trip)) (newEvents w w')
     = if negb (isEmpty (nearStops greatCircleKm (28.0436, -26.1440)%R pending))
          && isEmpty (farStops greatCircleKm (28.0436, -26.1440)%R pending)
       then 1%nat else 0%nat.
Proof.
  intros w vehicleData trip pending w'.
  assert (faultless w) as H1 by reflexivity.
  assert (wellFormed (db w)) as H2 by apply testTables_wellFormed.
  assert (truthy (Plate vehicleData) = true) as H3 by reflexivity.
  assert (openTripsOf (Plate vehicleData) (db w) = [trip]) as H4 by reflexivity.
  assert (actual_start_time trip <> None \/ (0 < Speed vehicleData)%Z) as H5
    by (left; discriminate).
  split; [exact H1|]. split; [exact H2|]. split; [exact H3|]. split; [exact H4|].
  split; [exact H5|].
  exact (telemetry_closes_trip_with_last_stop greatCircleKm 1000 vehicleData _ _
           trip [] w H1 H2 H3 eq_refl eq_refl H4 H5).
Defined.

Section LongStopClosing.

Variable distance : Point -> Point -> R.

(** The loop of [handleLongStop], without faults, on rows with pairwise
    distinct codes: the stops within 1 km are marked, those beyond stay
    incomplete, the number of stops of the trip is kept and [complete_trip]
    is not called. *)
Lemma longStopLoop_closing now tripId loc e0 n rest : forall pre w,
  closing e0 tripId 0 w ->
  List.NoDup (map customer_code (pre ++ rest)) ->
  incompleteOf tripId (db w) = pre ++ rest ->
  length (completedFlagsOf tripId (db w)) = n ->
  wp (forEach rest (fun customer =>
        if Rle_dec (distance (lng loc, lat loc) (longitude customer, latitude customer)) 1
        then updateCompleted tripId (customer_code customer) now
        else ret tt))
     (fun _ w' =>
        incompleteOf tripId (db w')
        = pre ++ farStops distance (lng loc, lat loc) rest
        /\ closing e0 tripId 0 w'
        /\ length (completedFlagsOf tripId (db w')) = n)
     (fun _ _ => False) w.
Proof.
  induction rest as [|x rest IH]; intros pre w HC Hnd Hinc Hlen.
  - apply wp_ret. simpl. auto.
  - simpl forEach. apply wp_bind.
    unfold farStops. cbn [List.filter]. fold (farStops distance (lng loc, lat loc) rest).
    pose proof (eq_refl (withinKm 1 (distance (lng loc, lat loc)
                                              (longitude x, latitude x)))) as Hw.
    unfold withinKm at 2 in Hw.
    destruct (Rle_dec (distance (lng loc, lat loc) (longitude x, latitude x)) 1)
      as [Hnear|Hfar]; rewrite Hw; cbn [negb].
    + unfold updateCompleted. apply wp_storeOp_faultless; [apply HC|]. cbn [fst snd].
      match goal with |- wp _ _ _ ?w1' => set (w1 := w1') end.
      apply (IH pre w1).
      * apply closing_called; [exact HC|reflexivity].
      * rewrite map_app in *. simpl in Hnd.
        apply NoDup_remove_1 with (a := customer_code x). exact Hnd.
      * unfold w1. simpl. rewrite incompleteOf_setCompleted, Hinc.
        apply filter_other_codes. exact Hnd.
      * rewrite <- Hlen.
        apply (completedFlagsOf_setCompleted_length tripId tripId (customer_code x)
                 now (db w)).
    + apply wp_ret. eapply wp_mono.
      * apply (IH (pre ++ [x]) w HC).
        -- rewrite <- app_assoc. exact Hnd.
        -- rewrite <- app_assoc. exact Hinc.
        -- exact Hlen.
      * simpl. intros u w' H. rewrite <- app_assoc in H. exact H.
      * auto.
Qed.

End LongStopClosing.

(** [handleLongStop] on the first started trip of the plate, without store
    failure: what it leaves incomplete and how often it calls
    [complete_trip]. *)
Lemma handleLongStop_closes distance now plate loc trip trips w :
  faultless w -> wellFormed (db w) ->
  startedTripsOf plate (db w) = trip :: trips ->
  wp (handleLongStop distance now plate loc)
     (fun _ w' =>
        incompleteOf (trip_id trip) (db w')
        = farStops distance (lng loc, lat loc) (incompleteOf (trip_id trip) (db w))
        /\ closing (events w) (trip_id trip)
             (if negb (isEmpty (completedFlagsOf (trip_id trip) (db w)))
                 && isEmpty (farStops distance (lng loc, lat loc)
                                      (incompleteOf (trip_id trip) (db w)))
              then 1%nat else 0%nat) w')
     (fun _ _ => False) w.
Proof.
  intros Hf Hwf Hstarted.
  set (tid := trip_id trip). set (pending := incompleteOf tid (db w)).
  set (far := farStops distance (lng loc, lat loc) pending).
  set (n := if negb (isEmpty (completedFlagsOf tid (db w))) && isEmpty far
            then 1%nat else 0%nat).
  unfold handleLongStop. apply wp_bind, wp_emit.
match goal with |- wp _ _ _ ?w1' => set (w1 := w1') end.
assert (closing (events w) tid 0 w1) as HC1.
{ split; [exact Hf|]. exists [LongStop plate loc]. split; reflexivity. }
apply wp_bind. unfold selectStartedTrips.
apply wp_storeOp_faultless; [apply HC1|]. cbn [fst snd].
change (startedTripsOf plate (db w1)) with (startedTripsOf plate (db w)).
rewrite Hstarted. fold tid.
match goal with |- wp _ _ _ ?w2' => set (w2 := w2') end.
assert (closing (events w) tid 0 w2) as HC2
  by (apply closing_called; [exact HC1|reflexivity]).
apply wp_bind. unfold selectIncomplete.
apply wp_storeOp_faultless; [apply HC2|]. cbn [fst snd].
change (incompleteOf tid (db w2)) with pending.
match goal with |- wp _ _ _ ?w3' => set (w3 := w3') end.
apply wp_bind. eapply wp_mono.
- apply (longStopLoop_closing distance now tid loc (events w)
           (length (completedFlagsOf tid (db w))) pending [] w3).
  + apply closing_called; [exact HC2|reflexivity].
  + apply (pendingRows_incompleteOf tid (db w) Hwf).
  + reflexivity.
  + reflexivity.
- cbn beta. intros u w4 [Hinc4 [HC4 Hlen4]]. simpl app in Hinc4. fold far in Hinc4.
  unfold wp. rewrite (checkTripCompletion_faultless now tid w4 (proj1 HC4)).
  assert ((0 <? Z.of_nat (length (completedFlagsOf tid (db w4))))%Z
          = negb (isEmpty (completedFlagsOf tid (db w)))) as Hpos.
  { rewrite Hlen4. destruct (completedFlagsOf tid (db w)); reflexivity. }
  assert (forallb (fun c => c) (completedFlagsOf tid (db w4)) = isEmpty far) as Hall.
  { destruct far as [|y far'] eqn:Hfar.
    - apply incompleteOf_nil_flags. exact Hinc4.
    - destruct (forallb (fun c => c) (completedFlagsOf tid (db w4))) eqn:Hb;
        [|reflexivity].
      apply allStopsCompleted_incompleteOf in Hb. rewrite Hinc4 in Hb.
      discriminate. }
  rewrite Hpos, Hall. fold n.
  pose proof (closing_called (events w) tid 0 (SelectCompletedFlags tid) (db w4) w4
                HC4 eq_refl) as HC5.
  destruct (negb (isEmpty (completedFlagsOf tid (db w))) && isEmpty far) eqn:Hc.
  + split.
    * transitivity (incompleteOf tid (db w4)); [reflexivity|exact Hinc4].
    * destruct HC5 as [Hf5 [new [He Hn]]].
      split; [apply faultless_called; exact Hf5|].
      exists (new ++ [Call (RpcCompleteTrip tid)]). split.
      -- change (events (called (RpcCompleteTrip tid) (complete_trip tid now (db w4))
                           (called (SelectCompletedFlags tid) (db w4) w4)))
           with (events (called (SelectCompletedFlags tid) (db w4) w4)
                 ++ [Call (RpcCompleteTrip tid)]).
         rewrite He, <- app_assoc. reflexivity.
      -- rewrite occurrences_app, Hn. unfold occurrences, n. simpl.
         rewrite String.eqb_refl. reflexivity.
  + split; [exact Hinc4|exact HC5].
- auto.
Qed.

(** X21. A long stop closes a trip that has no stop left.  Without store
    failure, on tables where no two stops of a trip share a code, a long
    stop of a vehicle with a started trip leaves incomplete exactly the
    stops of the trip that were incomplete and are more than 1 km from the
    place of the stop, and [handleLongStop] calls [complete_trip] for the
    trip exactly once if the trip has a stop and none is left incomplete,
    whether or not this stop marked one, and not at all otherwise. *)
Theorem long_stop_closes_trip_without_far_stops distance now plate loc trip trips w :
  faultless w -> wellFormed (db w) ->
  startedTripsOf plate (db w) = trip :: trips ->
  let w' := exec (handleLongStop distance now plate loc) w in
  let pending := incompleteOf (trip_id trip) (db w) in
  incompleteOf (trip_id trip) (db w') = farStops distance (lng loc, lat loc) pending
  /\ occurrences (isCompletionOf (trip_id trip)) (newEvents w w')
     = if negb (isEmpty (completedFlagsOf (trip_id trip) (db w)))
          && isEmpty (farStops distance (lng loc, lat loc) pending)
       then 1%nat else 0%nat.
Proof.
  intros Hf Hwf Hstarted. cbv zeta.
  pose proof (handleLongStop_closes distance now plate loc trip trips w Hf Hwf Hstarted)
    as Hwp.
  apply wp_outcome in Hwp.
  destruct (outcome (handleLongStop distance now plate loc) w); [|contradiction].
  destruct Hwp as [Hinc HC]. split; [exact Hinc|apply closing_newEvents; exact HC].
Qed.

Lemma long_stop_closes_trip_without_far_stops_witness :
  let w := initialWorld (testTables (Some 0)) in
  let loc := mkLocation (-26.1440) 28.0436 in
  let trip := testTrip (Some 0) in
  let pending := incompleteOf (trip_id trip) (db w) in
  let w' := exec (handleLongStop greatCircleKm 1000 "BH47JSGP" loc) w in
  faultless w /\ wellFormed (db w)
  /\ startedTripsOf "BH47JSGP" (db w) = [trip]
  /\ incompleteOf (trip_id trip) (db w')
     = farStops greatCircleKm (lng loc, lat loc) pending
  /\ occurrences (isCompletionOf (trip_id trip)) (newEvents w w')
     = if negb (isEmpty (completedFlagsOf (trip_id trip) (db w)))
          && isEmpty (farStops greatCircleKm (lng loc, lat loc) pending)
       then 1%nat else 0%nat.
Proof.
  intros w loc trip pending w'.
  assert (faultless w) as H1 by reflexivity.
  assert (wellFormed (db w)) as H2 by apply testTables_wellFormed.
  assert (startedTripsOf "BH47JSGP" (db w) = [trip]) as H3 by reflexivity.
  split; [exact H1|]. split; [exact H2|]. split; [exact H3|].
  exact (long_stop_closes_trip_without_far_stops greatCircleKm 1000 "BH47JSGP" loc
           trip [] w H1 H2 H3).
Defined.

(** ** Startup *)

(** X9. [ws.on('open')] never fails and always initialises the
    subscriptions.  When the startup query throws, the error is logged and
    the registry is left as it was: no trip is resumed.  The tables, the
    cache and the stop intervals are not touched in either case. *)
Theorem startup_survives_store_failure w :
  let w' := exec onOpen w in
  outcome onOpen w = Ret tt
  /\ subscriptionsInitialized (mem w') = true
  /\ db w' = db w
  /\ vehicleDataCache (mem w') = vehicleDataCache (mem w)
  /\ vehicleStops (mem w') = vehicleStops (mem w)
  /\ (head (faults w) = Some true ->
      activeTrips (mem w') = activeTrips (mem w)
      /\ newEvents w w' = [Failed SelectActiveTrips (mem w); Console ErrLoadingActiveTrips]).
Proof.
  unfold outcome, exec. rewrite onOpen_exec. simpl.
  destruct (faults w) as [|[|] rest]; simpl;
    (split; [reflexivity|]); (split; [reflexivity|]); (split; [reflexivity|]);
    (split; [reflexivity|]); (split; [reflexivity|]); try discriminate.
  intros _. split; [reflexivity|]. apply newEvents_app. reflexivity.
Qed.

Lemma reconciled_lookup trips : forall reg tripId,
  reconciled trips reg !! tripId
  = match reg !! tripId with
    | Some entry => Some entry
    | None =>
        option_map (fun r => mkMonitored (vehicle_plate r))
                   (find (fun r => String.eqb (trip_id r) tripId) trips)
    end.
Proof.
  induction trips as [|r rest IH]; intros reg tripId.
  - simpl. destruct (reg !! tripId); reflexivity.
  - change (reconciled (r :: rest) reg)
      with (reconciled rest (startTripMonitoring (trip_id r) (vehicle_plate r) reg)).
    rewrite IH. unfold startTripMonitoring. simpl.
    destruct (String.eqb (trip_id r) tripId) eqn:Heq.
    + apply String.eqb_eq in Heq. subst tripId.
      destruct (reg !! trip_id r) as [entry|] eqn:Hreg.
      * rewrite Hreg. reflexivity.
      * rewrite lookup_insert_eq. reflexivity.
    + apply String.eqb_neq in Heq.
      destruct (reg !! trip_id r) as [entry|] eqn:Hreg; [reflexivity|].
      rewrite lookup_insert_ne by exact Heq. reflexivity.
Qed.

(** X10. Startup reconciliation, when its query returns: a trip id is in the
    registry afterwards exactly when it was there before or the store has a
    started, unended trip with this id; an entry that was there is kept as it
    was, and a new entry carries the plate of the first such row of
    [route_plans]. *)
Theorem startup_registers_active_trips w :
  head (faults w) <> Some true ->
  forall tripId,
    activeTrips (mem (exec onOpen w)) !! tripId
    = match activeTrips (mem w) !! tripId with
      | Some entry => Some entry
      | None =>
          option_map (fun r => mkMonitored (vehicle_plate r))
                     (find (fun r => String.eqb (trip_id r) tripId) (activeTripsOf (db w)))
      end.
Proof.
  intros Hok tripId. unfold exec. rewrite onOpen_exec. simpl.
  destruct (faults w) as [|[|] rest]; simpl in *; try congruence; apply reconciled_lookup.
Qed.

Lemma startup_registers_active_trips_witness :
  let w := initialWorld (testTables (Some 0)) in
  head (faults w) <> Some true
  /\ forall tripId,
       activeTrips (mem (exec onOpen w)) !! tripId
       = match activeTrips (mem w) !! tripId with
         | Some entry => Some entry
         | None =>
             option_map (fun r => mkMonitored (vehicle_plate r))
                        (find (fun r => String.eqb (trip_id r) tripId)
                              (activeTripsOf (db w)))
         end.
Proof.
  intros w.
  assert (head (faults w) <> Some true) as H by discriminate.
  split; [exact H|].
  exact (startup_registers_active_trips w H).
Defined.

(** ** Which trip a record is for *)

Lemma issues_stable site w0 : stable False site (issues site w0) (issues site w0).
Proof. apply (stableRun_stable _ _ _ _ _ (issues_stableRun site (fun _ => True) w0)). Qed.

Lemma processVehicleData_first_trip distance now vehicleData w :
  wp (processVehicleData distance now vehicleData)
     (fun _ w' =>
        match openTripsOf (Plate vehicleData) (db w) with
        | [] => issues (fun c => c = SelectOpenTrips (Plate vehicleData)) w w'
        | trip :: _ => issues (firstTripSite now vehicleData (trip_id trip)) w w'
        end)
     (fun _ w' =>
        match openTripsOf (Plate vehicleData) (db w) with
        | [] => issues (fun c => c = SelectOpenTrips (Plate vehicleData)) w w'
        | trip :: _ => issues (firstTripSite now vehicleData (trip_id trip)) w w'
        end) w.
Proof.
  set (site := match openTripsOf (Plate vehicleData) (db w) with
               | [] => fun c => c = SelectOpenTrips (Plate vehicleData)
               | trip :: _ => firstTripSite now vehicleData (trip_id trip)
               end).
  assert (wp (processVehicleData distance now vehicleData)
             (fun _ => issues site w) (fun _ => issues site w) w) as Hwp.
  { pose proof (issues_stable site w) as HS. pose proof (issues_refl site w) as HI.
    unfold processVehicleData. apply wp_tryCatch.
    eapply wp_mono with (Q := fun _ => issues site w) (E := fun _ => issues site w).
    2: { auto. }
    2: { intros e w' HX. apply wp_bind. unfold consoleError. apply wp_emit.
         apply wp_throw. apply (stable_console _ _ _ _ HS). exact HX. }
    destruct (truthy (Plate vehicleData)); [|apply wp_ret; exact HI].
    destruct (Latitude vehicleData) as [Lat|] eqn:HLat; [|apply wp_ret; exact HI].
    destruct (Longitude vehicleData) as [Lng|] eqn:HLng; [|apply wp_ret; exact HI].
    apply wp_bind. unfold selectOpenTrips.
    apply (wp_storeOp_stable False _ _ _ HS);
      [exact HI| |constructor|simpl; intros HI1].
    { unfold site. destruct (openTripsOf (Plate vehicleData) (db w)); reflexivity. }
    unfold site in *. clear site.
    destruct (openTripsOf (Plate vehicleData) (db w)) as [|trip trips] eqn:Htrips.
    { apply wp_ret. exact HI1. }
    destruct (openTripsOf_head _ _ _ _ Htrips) as [Hin [Hplate Hend]].
    apply wp_bind.
    assert (stable False (startedTripSite now vehicleData (trip_id trip))
                   (issues (firstTripSite now vehicleData (trip_id trip)) w)
                   (issues (firstTripSite now vehicleData (trip_id trip)) w)) as HS'.
    { eapply stable_weaken; [|exact HS]. intros []; simpl; auto; contradiction. }
    destruct (isNone (actual_start_time trip) && (0 <? Speed vehicleData)%Z) eqn:Hstart.
    - apply andb_true_iff in Hstart. destruct Hstart as [Hnone Hspeed].
      apply wp_bind. unfold updateStartTime.
      apply (wp_storeOp_stable False _ _ _ HS);
        [exact HI1|simpl; auto| |simpl; intros HI2].
      { simpl. constructor. exists trip. repeat split; auto.
        destruct (actual_start_time trip); [discriminate Hnone|reflexivity]. }
      apply wp_ret.
      apply (processStartedTrip_stable distance False _ _ now vehicleData (trip_id trip)
               Lat Lng _ HLat HLng HS' HI2); [|intros []].
      simpl. exists (setStart (trip_id trip) now trip). split.
      + apply in_map. exact Hin.
      + unfold setStart. rewrite String.eqb_refl. simpl.
        repeat split; try discriminate; auto.
    - apply wp_ret.
      destruct (actual_start_time trip) as [s|] eqn:Hs; [|apply wp_ret; exact HI1].
      apply (processStartedTrip_stable distance False _ _ now vehicleData (trip_id trip)
               Lat Lng _ HLat HLng HS' HI1); [|intros []].
      simpl. exists trip. rewrite Hs. repeat split; try discriminate; auto. }
  eapply wp_mono; [exact Hwp| |]; unfold site;
    destruct (openTripsOf (Plate vehicleData) (db w)); auto.
Qed.

Lemma handleLongStop_first_trip distance now plate loc w :
  wp (handleLongStop distance now plate loc)
     (fun _ w' =>
        match startedTripsOf plate (db w) with
        | [] => issues (fun c => c = SelectStartedTrips plate) w w'
        | trip :: _ => issues (longStopTripSite now plate (trip_id trip)) w w'
        end)
     (fun _ w' =>
        match startedTripsOf plate (db w) with
        | [] => issues (fun c => c = SelectStartedTrips plate) w w'
        | trip :: _ => issues (longStopTripSite now plate (trip_id trip)) w w'
        end) w.
Proof.
  set (site := match startedTripsOf plate (db w) with
               | [] => fun c => c = SelectStartedTrips plate
               | trip :: _ => longStopTripSite now plate (trip_id trip)
               end).
  assert (wp (handleLongStop distance now plate loc)
             (fun _ => issues site w) (fun _ => issues site w) w) as Hwp.
  { pose proof (issues_stable site w) as HS.
    unfold handleLongStop.
    apply wp_bind, wp_emit. fold (emitted (LongStop plate loc) w).
    assert (issues site w (emitted (LongStop plate loc) w)) as HI.
    { apply issues_emitted; [intros c Hc; discriminate|apply issues_refl]. }
    apply wp_bind. unfold selectStartedTrips.
    apply (wp_storeOp_stable False _ _ _ HS);
      [exact HI| |constructor|simpl; intros HI2].
    { unfold site. destruct (startedTripsOf plate (db w)); reflexivity. }
    unfold site in *. clear site.
    destruct (startedTripsOf plate (db w)) as [|trip trips] eqn:Htrips.
    { apply wp_ret. exact HI2. }
    apply wp_bind. unfold selectIncomplete.
    apply (wp_storeOp_stable False _ _ _ HS);
      [exact HI2|reflexivity|constructor|simpl; intros HI3].
    apply wp_bind.
    eapply wp_mono.
    - apply (wp_forEach
               (fun (rest : list Customer) w' =>
                  issues (longStopTripSite now plate (trip_id trip)) w w')).
      + intros x rest w' HIw.
        destruct (Rle_dec _ 1).
        * unfold updateCompleted.
          apply (wp_storeOp_stable False _ _ _ HS);
            [exact HIw|simpl; auto|simpl; constructor; intros []|simpl; auto].
        * apply wp_ret. exact HIw.
      + exact HI3.
    - intros u w' HIw.
      eapply wp_mono.
      + apply (checkTripCompletion_stable False
                 (issues (longStopTripSite now plate (trip_id trip)) w)
                 (issues (longStopTripSite now plate (trip_id trip)) w)
                 now (trip_id trip) w');
          [|exact HIw|intros []].
        eapply stable_weaken; [|exact HS].
        intros [] Hc; simpl in *; auto; contradiction.
      + intros ? ? [? _]. auto.
      + auto.
    - auto. }
  eapply wp_mono; [exact Hwp| |]; unfold site;
    destruct (startedTripsOf plate (db w)); auto.
Qed.

(** X11. A record is for one trip.  Every store call that
    [processVehicleData] makes for a record is about the first open trip of
    its plate, in the order of [route_plans]: a later open trip of the same
    plate is not started, logged or completed by the record.  In the same
    way every store call of the long-stop handler is about the first started
    open trip of the plate.  This holds whatever the store does. *)
Theorem record_is_for_first_open_trip distance now :
  (forall vehicleData w,
     Forall (callIn (match openTripsOf (Plate vehicleData) (db w) with
                     | [] => fun c => c = SelectOpenTrips (Plate vehicleData)
                     | trip :: _ => firstTripSite now vehicleData (trip_id trip)
                     end))
            (newEvents w (exec (processVehicleData distance now vehicleData) w)))
  /\ (forall plate loc w,
        Forall (callIn (match startedTripsOf plate (db w) with
                        | [] => fun c => c = SelectStartedTrips plate
                        | trip :: _ => longStopTripSite now plate (trip_id trip)
                        end))
               (newEvents w (exec (handleLongStop distance now plate loc) w))).
Proof.
  split.
  - intros vehicleData w.
    pose proof (wp_outcome _ _ _ _ (processVehicleData_first_trip distance now vehicleData w))
      as H.
    destruct (outcome (processVehicleData distance now vehicleData) w);
      destruct (openTripsOf (Plate vehicleData) (db w));
      apply issues_newEvents; exact H.
  - intros plate loc w.
    pose proof (wp_outcome _ _ _ _ (handleLongStop_first_trip distance now plate loc w)) as H.
    destruct (outcome (handleLongStop distance now plate loc) w);
      destruct (startedTripsOf plate (db w));
      apply issues_newEvents; exact H.
Qed.

(** ** The registry is not read *)

Section Oblivious.

Variable f : gmap string Monitored -> gmap string Monitored.

Lemma oblivious_ret {A} (a : A) : oblivious f (ret a).
Proof. intros w Hf. split; [reflexivity|exact Hf]. Qed.

Lemma oblivious_throw {A} (e : Exn) : oblivious f (@throw A e).
Proof. intros w Hf. split; [reflexivity|exact Hf]. Qed.

Lemma oblivious_bind {A B} (m : M A) (k : A -> M B) :
  oblivious f m -> (forall a, oblivious f (k a)) -> oblivious f (bind m k).
Proof.
  intros Hm Hk w Hf. unfold bind. destruct (Hm w Hf) as [Heq Hf1]. rewrite Heq.
  destruct (m w) as [[a|e] w1]; simpl in *.
  - apply Hk. exact Hf1.
  - split; [reflexivity|exact Hf1].
Qed.

Lemma oblivious_tryCatch {A} (m : M A) (h : Exn -> M A) :
  oblivious f m -> (forall e, oblivious f (h e)) -> oblivious f (tryCatch m h).
Proof.
  intros Hm Hh w Hf. unfold tryCatch. destruct (Hm w Hf) as [Heq Hf1]. rewrite Heq.
  destruct (m w) as [[a|e] w1]; simpl in *.
  - split; [reflexivity|exact Hf1].
  - apply Hh. exact Hf1.
Qed.

Lemma oblivious_storeOp {A} c (g : Tables -> A * Tables) : oblivious f (storeOp c g).
Proof.
  intros w Hf. unfold storeOp, faultless in *. simpl. rewrite Hf.
  destruct (g (db w)) as [a t]. split; reflexivity.
Qed.

Lemma oblivious_emit ev : oblivious f (emit ev).
Proof. intros w Hf. split; [reflexivity|exact Hf]. Qed.

Lemma oblivious_setVehicleStops g : oblivious f (modifyMem (setVehicleStops g)).
Proof. intros w Hf. split; [reflexivity|exact Hf]. Qed.

Lemma oblivious_setVehicleDataCache g : oblivious f (modifyMem (setVehicleDataCache g)).
Proof. intros w Hf. split; [reflexivity|exact Hf]. Qed.

Lemma oblivious_getMem {A} (k : Memory -> M A) :
  (forall m, oblivious f (k m)) ->
  (forall m, k (setActiveTrips f m) = k m) ->
  oblivious f (bind getMem k).
Proof.
  intros Hk Hsame w Hf. unfold bind, getMem. simpl. rewrite Hsame. apply Hk. exact Hf.
Qed.

Lemma oblivious_forEach {A} (l : list A) (body : A -> M unit) :
  (forall x, oblivious f (body x)) -> oblivious f (forEach l body).
Proof.
  intros Hbody. induction l as [|x rest IH]; simpl.
  - apply oblivious_ret.
  - apply oblivious_bind; auto.
Qed.

Lemma oblivious_checkTripCompletion now tripId :
  oblivious f (checkTripCompletion now tripId).
Proof.
  unfold checkTripCompletion. apply oblivious_bind; [apply oblivious_storeOp|].
  intros customers.
  destruct ((0 <? Z.of_nat (length customers))%Z && forallb (fun c => c) customers);
    [apply oblivious_storeOp|apply oblivious_ret].
Qed.

Lemma oblivious_handleLongStop distance now plate loc :
  oblivious f (handleLongStop distance now plate loc).
Proof.
  unfold handleLongStop. apply oblivious_bind; [apply oblivious_emit|]. intros _.
  apply oblivious_bind; [apply oblivious_storeOp|]. intros [|trip trips];
    [apply oblivious_ret|].
  apply oblivious_bind; [apply oblivious_storeOp|]. intros customers.
  apply oblivious_bind; [|intros _; apply oblivious_checkTripCompletion].
  apply oblivious_forEach. intros customer.
  destruct (Rle_dec _ 1); [apply oblivious_storeOp|apply oblivious_ret].
Qed.

Lemma oblivious_processVehicleData distance now vehicleData :
  oblivious f (processVehicleData distance now vehicleData).
Proof.
  unfold processVehicleData. apply oblivious_tryCatch.
  2: { intros e. apply oblivious_bind; [apply oblivious_emit|].
       intros _. apply oblivious_throw. }
  destruct (truthy (Plate vehicleData)); [|apply oblivious_ret].
  destruct (Latitude vehicleData) as [Lat|]; [|apply oblivious_ret].
  destruct (Longitude vehicleData) as [Lng|]; [|apply oblivious_ret].
  apply oblivious_bind; [apply oblivious_storeOp|]. intros [|trip trips];
    [apply oblivious_ret|].
  apply oblivious_bind.
  - destruct (isNone (actual_start_time trip) && (0 <? Speed vehicleData)%Z);
      [|apply oblivious_ret].
    apply oblivious_bind; [apply oblivious_storeOp|]. intros _. apply oblivious_ret.
  - intros [start|]; [|apply oblivious_ret].
    unfold processStartedTrip.
    apply oblivious_bind; [apply oblivious_storeOp|]. intros _.
    apply oblivious_bind; [apply oblivious_storeOp|]. intros customers.
    apply oblivious_forEach. intros customer.
    destruct (Rle_dec _ 1); [|apply oblivious_ret].
    apply oblivious_bind; [apply oblivious_storeOp|]. intros _.
    apply oblivious_checkTripCompletion.
Qed.

Lemma oblivious_trackStop distance now vehicleData Lat Lng locTime :
  oblivious f (trackStop distance now vehicleData Lat Lng locTime).
Proof.
  unfold trackStop.
  destruct (Speed vehicleData =? 0)%Z; [|apply oblivious_setVehicleStops].
  apply oblivious_getMem; [|reflexivity].
  intros m. destruct (vehicleStops m !! Plate vehicleData) as [stopInfo|];
    [|apply oblivious_setVehicleStops].
  apply oblivious_bind; [apply oblivious_setVehicleStops|]. intros _.
  destruct (Qle_bool 5 (stopDuration locTime (stopStart stopInfo))
            && negb (processed stopInfo)); [|apply oblivious_ret].
  apply oblivious_bind; [apply oblivious_handleLongStop|].
  intros _. apply oblivious_setVehicleStops.
Qed.

Lemma oblivious_onMessage distance now data : oblivious f (onMessage distance now data).
Proof.
  unfold onMessage. apply oblivious_tryCatch; [|intros e; apply oblivious_emit].
  destruct data as [|vehicleData]; [apply oblivious_throw|].
  apply oblivious_bind; [apply oblivious_setVehicleDataCache|]. intros _.
  destruct (Latitude vehicleData) as [Lat|]; [|apply oblivious_emit].
  destruct (Longitude vehicleData) as [Lng|]; [|apply oblivious_emit].
  destruct (LocTime vehicleData) as [|raw|locTime];
    [apply oblivious_ret|apply oblivious_emit|].
  apply oblivious_bind; [apply oblivious_trackStop|].
  intros _. apply oblivious_processVehicleData.
Qed.

End Oblivious.

(** X12. The registry of monitored trips is written and never read.
    Without store failure, a message does the same whatever the registry
    holds: changing the registry beforehand changes neither the outcome nor
    the store calls, the tables, the cache or the stop intervals that the
    message leaves behind, and the registry change itself is carried
    through.  A trip is processed whether or not it is registered. *)
Theorem registry_is_never_consulted distance now data f w :
  faultless w ->
  outcome (onMessage distance now data) (withMem (setActiveTrips f) w)
  = outcome (onMessage distance now data) w
  /\ exec (onMessage distance now data) (withMem (setActiveTrips f) w)
     = withMem (setActiveTrips f) (exec (onMessage distance now data) w).
Proof.
  intros Hf. destruct (oblivious_onMessage f distance now data w Hf) as [Heq _].
  unfold outcome, exec. rewrite Heq. auto.
Qed.

Lemma registry_is_never_consulted_witness :
  let w := initialWorld (testTables (Some 0)) in
  let data := Parsed (snd (moveSample 1000)) in
  let f := insert "test-trip" (mkMonitored "BH47JSGP") in
  faultless w
  /\ outcome (onMessage greatCircleKm 1000 data) (withMem (setActiveTrips f) w)
     = outcome (onMessage greatCircleKm 1000 data) w
  /\ exec (onMessage greatCircleKm 1000 data) (withMem (setActiveTrips f) w)
     = withMem (setActiveTrips f) (exec (onMessage greatCircleKm 1000 data) w).
Proof.
  intros w data f.
  assert (faultless w) as H by reflexivity.
  split; [exact H|].
  exact (registry_is_never_consulted greatCircleKm 1000 data f w H).
Defined.

(** ** The offline reports *)

Lemma closestDistance_some distance coordinates customerPoint :
  (exists m, closestDistance distance coordinates customerPoint = Some m /\ (m <= 5)%R)
  <-> exists coord, List.In coord coordinates
                    /\ (distance (coord_longitude coord, coord_latitude coord)
                                 customerPoint <= 5)%R.
Proof.
  destruct coordinates as [|c rest].
  - split; [intros [m [H _]]; discriminate|intros [coord [[] _]]].
  - destruct (closestDistance_min distance customerPoint (c :: rest))
      as [m [Hm [Hall [coord [Hin Heq]]]]]; [discriminate|].
    split.
    + intros [m' [Hm' Hle]]. rewrite Hm in Hm'. inversion Hm'; subst m'.
      exists coord. split; [exact Hin|]. rewrite <- Heq. exact Hle.
    + intros [coord' [Hin' Hle]]. exists m. split; [exact Hm|].
      apply Rle_trans with (2 := Hle). apply Hall. exact Hin'.
Qed.

Lemma wouldComplete_nil distance customer : wouldComplete distance [] customer = false.
Proof.
  unfold wouldComplete.
  destruct (falsyNumber (latitude customer) || falsyNumber (longitude customer));
    reflexivity.
Qed.

Lemma count_fold {A} (p : A -> bool) l : forall total,
  fold_left (fun total x => if p x then S total else total) l total
  = (total + length (List.filter p l))%nat.
Proof.
  induction l as [|x rest IH]; intros total; simpl.
  - lia.
  - rewrite IH. destruct (p x); simpl; lia.
Qed.

(** X13. What the reports count.  A customer is reported as [WOULD COMPLETE]
    exactly when its latitude and longitude are both other than zero (a zero
    is read as a missing coordinate) and some logged position of the trip is
    within 5 km of it; the total is the number of such customers over the
    trips, and a trip without logged positions adds nothing. *)
Theorem report_counts_customers_in_range (distance : Point -> Point -> R) :
  (forall coordinates customer,
     wouldComplete distance coordinates customer = true
     <-> latitude customer <> 0%R /\ longitude customer <> 0%R
         /\ exists coord,
              List.In coord coordinates
              /\ (distance (coord_longitude coord, coord_latitude coord)
                           (longitude customer, latitude customer) <= 5)%R)
  /\ (forall trips,
        checkAfter3PM distance trips
        = list_sum (map (fun trip => length (List.filter (wouldComplete distance (fst trip))
                                                         (snd trip)))
                        trips))
  /\ (forall trips, (checkAfter3PM distance trips <= list_sum (map (fun trip => length (snd trip)) trips))%nat).
Proof.
  assert (forall trips total,
            fold_left
              (fun totalWouldComplete '(coordinates, customers) =>
                 match coordinates, customers with
                 | [], _ => totalWouldComplete
                 | _, [] => totalWouldComplete
                 | _, _ =>
                     fold_left
                       (fun total customer =>
                          if wouldComplete distance coordinates customer
                          then S total else total)
                       customers totalWouldComplete
                 end)
              trips total
            = (total + list_sum (map (fun trip =>
                          length (List.filter (wouldComplete distance (fst trip)) (snd trip)))
                        trips))%nat) as Hfold.
  { induction trips as [|[coordinates customers] rest IH]; intros total; simpl.
    - lia.
    - rewrite IH. destruct coordinates as [|c cs].
      + assert (List.filter (wouldComplete distance []) customers = []) as ->.
        { induction customers as [|x l IHl]; simpl; [reflexivity|].
          rewrite wouldComplete_nil. exact IHl. }
        simpl. lia.
      + destruct customers as [|x l]; [simpl; lia|].
        rewrite count_fold. lia. }
  split; [|split].
  - intros coordinates customer. rewrite wouldComplete_iff, closestDistance_some.
    reflexivity.
  - intros trips. unfold checkAfter3PM. rewrite Hfold. reflexivity.
  - intros trips. unfold checkAfter3PM. rewrite Hfold. simpl.
    induction trips as [|trip rest IH]; simpl; [lia|].
    pose proof (filter_length_le (wouldComplete distance (fst trip)) (snd trip)). lia.
Qed.

(** ** The backfill of completion times *)

Section BackfillProperties.

Variable distance : Point -> Point -> R.

Lemma closestCoordinate_from customerPoint coordinates : forall m0 c0,
  exists m c,
    fold_left
      (fun best coord =>
         let dist := distance (coord_longitude coord, coord_latitude coord) customerPoint in
         match best with
         | None => Some (dist, coord)
         | Some (minDistance, _) =>
             if Rlt_dec dist minDistance then Some (dist, coord) else best
         end)
      coordinates (Some (m0, c0)) = Some (m, c)
    /\ ((m = m0 /\ c = c0
         /\ forall x, List.In x coordinates ->
              (m0 <= distance (coord_longitude x, coord_latitude x) customerPoint)%R)
        \/ exists before after,
             coordinates = before ++ c :: after
             /\ m = distance (coord_longitude c, coord_latitude c) customerPoint
             /\ (m < m0)%R
             /\ (forall x, List.In x before ->
                   (m < distance (coord_longitude x, coord_latitude x) customerPoint)%R)
             /\ (forall x, List.In x after ->
                   (m <= distance (coord_longitude x, coord_latitude x) customerPoint)%R)).
Proof.
  induction coordinates as [|x rest IH]; intros m0 c0; simpl.
  - exists m0, c0. split; [reflexivity|]. left. repeat split; auto. intros x [].
  - destruct (Rlt_dec (distance (coord_longitude x, coord_latitude x) customerPoint) m0)
      as [Hlt|Hge].
    + destruct (IH (distance (coord_longitude x, coord_latitude x) customerPoint) x)
        as [m [c [Hfold Hcase]]].
      exists m, c. split; [exact Hfold|]. right.
      destruct Hcase as [[-> [-> Hall]]|[before [after [-> [Hm [Hlt' [Hb Ha]]]]]]].
      * exists [], rest. repeat split; auto. intros y [].
      * exists (x :: before), after. repeat split; auto; try lra.
        intros y [<-|Hin]; [lra|auto].
    + destruct (IH m0 c0) as [m [c [Hfold Hcase]]].
      exists m, c. split; [exact Hfold|].
      destruct Hcase as [[-> [-> Hall]]|[before [after [-> [Hm [Hlt' [Hb Ha]]]]]]].
      * left. repeat split; auto. intros y [<-|Hin]; [lra|auto].
      * right. exists (x :: before), after. repeat split; auto.
        intros y [<-|Hin]; [lra|auto].
Qed.

Lemma closestCoordinate_distance customerPoint coordinates : forall best,
  option_map fst
    (fold_left
       (fun best coord =>
          let vehiclePoint := (coord_longitude coord, coord_latitude coord) in
          let dist := distance vehiclePoint customerPoint in
          match best with
          | None => Some (dist, coord)
          | Some (minDistance, _) =>
              if Rlt_dec dist minDistance then Some (dist, coord) else best
          end)
       coordinates best)
  = fold_left
      (fun minDistance coord =>
         let vehiclePoint := (coord_longitude coord, coord_latitude coord) in
         let dist := distance vehiclePoint customerPoint in
         match minDistance with
         | None => Some dist
         | Some current => if Rlt_dec dist current then Some dist else Some current
         end)
      coordinates (option_map fst best).
Proof.
  induction coordinates as [|x rest IH]; intros best; simpl; [reflexivity|].
  rewrite IH. f_equal. destruct best as [[m c]|]; simpl; [|reflexivity].
  destruct (Rlt_dec (distance (coord_longitude x, coord_latitude x) customerPoint) m);
    reflexivity.
Qed.

(** X14. The closest logged position.  The inner loop of the scripts finds
    a position exactly when the log is not empty; it is at the smallest
    distance from the customer, and among the positions at that distance it
    is the first of the log (the earliest, the log being in ascending order
    of time), since the loop replaces its choice on a strictly smaller
    distance only.  The distance the reports print and test is the distance
    of that position. *)
Theorem closest_position_is_first_minimum customerPoint coordinates :
  (closestCoordinate distance coordinates customerPoint = None <-> coordinates = [])
  /\ closestDistance distance coordinates customerPoint
     = option_map fst (closestCoordinate distance coordinates customerPoint)
  /\ forall m c,
       closestCoordinate distance coordinates customerPoint = Some (m, c) ->
       m = distance (coord_longitude c, coord_latitude c) customerPoint
       /\ exists before after,
            coordinates = before ++ c :: after
            /\ (forall x, List.In x before ->
                  (m < distance (coord_longitude x, coord_latitude x) customerPoint)%R)
            /\ (forall x, List.In x after ->
                  (m <= distance (coord_longitude x, coord_latitude x) customerPoint)%R).
Proof.
  split; [|split].
  - unfold closestCoordinate. destruct coordinates as [|x rest]; simpl.
    + split; reflexivity.
    + destruct (closestCoordinate_from customerPoint rest
                  (distance (coord_longitude x, coord_latitude x) customerPoint) x)
        as [m [c [Hfold _]]].
      cbv zeta in Hfold. cbv zeta.
      split; [|discriminate]. intros H. rewrite H in Hfold. discriminate.
  - unfold closestCoordinate, closestDistance.
    rewrite closestCoordinate_distance. reflexivity.
  - unfold closestCoordinate. destruct coordinates as [|x rest]; simpl.
    + intros m c H. discriminate.
    + destruct (closestCoordinate_from customerPoint rest
                  (distance (coord_longitude x, coord_latitude x) customerPoint) x)
        as [m [c [Hfold Hcase]]].
      cbv zeta in Hfold. cbv zeta.
      intros m' c' H. rewrite H in Hfold. inversion Hfold; subst m' c'.
      destruct Hcase as [[-> [-> Hall]]|[before [after [-> [Hm [Hlt [Hb Ha]]]]]]].
      * split; [reflexivity|]. exists [], rest. repeat split; auto. intros y [].
      * split; [exact Hm|]. exists (x :: before), after. repeat split; auto.
        intros y [<-|Hin]; [lra|auto].
Qed.

Lemma stopShape_setCompletedAt tripId code time c :
  stopShape (setCompletedAt tripId code time c) = stopShape c.
Proof.
  unfold setCompletedAt.
  destruct (String.eqb (cust_trip_id c) tripId && String.eqb (customer_code c) code);
    reflexivity.
Qed.

Lemma stopShape_rowUpdate tripId coordinates x c :
  stopShape (rowUpdate distance tripId coordinates x c) = stopShape c.
Proof.
  unfold rowUpdate.
  destruct (falsyNumber (latitude x) || falsyNumber (longitude x)); [reflexivity|].
  destruct (closestCoordinate distance coordinates (longitude x, latitude x))
    as [[m closest]|]; [|reflexivity].
  destruct (Rle_dec m 5); [apply stopShape_setCompletedAt|reflexivity].
Qed.

(** The loop body changes the table by [rowUpdate] on every row, or not at
    all when the update returns an error. *)
Lemma updateCustomer_table tripId coordinates s x :
  customersTable (updateCustomer distance tripId coordinates s x)
  = customersTable s
  \/ customersTable (updateCustomer distance tripId coordinates s x)
     = map (rowUpdate distance tripId coordinates x) (customersTable s).
Proof.
  unfold updateCustomer, rowUpdate.
  destruct (falsyNumber (latitude x) || falsyNumber (longitude x)); [left; reflexivity|].
  destruct (closestCoordinate distance coordinates (longitude x, latitude x))
    as [[m closest]|]; [|left; reflexivity].
  destruct (Rle_dec m 5); [|left; reflexivity].
  destruct (updateFaults s) as [|[|] rest]; simpl; auto.
Qed.

Lemma updateCustomer_ok tripId coordinates s x :
  updateFaults s = [] ->
  customersTable (updateCustomer distance tripId coordinates s x)
  = map (rowUpdate distance tripId coordinates x) (customersTable s)
  /\ updateFaults (updateCustomer distance tripId coordinates s x) = []
  /\ updateErrors (updateCustomer distance tripId coordinates s x) = updateErrors s.
Proof.
  intros Hf. unfold updateCustomer, rowUpdate.
  destruct (falsyNumber (latitude x) || falsyNumber (longitude x));
    [rewrite map_id; auto|].
  destruct (closestCoordinate distance coordinates (longitude x, latitude x))
    as [[m closest]|]; [|rewrite map_id; auto].
  destruct (Rle_dec m 5); [|rewrite map_id; auto].
  rewrite Hf. simpl. auto.
Qed.

Lemma fold_updateCustomer_ok tripId coordinates xs : forall s,
  updateFaults s = [] ->
  customersTable (fold_left (updateCustomer distance tripId coordinates) xs s)
  = map (fun c => fold_left (fun c' x => rowUpdate distance tripId coordinates x c') xs c)
        (customersTable s)
  /\ updateFaults (fold_left (updateCustomer distance tripId coordinates) xs s) = []
  /\ updateErrors (fold_left (updateCustomer distance tripId coordinates) xs s)
     = updateErrors s.
Proof.
  induction xs as [|x rest IH]; intros s Hf; simpl.
  - rewrite map_id. auto.
  - destruct (updateCustomer_ok tripId coordinates s x Hf) as [Ht [Hf' He]].
    destruct (IH _ Hf') as [Ht2 [Hf2 He2]].
    rewrite Ht2, Ht, map_map, He2, He. auto.
Qed.

Lemma stopKey_rowUpdate tripId coordinates x c :
  stopKey (rowUpdate distance tripId coordinates x c) = stopKey c.
Proof.
  pose proof (stopShape_rowUpdate tripId coordinates x c) as H.
  unfold stopShape, stopKey in *. congruence.
Qed.

Lemma sameKey_true x c : sameKey x c = true <-> stopKey x = stopKey c.
Proof.
  unfold sameKey, stopKey. rewrite andb_true_iff, !String.eqb_eq.
  split; [intros [-> ->]; reflexivity|intros H; inversion H; auto].
Qed.

Lemma rowUpdate_other tripId coordinates x c :
  cust_trip_id x = tripId -> sameKey x c = false ->
  rowUpdate distance tripId coordinates x c = c.
Proof.
  intros Htrip Hkey. unfold rowUpdate, setCompletedAt.
  destruct (falsyNumber (latitude x) || falsyNumber (longitude x)); [reflexivity|].
  destruct (closestCoordinate distance coordinates (longitude x, latitude x))
    as [[m closest]|]; [|reflexivity].
  destruct (Rle_dec m 5); [|reflexivity].
  unfold sameKey in Hkey. rewrite Htrip in Hkey.
  rewrite (String.eqb_sym (cust_trip_id c)), (String.eqb_sym (customer_code c)), Hkey.
  reflexivity.
Qed.

(** On customers with pairwise distinct keys, the loop over the customers
    changes a row by the body run for the customer with the key of the
    row. *)
Lemma rowUpdates_find tripId coordinates xs : forall c,
  List.NoDup (map stopKey xs) ->
  (forall x, List.In x xs -> cust_trip_id x = tripId) ->
  fold_left (fun c' x => rowUpdate distance tripId coordinates x c') xs c
  = match find (fun x => sameKey x c) xs with
    | Some x => rowUpdate distance tripId coordinates x c
    | None => c
    end.
Proof.
  induction xs as [|x rest IH]; intros c Hnd Htrip; simpl; [reflexivity|].
  inversion Hnd as [|? ? Hnotin Hnd']; subst.
  rewrite IH; [|exact Hnd'|intros y Hy; apply Htrip; right; exact Hy].
  destruct (sameKey x c) eqn:Hkey.
  - apply sameKey_true in Hkey.
    destruct (find (fun y => sameKey y (rowUpdate distance tripId coordinates x c)) rest)
      as [y|] eqn:Hfind; [|reflexivity].
    exfalso. apply find_some in Hfind. destruct Hfind as [Hin Hy].
    apply sameKey_true in Hy. rewrite stopKey_rowUpdate in Hy.
    apply Hnotin. rewrite Hkey, <- Hy. apply in_map. exact Hin.
  - rewrite (rowUpdate_other tripId coordinates x c); [reflexivity| |exact Hkey].
    apply Htrip. left. reflexivity.
Qed.

Lemma NoDup_key_eq (l : list Customer) x y :
  List.NoDup (map stopKey l) -> List.In x l -> List.In y l -> stopKey x = stopKey y -> x = y.
Proof.
  induction l as [|z rest IH]; simpl; intros Hnd Hx Hy Heq; [contradiction|].
  inversion Hnd as [|? ? Hnotin Hnd']; subst.
  destruct Hx as [->|Hx]; destruct Hy as [->|Hy]; auto.
  - exfalso. apply Hnotin. rewrite Heq. apply in_map. exact Hy.
  - exfalso. apply Hnotin. rewrite <- Heq. apply in_map. exact Hx.
Qed.

Lemma find_filter_key (p : Customer -> bool) l c :
  List.NoDup (map stopKey l) -> List.In c l ->
  find (fun x => sameKey x c) (List.filter p l) = if p c then Some c else None.
Proof.
  intros Hnd Hin.
  destruct (find (fun x => sameKey x c) (List.filter p l)) as [x|] eqn:Hfind.
  - apply find_some in Hfind. destruct Hfind as [Hx Hkey].
    apply filter_In in Hx. destruct Hx as [Hx Hp]. apply sameKey_true in Hkey.
    rewrite (NoDup_key_eq l x c Hnd Hx Hin Hkey) in *. rewrite Hp. reflexivity.
  - destruct (p c) eqn:Hp; [|reflexivity]. exfalso.
    assert (sameKey c c = false) as Hself
      by (apply (find_none _ _ Hfind c); apply filter_In; auto).
    rewrite (proj2 (sameKey_true c c) eq_refl) in Hself. discriminate.
Qed.

Lemma NoDup_map_filter_keys (p : Customer -> bool) l :
  List.NoDup (map stopKey l) -> List.NoDup (map stopKey (List.filter p l)).
Proof.
  induction l as [|x rest IH]; simpl; intros Hnd; [constructor|].
  inversion Hnd as [|? ? Hnotin Hnd']; subst.
  destruct (p x); simpl; [|auto].
  constructor; [|auto]. intros Hin. apply Hnotin.
  apply in_map_iff in Hin. destruct Hin as [y [Hy Hin]].
  apply filter_In in Hin. rewrite <- Hy. apply in_map. apply Hin.
Qed.

End BackfillProperties.

Section BackfillRuns.

Variable distance : Point -> Point -> R.
Variable coordinatesOf : string -> list Coordinate.

Lemma stopShape_backfillRow trips c :
  stopShape (backfillRow distance coordinatesOf trips c) = stopShape c.
Proof.
  unfold backfillRow.
  destruct (existsb _ trips && completed c && negb (isNone (completed_at c))
            && negb (falsyNumber (latitude c) || falsyNumber (longitude c)));
    [|reflexivity].
  destruct (closestCoordinate distance (coordinatesOf (cust_trip_id c))
              (longitude c, latitude c)) as [[m closest]|]; [|reflexivity].
  destruct (Rle_dec m 5); reflexivity.
Qed.

Lemma stopKeys_backfillRow trips l :
  map stopKey (map (backfillRow distance coordinatesOf trips) l) = map stopKey l.
Proof.
  rewrite map_map. apply map_ext. intros c.
  pose proof (stopShape_backfillRow trips c) as H.
  unfold stopShape, stopKey in *. congruence.
Qed.

(** One trip of the loop, without update error and on rows with pairwise
    distinct keys. *)
Lemma updateTrip_ok s trip :
  List.NoDup (map stopKey (customersTable s)) ->
  updateFaults s = [] ->
  customersTable (updateTrip distance coordinatesOf s trip)
  = map (backfillRow distance coordinatesOf [trip]) (customersTable s)
  /\ updateFaults (updateTrip distance coordinatesOf s trip) = []
  /\ updateErrors (updateTrip distance coordinatesOf s trip) = updateErrors s.
Proof.
  intros Hnd Hf.
  set (p := fun c => String.eqb (cust_trip_id c) (trip_id trip) && completed c
                     && negb (isNone (completed_at c))).
  assert (forall c, List.In c (customersTable s) ->
            (if p c then rowUpdate distance (trip_id trip) (coordinatesOf (trip_id trip)) c c
             else c)
            = backfillRow distance coordinatesOf [trip] c) as Hrow.
  { intros c _. unfold p, backfillRow, rowUpdate, setCompletedAt. simpl.
    rewrite orb_false_r, (String.eqb_sym (trip_id trip)).
    destruct (String.eqb (cust_trip_id c) (trip_id trip)) eqn:Htrip; simpl; [|reflexivity].
    apply String.eqb_eq in Htrip. rewrite Htrip.
    destruct (completed c); simpl; [|reflexivity].
    destruct (isNone (completed_at c)); simpl; [reflexivity|].
    destruct (falsyNumber (latitude c) || falsyNumber (longitude c)); simpl; [reflexivity|].
    destruct (closestCoordinate distance (coordinatesOf (trip_id trip))
                (longitude c, latitude c)) as [[m closest]|]; [|reflexivity].
    destruct (Rle_dec m 5); [|reflexivity].
    rewrite <- Htrip, !String.eqb_refl. reflexivity. }
  assert (customersTable
            (fold_left (updateCustomer distance (trip_id trip) (coordinatesOf (trip_id trip)))
                       (completedOf (trip_id trip) (customersTable s)) s)
          = map (backfillRow distance coordinatesOf [trip]) (customersTable s)
          /\ updateFaults
               (fold_left (updateCustomer distance (trip_id trip)
                                          (coordinatesOf (trip_id trip)))
                          (completedOf (trip_id trip) (customersTable s)) s) = []
          /\ updateErrors
               (fold_left (updateCustomer distance (trip_id trip)
                                          (coordinatesOf (trip_id trip)))
                          (completedOf (trip_id trip) (customersTable s)) s)
             = updateErrors s) as Hloop.
  { destruct (fold_updateCustomer_ok distance (trip_id trip) (coordinatesOf (trip_id trip))
                (completedOf (trip_id trip) (customersTable s)) s Hf) as [Ht [Hf' He]].
    split; [|auto]. rewrite Ht. apply map_ext_in. intros c Hin.
    rewrite rowUpdates_find.
    - unfold completedOf. fold p. rewrite (find_filter_key p _ c Hnd Hin).
      rewrite <- (Hrow c Hin). destruct (p c); reflexivity.
    - unfold completedOf. apply NoDup_map_filter_keys. exact Hnd.
    - intros x Hx. apply filter_In in Hx. destruct Hx as [_ Hx].
      apply andb_true_iff in Hx. destruct Hx as [Hx _].
      apply andb_true_iff in Hx. destruct Hx as [Hx _].
      apply String.eqb_eq. exact Hx. }
  unfold updateTrip.
  destruct (coordinatesOf (trip_id trip)) as [|coord coords] eqn:Hcoords.
  - split; [|auto]. rewrite <- (map_id (customersTable s)) at 1.
    apply map_ext_in. intros c Hin. rewrite <- (Hrow c Hin).
    destruct (p c); [|reflexivity]. unfold rowUpdate.
    destruct (falsyNumber (latitude c) || falsyNumber (longitude c)); reflexivity.
  - destruct (completedOf (trip_id trip) (customersTable s)) as [|x xs] eqn:Hcust.
    + simpl in Hloop. exact Hloop.
    + exact Hloop.
Qed.

(** The loop over the trips composes row by row. *)
Lemma backfillRow_cons trip rest c :
  backfillRow distance coordinatesOf rest (backfillRow distance coordinatesOf [trip] c)
  = backfillRow distance coordinatesOf (trip :: rest) c.
Proof.
  unfold backfillRow. simpl existsb. rewrite orb_false_r.
  destruct (String.eqb (trip_id trip) (cust_trip_id c)) eqn:Ht; simpl; [|reflexivity].
  destruct (completed c) eqn:Hc; simpl; [|rewrite ?Hc, ?andb_false_r; reflexivity].
  destruct (isNone (completed_at c)) eqn:Hat; simpl;
    [rewrite ?Hc, ?Hat, ?andb_false_r; reflexivity|].
  destruct (falsyNumber (latitude c) || falsyNumber (longitude c)) eqn:Hfalsy; simpl;
    [rewrite ?Hc, ?Hat, ?Hfalsy, ?andb_false_r; reflexivity|].
  destruct (closestCoordinate distance (coordinatesOf (cust_trip_id c))
              (longitude c, latitude c)) as [[m closest]|] eqn:Hclosest.
  - destruct (Rle_dec m 5) as [Hle|Hgt]; simpl.
    + rewrite ?Hc, ?Hfalsy, ?Hclosest. simpl.
      destruct (Rle_dec m 5); [|contradiction].
      destruct (existsb _ rest); reflexivity.
    + rewrite ?Hc, ?Hat, ?Hfalsy, ?Hclosest. simpl.
      destruct (Rle_dec m 5); [contradiction|].
      destruct (existsb _ rest); reflexivity.
  - rewrite ?Hc, ?Hat, ?Hfalsy, ?Hclosest. simpl. destruct (existsb _ rest); reflexivity.
Qed.

Lemma updateCompletionTimes_ok trips : forall s,
  List.NoDup (map stopKey (customersTable s)) ->
  updateFaults s = [] ->
  customersTable (updateCompletionTimes distance coordinatesOf trips s)
  = map (backfillRow distance coordinatesOf trips) (customersTable s)
  /\ updateFaults (updateCompletionTimes distance coordinatesOf trips s) = []
  /\ updateErrors (updateCompletionTimes distance coordinatesOf trips s) = updateErrors s.
Proof.
  induction trips as [|trip rest IH]; intros s Hnd Hf.
  - simpl. split; [|auto]. rewrite <- (map_id (customersTable s)) at 1.
    apply map_ext. intros c. reflexivity.
  - destruct (updateTrip_ok s trip Hnd Hf) as [Ht [Hf' He]].
    unfold updateCompletionTimes. simpl fold_left.
    fold (updateCompletionTimes distance coordinatesOf rest
            (updateTrip distance coordinatesOf s trip)).
    destruct (IH (updateTrip distance coordinatesOf s trip)) as [Ht2 [Hf2 He2]].
    + rewrite Ht, stopKeys_backfillRow. exact Hnd.
    + exact Hf'.
    + rewrite Ht2, Ht, map_map, He2, He. split; [|auto].
      apply map_ext. intros c. apply backfillRow_cons.
Qed.

Lemma backfillRow_idempotent trips c :
  backfillRow distance coordinatesOf trips (backfillRow distance coordinatesOf trips c)
  = backfillRow distance coordinatesOf trips c.
Proof.
  unfold backfillRow.
  destruct (existsb (fun trip => String.eqb (trip_id trip) (cust_trip_id c)) trips)
    eqn:Ht; simpl; [|rewrite ?Ht; reflexivity].
  destruct (completed c) eqn:Hc; simpl; [|rewrite ?Ht, ?Hc; reflexivity].
  destruct (isNone (completed_at c)) eqn:Hat; simpl; [rewrite ?Ht, ?Hc, ?Hat; reflexivity|].
  destruct (falsyNumber (latitude c) || falsyNumber (longitude c)) eqn:Hfalsy; simpl;
    [rewrite ?Ht, ?Hc, ?Hat, ?Hfalsy; reflexivity|].
  destruct (closestCoordinate distance (coordinatesOf (cust_trip_id c))
              (longitude c, latitude c)) as [[m closest]|] eqn:Hclosest.
  - destruct (Rle_dec m 5) as [Hle|Hgt]; simpl.
    + rewrite ?Ht, ?Hc, ?Hfalsy, ?Hclosest. simpl.
      destruct (Rle_dec m 5); [reflexivity|contradiction].
    + rewrite ?Ht, ?Hc, ?Hat, ?Hfalsy, ?Hclosest. simpl.
      destruct (Rle_dec m 5); [contradiction|reflexivity].
  - rewrite ?Ht, ?Hc, ?Hat, ?Hfalsy, ?Hclosest. reflexivity.
Qed.

(** X15. What the backfill writes.  Without update error and on a table
    where no two stops share [(trip_id, customer_code)], the table after
    [updateCompletionTimes] is the table before with every row passed through
    one function: a row is rewritten exactly when its trip is one of the
    trips of the day, it is completed and has a completion time, its
    coordinates are not zero and the closest position logged for its trip in
    the window is within 5 km; only its [completed_at] changes, to the time
    of that position.  No error line is written. *)
Theorem backfill_rewrites_completion_times trips s :
  List.NoDup (map stopKey (customersTable s)) ->
  updateFaults s = [] ->
  customersTable (updateCompletionTimes distance coordinatesOf trips s)
  = map (backfillRow distance coordinatesOf trips) (customersTable s)
  /\ updateErrors (updateCompletionTimes distance coordinatesOf trips s) = updateErrors s.
Proof.
  intros Hnd Hf. destruct (updateCompletionTimes_ok trips s Hnd Hf) as [Ht [_ He]]. auto.
Qed.

(** X16. The backfill can be run again.  Under the same conditions, a second
    run over the same trips and the same logged positions leaves the table
    as the first run left it. *)
Theorem backfill_is_idempotent trips s :
  List.NoDup (map stopKey (customersTable s)) ->
  updateFaults s = [] ->
  customersTable (updateCompletionTimes distance coordinatesOf trips
                    (updateCompletionTimes distance coordinatesOf trips s))
  = customersTable (updateCompletionTimes distance coordinatesOf trips s).
Proof.
  intros Hnd Hf. destruct (updateCompletionTimes_ok trips s Hnd Hf) as [Ht [Hf' _]].
  destruct (updateCompletionTimes_ok trips
              (updateCompletionTimes distance coordinatesOf trips s)) as [Ht2 _].
  - rewrite Ht, stopKeys_backfillRow. exact Hnd.
  - exact Hf'.
  - rewrite Ht2, Ht, map_map. apply map_ext. intros c. apply backfillRow_idempotent.
Qed.

(** X17. The backfill never changes a completion flag, a position or an
    identifier, and never adds or removes a row, whichever updates succeed:
    of [assigned_customers] it writes [completed_at] only. *)
Theorem backfill_keeps_flags trips s :
  map stopShape (customersTable (updateCompletionTimes distance coordinatesOf trips s))
  = map stopShape (customersTable s).
Proof.
  assert (forall tripId coordinates xs s0,
            map stopShape (customersTable
                             (fold_left (updateCustomer distance tripId coordinates) xs s0))
            = map stopShape (customersTable s0)) as Hloop.
  { intros tripId coordinates xs. induction xs as [|x rest IH]; intros s0; simpl.
    - reflexivity.
    - rewrite IH.
      destruct (updateCustomer_table distance tripId coordinates s0 x) as [->| ->];
        [reflexivity|].
      rewrite map_map. apply map_ext. intros c. apply stopShape_rowUpdate. }
  revert s. induction trips as [|trip rest IH]; intros s; [reflexivity|].
  unfold updateCompletionTimes. simpl fold_left.
  fold (updateCompletionTimes distance coordinatesOf rest
          (updateTrip distance coordinatesOf s trip)).
  rewrite IH. unfold updateTrip.
  destruct (coordinatesOf (trip_id trip)) as [|coord coords]; [reflexivity|].
  destruct (completedOf (trip_id trip) (customersTable s)) as [|x xs]; [reflexivity|].
  apply Hloop.
Qed.

End BackfillRuns.

Lemma backfillStart_distinct : List.NoDup (map stopKey (customersTable backfillStart)).
Proof. constructor; [intros []|constructor]. Defined.

(** The backfill of the fixture: the stop, completed at 500, gets the time of
    the position logged at it. *)
Example backfill_of_visited_stop :
  customersTable (updateCompletionTimes greatCircleKm loggedAtStop [testTrip (Some 0)]
                    backfillStart)
  = [mkCustomer "test-trip" "TEST_CUST_001" (-26.1440) 28.0436 true (Some 1000)].
Proof.
  destruct (updateCompletionTimes_ok greatCircleKm loggedAtStop [testTrip (Some 0)]
              backfillStart backfillStart_distinct eq_refl) as [-> _].
  unfold backfillStart, visitedCustomer, backfillRow, closestCoordinate, loggedAtStop,
    falsyNumber. simpl.
  destruct (Req_dec_T (-26.1440) 0) as [H|_]; [lra|].
  destruct (Req_dec_T 28.0436 0) as [H|_]; [lra|]. simpl.
  rewrite greatCircleKm_same. destruct (Rle_dec 0 5) as [_|H]; [reflexivity|lra].
Qed.

Lemma backfill_rewrites_completion_times_witness :
  let trips := [testTrip (Some 0)] in
  let s := backfillStart in
  List.NoDup (map stopKey (customersTable s))
  /\ updateFaults s = []
  /\ customersTable (updateCompletionTimes greatCircleKm loggedAtStop trips s)
     = map (backfillRow greatCircleKm loggedAtStop trips) (customersTable s)
  /\ updateErrors (updateCompletionTimes greatCircleKm loggedAtStop trips s)
     = updateErrors s.
Proof.
  intros trips s.
  assert (updateFaults s = []) as H by reflexivity.
  split; [exact backfillStart_distinct|]. split; [exact H|].
  exact (backfill_rewrites_completion_times greatCircleKm loggedAtStop trips s
           backfillStart_distinct H).
Defined.

Lemma backfill_is_idempotent_witness :
  let trips := [testTrip (Some 0)] in
  let s := backfillStart in
  List.NoDup (map stopKey (customersTable s))
  /\ updateFaults s = []
  /\ customersTable (updateCompletionTimes greatCircleKm loggedAtStop trips
                       (updateCompletionTimes greatCircleKm loggedAtStop trips s))
     = customersTable (updateCompletionTimes greatCircleKm loggedAtStop trips s).
Proof.
  intros trips s.
  assert (updateFaults s = []) as H by reflexivity.
  split; [exact backfillStart_distinct|]. split; [exact H|].
  exact (backfill_is_idempotent greatCircleKm loggedAtStop trips s
           backfillStart_distinct H).
Defined.


(** ** The date filter of the verification script *)

Section DateFilterProperties.

Variable table : list DatedTrip.
Variable clock : string.

Lemma existsb_filter {A} (p q : A -> bool) l :
  existsb (fun x => p x && q x) l = existsb q (List.filter p l).
Proof.
  induction l as [|x rest IH]; simpl; [reflexivity|].
  destruct (p x); simpl; rewrite IH; reflexivity.
Qed.

Lemma existsb_find {A} (q : A -> bool) l :
  existsb q l = match find q l with Some _ => true | None => false end.
Proof.
  induction l as [|x rest IH]; simpl; [reflexivity|].
  destruct (q x); simpl; auto.
Qed.

Lemma wasProcessed_vehicleData vehiclePlate simulatedDate :
  wasProcessed (simulateProcessVehicleData table clock vehiclePlate simulatedDate)
  = existsb (fun t => String.eqb (vehicle_plate (planned t)) vehiclePlate
                      && isNone (actual_end_time (planned t))
                      && String.eqb (dateOf (created_at t)) (todayOf clock simulatedDate))
            table.
Proof.
  unfold simulateProcessVehicleData. cbv zeta.
  rewrite (existsb_filter
             (fun t => String.eqb (vehicle_plate (planned t)) vehiclePlate
                       && isNone (actual_end_time (planned t)))
             (fun t => String.eqb (dateOf (created_at t)) (todayOf clock simulatedDate))).
  rewrite existsb_find.
  destruct (List.filter _ table) as [|t trips]; [reflexivity|].
  destruct (find _ (t :: trips)); reflexivity.
Qed.

Lemma wasProcessed_longStop vehiclePlate simulatedDate :
  wasProcessed (simulateHandleLongStop table clock vehiclePlate simulatedDate)
  = existsb (fun t => String.eqb (vehicle_plate (planned t)) vehiclePlate
                      && negb (isNone (actual_start_time (planned t)))
                      && isNone (actual_end_time (planned t))
                      && String.eqb (dateOf (created_at t)) (todayOf clock simulatedDate))
            table.
Proof.
  unfold simulateHandleLongStop. cbv zeta.
  rewrite (existsb_filter
             (fun t => String.eqb (vehicle_plate (planned t)) vehiclePlate
                       && negb (isNone (actual_start_time (planned t)))
                       && isNone (actual_end_time (planned t)))
             (fun t => String.eqb (dateOf (created_at t)) (todayOf clock simulatedDate))).
  rewrite existsb_find.
  destruct (List.filter _ table) as [|t trips]; [reflexivity|].
  destruct (find _ (t :: trips)); reflexivity.
Qed.

(** The trips the long-stop simulation looks at are among those of the other
    simulation. *)
Lemma simulations_nested vehiclePlate simulatedDate :
  wasProcessed (simulateHandleLongStop table clock vehiclePlate simulatedDate) = true ->
  wasProcessed (simulateProcessVehicleData table clock vehiclePlate simulatedDate) = true.
Proof.
  rewrite wasProcessed_vehicleData, wasProcessed_longStop, !existsb_exists.
  intros [t [Hin Ht]]. exists t. split; [exact Hin|].
  apply andb_true_iff in Ht. destruct Ht as [Ht Hdate].
  apply andb_true_iff in Ht. destruct Ht as [Ht Hend].
  apply andb_true_iff in Ht. destruct Ht as [Hplate _].
  rewrite Hplate, Hend, Hdate. reflexivity.
Qed.

(** X18. Whenever the simulation of the long-stop handler processes a plate
    for a day, so does the simulation of [processVehicleData]: the trips
    the first one looks at are among those of the second.  A simulation
    that processes reports the day it was asked for as the creation day. *)
Theorem long_stop_simulation_implies_vehicle_data_simulation vehiclePlate simulatedDate :
  (wasProcessed (simulateHandleLongStop table clock vehiclePlate simulatedDate) = true ->
   wasProcessed (simulateProcessVehicleData table clock vehiclePlate simulatedDate) = true)
  /\ (forall tripId createdDate,
        simulateProcessVehicleData table clock vehiclePlate simulatedDate
        = Processed tripId createdDate
        \/ simulateHandleLongStop table clock vehiclePlate simulatedDate
           = Processed tripId createdDate ->
        createdDate = todayOf clock simulatedDate).
Proof.
  split.
  - apply simulations_nested.
  - intros tripId createdDate [H|H];
      [unfold simulateProcessVehicleData in H|unfold simulateHandleLongStop in H];
      cbv zeta in H;
      destruct (List.filter _ table) as [|t trips]; try discriminate;
      destruct (find _ (t :: trips)) as [trip|] eqn:Hfind; try discriminate;
      inversion H; subst; apply find_some in Hfind; destruct Hfind as [_ Hdate];
      apply String.eqb_eq; exact Hdate.
Qed.

(** X19. The verdict of the verification script.  [allTestsPass] holds
    exactly when the plate [XRV985GP] has a started, unended trip created on
    the current day and no unended trip created the day before or the day
    after; three of the six simulations decide it, the other three follow
    from them. *)
Theorem date_filter_verdict currentDate yesterdayStr tomorrowStr :
  truthy currentDate = true -> truthy yesterdayStr = true -> truthy tomorrowStr = true ->
  (verifyDateFiltering table clock currentDate yesterdayStr tomorrowStr
   = wasProcessed (simulateHandleLongStop table clock "XRV985GP" (Some currentDate))
     && negb (wasProcessed (simulateProcessVehicleData table clock "XRV985GP"
                              (Some yesterdayStr)))
     && negb (wasProcessed (simulateProcessVehicleData table clock "XRV985GP"
                              (Some tomorrowStr))))
  /\ (verifyDateFiltering table clock currentDate yesterdayStr tomorrowStr = true
      <-> (exists t, List.In t table
                     /\ vehicle_plate (planned t) = "XRV985GP"
                     /\ actual_start_time (planned t) <> None
                     /\ actual_end_time (planned t) = None
                     /\ dateOf (created_at t) = currentDate)
          /\ (forall t, List.In t table ->
                vehicle_plate (planned t) = "XRV985GP" ->
                actual_end_time (planned t) = None ->
                dateOf (created_at t) <> yesterdayStr
                /\ dateOf (created_at t) <> tomorrowStr)).
Proof.
  intros Hcur Hyest Htom.
  assert (forall d, truthy d = true -> todayOf clock (Some d) = d) as Htoday
    by (intros d Hd; simpl; rewrite Hd; reflexivity).
  assert (verifyDateFiltering table clock currentDate yesterdayStr tomorrowStr
          = wasProcessed (simulateHandleLongStop table clock "XRV985GP" (Some currentDate))
            && negb (wasProcessed (simulateProcessVehicleData table clock "XRV985GP"
                                     (Some yesterdayStr)))
            && negb (wasProcessed (simulateProcessVehicleData table clock "XRV985GP"
                                     (Some tomorrowStr)))) as Hverdict.
  { unfold verifyDateFiltering. cbv zeta.
    pose proof (simulations_nested "XRV985GP" (Some currentDate)) as H1.
    pose proof (simulations_nested "XRV985GP" (Some yesterdayStr)) as H2.
    pose proof (simulations_nested "XRV985GP" (Some tomorrowStr)) as H3.
    destruct (wasProcessed (simulateHandleLongStop table clock "XRV985GP" (Some currentDate)));
    destruct (wasProcessed (simulateProcessVehicleData table clock "XRV985GP"
                              (Some currentDate)));
    destruct (wasProcessed (simulateHandleLongStop table clock "XRV985GP"
                              (Some yesterdayStr)));
    destruct (wasProcessed (simulateProcessVehicleData table clock "XRV985GP"
                              (Some yesterdayStr)));
    destruct (wasProcessed (simulateHandleLongStop table clock "XRV985GP"
                              (Some tomorrowStr)));
    destruct (wasProcessed (simulateProcessVehicleData table clock "XRV985GP"
                              (Some tomorrowStr)));
    simpl; try reflexivity;
    try (specialize (H1 eq_refl); discriminate);
    try (specialize (H2 eq_refl); discriminate);
    try (specialize (H3 eq_refl); discriminate). }
  split; [exact Hverdict|].
  rewrite Hverdict, !andb_true_iff, !negb_true_iff.
  rewrite wasProcessed_longStop, !wasProcessed_vehicleData.
  rewrite (Htoday _ Hcur), (Htoday _ Hyest), (Htoday _ Htom).
  split.
  - intros [[H2 H3] H5]. split.
    + apply existsb_exists in H2. destruct H2 as [t [Hin Ht]]. exists t.
      apply andb_true_iff in Ht. destruct Ht as [Ht Hdate].
      apply andb_true_iff in Ht. destruct Ht as [Ht Hend].
      apply andb_true_iff in Ht. destruct Ht as [Hplate Hstart].
      apply String.eqb_eq in Hplate, Hdate.
      repeat split; auto.
      * destruct (actual_start_time (planned t)); [discriminate|discriminate Hstart].
      * destruct (actual_end_time (planned t)); [discriminate Hend|reflexivity].
    + intros t Hin Hplate Hend. split; intros Hdate.
      * assert (existsb (fun t => String.eqb (vehicle_plate (planned t)) "XRV985GP"
                                  && isNone (actual_end_time (planned t))
                                  && String.eqb (dateOf (created_at t)) yesterdayStr)
                        table = true) as Hex.
        { apply existsb_exists. exists t. split; [exact Hin|].
          rewrite Hplate, Hend, Hdate, !String.eqb_refl. reflexivity. }
        rewrite Hex in H3. discriminate.
      * assert (existsb (fun t => String.eqb (vehicle_plate (planned t)) "XRV985GP"
                                  && isNone (actual_end_time (planned t))
                                  && String.eqb (dateOf (created_at t)) tomorrowStr)
                        table = true) as Hex.
        { apply existsb_exists. exists t. split; [exact Hin|].
          rewrite Hplate, Hend, Hdate, !String.eqb_refl. reflexivity. }
        rewrite Hex in H5. discriminate.
  - intros [[t [Hin [Hplate [Hstart [Hend Hdate]]]]] Hnone]. split; [split|].
    + apply existsb_exists. exists t. split; [exact Hin|].
      rewrite Hplate, Hend, Hdate, !String.eqb_refl.
      destruct (actual_start_time (planned t)); [reflexivity|congruence].
    + apply not_true_iff_false. intros Hex. apply existsb_exists in Hex.
      destruct Hex as [t' [Hin' Ht']].
      apply andb_true_iff in Ht'. destruct Ht' as [Ht' Hdate'].
      apply andb_true_iff in Ht'. destruct Ht' as [Hplate' Hend'].
      apply String.eqb_eq in Hplate', Hdate'.
      destruct (Hnone t' Hin' Hplate') as [Hy _]; [|contradiction].
      destruct (actual_end_time (planned t')); [discriminate Hend'|reflexivity].
    + apply not_true_iff_false. intros Hex. apply existsb_exists in Hex.
      destruct Hex as [t' [Hin' Ht']].
      apply andb_true_iff in Ht'. destruct Ht' as [Ht' Hdate'].
      apply andb_true_iff in Ht'. destruct Ht' as [Hplate' Hend'].
      apply String.eqb_eq in Hplate', Hdate'.
      destruct (Hnone t' Hin' Hplate') as [_ Ht]; [|contradiction].
      destruct (actual_end_time (planned t')); [discriminate Hend'|reflexivity].
Qed.

End DateFilterProperties.

Lemma date_filter_verdict_witness :
  let table := datedTable in
  let clock := "2024-01-15" in
  truthy "2024-01-15" = true /\ truthy "2024-01-14" = true /\ truthy "2024-01-16" = true
  /\ (verifyDateFiltering table clock "2024-01-15" "2024-01-14" "2024-01-16"
      = wasProcessed (simulateHandleLongStop table clock "XRV985GP" (Some "2024-01-15"))
        && negb (wasProcessed (simulateProcessVehicleData table clock "XRV985GP"
                                 (Some "2024-01-14")))
        && negb (wasProcessed (simulateProcessVehicleData table clock "XRV985GP"
                                 (Some "2024-01-16"))))
  /\ (verifyDateFiltering table clock "2024-01-15" "2024-01-14" "2024-01-16" = true
      <-> (exists t, List.In t table
                     /\ vehicle_plate (planned t) = "XRV985GP"
                     /\ actual_start_time (planned t) <> None
                     /\ actual_end_time (planned t) = None
                     /\ dateOf (created_at t) = "2024-01-15")
          /\ (forall t, List.In t table ->
                vehicle_plate (planned t) = "XRV985GP" ->
                actual_end_time (planned t) = None ->
                dateOf (created_at t) <> "2024-01-14"
                /\ dateOf (created_at t) <> "2024-01-16")).
Proof.
  intros table clock.
  assert (truthy "2024-01-15" = true) as H1 by reflexivity.
  assert (truthy "2024-01-14" = true) as H2 by reflexivity.
  assert (truthy "2024-01-16" = true) as H3 by reflexivity.
  split; [exact H1|]. split; [exact H2|]. split; [exact H3|].
  exact (date_filter_verdict table clock "2024-01-15" "2024-01-14" "2024-01-16" H1 H2 H3).
Defined.

Local Close Scope R_scope.

(** ** Trips whose last stop is marked are closed *)



Lemma accounted_withMem e0 pending tripId f w :
  accounted e0 pending tripId w -> accounted e0 pending tripId (withMem f w).
Proof. intros H. exact H. Qed.








Section Accounts.

Variable distance : Point -> Point -> R.
Variable e0 : list Event.
Variable pending : list Customer.
Variable tripId : string.








End Accounts.



(** ** The completion radius, on the tables *)


(** ** The handlers are the asynchronous functions run one at a time *)

Lemma bind_ret_unit (m : M unit) : bind m (fun _ => ret tt) = m.
Proof.
  extensionality w. unfold bind, ret. destruct (m w) as [[[]|e] w']; reflexivity.
Qed.

Lemma agrees_return {A} (a : A) : Async.agrees (Async.Return a) (ret a).
Proof. intros s Hs. simpl. auto. Qed.

Lemma agrees_raise {A} e : Async.agrees (@Async.Raise A e) (throw e).
Proof. intros s Hs. simpl. auto. Qed.

Lemma agrees_emit ev : Async.agrees (Async.Emit ev) (emit ev).
Proof. intros s Hs. simpl. auto. Qed.

Lemma agrees_getMem : Async.agrees Async.GetMem getMem.
Proof. intros s Hs. simpl. auto. Qed.

Lemma agrees_modifyMem f : Async.agrees (Async.ModifyMem f) (modifyMem f).
Proof. intros s Hs. simpl. auto. Qed.

Lemma agrees_then {A B} (p : Async.Task A) (k : A -> Async.Task B) m k' :
  Async.agrees p m -> (forall a, Async.agrees (k a) (k' a)) ->
  Async.agrees (Async.Then p k) (bind m k').
Proof.
  intros Hp Hk s Hs. simpl. unfold bind.
  destruct (Hp s Hs) as [H1 [H2 H3]].
  destruct (Async.uninterrupted p s) as [[a|e] s1];
    destruct (m (Async.world s)) as [[a'|e'] w1]; simpl in *; try discriminate.
  - inversion H1; subst. apply Hk. exact H3.
  - inversion H1; subst. auto.
Qed.

Lemma agrees_try {A} (p : Async.Task A) (h : Exn -> Async.Task A) m h' :
  Async.agrees p m -> (forall e, Async.agrees (h e) (h' e)) ->
  Async.agrees (Async.Try p h) (tryCatch m h').
Proof.
  intros Hp Hh s Hs. simpl. unfold tryCatch.
  destruct (Hp s Hs) as [H1 [H2 H3]].
  destruct (Async.uninterrupted p s) as [[a|e] s1];
    destruct (m (Async.world s)) as [[a'|e'] w1]; simpl in *; try discriminate.
  - inversion H1; subst. auto.
  - inversion H1; subst. apply Hh. exact H3.
Qed.

Lemma agrees_await_then {A B} c (f : Tables -> A * Tables) (k : option A -> Async.Task B)
    k' :
  (forall a, Async.agrees (k (Some a)) (k' a)) ->
  Async.agrees (Async.Then (Async.Await c f) k) (bind (storeOp c f) k').
Proof.
  intros Hk s Hs. simpl. unfold Async.perform, bind, storeOp. rewrite Hs.
  destruct (faults (Async.world s)) as [|[] rest] eqn:Hfaults.
  - destruct (f (db (Async.world s))) as [a t].
    destruct (Hk a (Async.mkStore (called c t (Async.world s)) [] (Async.epochs s))
                eq_refl) as [H1 [H2 H3]].
    unfold called in *. rewrite Hfaults in *. simpl in *. auto.
  - simpl. unfold failed. rewrite Hfaults. simpl. auto.
  - destruct (f (db (Async.world s))) as [a t].
    destruct (Hk a (Async.mkStore (called c t (Async.world s)) [] (Async.epochs s))
                eq_refl) as [H1 [H2 H3]].
    unfold called in *. rewrite Hfaults in *. simpl in *. auto.
Qed.

Lemma agrees_await_unit c (f : Tables -> unit * Tables) :
  Async.agrees (Async.Then (Async.Await c f) (fun _ => Async.Return tt)) (storeOp c f).
Proof.
  rewrite <- (bind_ret_unit (storeOp c f)).
  apply agrees_await_then. intros a. apply agrees_return.
Qed.

Lemma agrees_forEach {A} (f : A -> Async.Task unit) (g : A -> M unit) l :
  (forall x, Async.agrees (f x) (g x)) ->
  Async.agrees (Async.forEach l f) (forEach l g).
Proof.
  intros Hfg. induction l as [|x rest IH]; simpl.
  - apply agrees_return.
  - apply agrees_then; [apply Hfg|intros _; exact IH].
Qed.

Lemma agrees_checkTripCompletion now tripId :
  Async.agrees (Async.checkTripCompletion now tripId) (checkTripCompletion now tripId).
Proof.
  unfold Async.checkTripCompletion, checkTripCompletion, selectCompletedFlags.
  apply agrees_await_then. intros customers.
  destruct ((0 <? Z.of_nat (length customers))%Z && forallb (fun c => c) customers).
  - apply agrees_await_unit.
  - apply agrees_return.
Qed.

Lemma agrees_initializeSubscriptions :
  Async.agrees Async.initializeSubscriptions initializeSubscriptions.
Proof.
  unfold Async.initializeSubscriptions, initializeSubscriptions.
  apply agrees_then; [apply agrees_getMem|]. intros m.
  destruct (subscriptionsInitialized m); [apply agrees_return|apply agrees_modifyMem].
Qed.

Lemma agrees_onOpen : Async.agrees Async.onOpen onOpen.
Proof.
  unfold Async.onOpen, onOpen.
  apply agrees_then; [|intros _; apply agrees_initializeSubscriptions].
  apply agrees_try; [|intros e; apply agrees_emit].
  unfold selectActiveTrips. apply agrees_await_then. intros trips.
  apply agrees_forEach. intros trip. apply agrees_modifyMem.
Qed.

Lemma keeps_return {A} (a : A) : Async.keeps (Async.Return a).
Proof. intros s. simpl. auto. Qed.

Lemma keeps_emit ev : Async.keeps (Async.Emit ev).
Proof. intros s. simpl. auto. Qed.

Lemma keeps_await {A} c (f : Tables -> A * Tables) : Async.keeps (Async.Await c f).
Proof.
  intros s. simpl. unfold Async.perform.
  destruct (faults (Async.world s)) as [|[] rest]; simpl;
    destruct (Async.reports s) as [|[] later]; simpl;
    try destruct (f (db (Async.world s))) as [a t]; simpl; auto.
Qed.

Lemma keeps_then {A B} (p : Async.Task A) (k : A -> Async.Task B) :
  Async.keeps p -> (forall a, Async.keeps (k a)) -> Async.keeps (Async.Then p k).
Proof.
  intros Hp Hk s. simpl. specialize (Hp s).
  destruct (Async.uninterrupted p s) as [[a|e] s1]; simpl in *; [|exact Hp].
  destruct (Hk a s1) as [H1 H2]. destruct Hp as [H3 H4]. split; congruence.
Qed.

Lemma keeps_forEach {A} (f : A -> Async.Task unit) l :
  (forall x, Async.keeps (f x)) -> Async.keeps (Async.forEach l f).
Proof.
  intros Hf. induction l as [|x rest IH]; simpl.
  - apply keeps_return.
  - apply keeps_then; [apply Hf|intros _; exact IH].
Qed.

Lemma keeps_checkTripCompletion now tripId :
  Async.keeps (Async.checkTripCompletion now tripId).
Proof.
  unfold Async.checkTripCompletion. apply keeps_then; [apply keeps_await|].
  intros [customers|]; [|apply keeps_return].
  destruct ((0 <? Z.of_nat (length customers))%Z && forallb (fun c => c) customers);
    [|apply keeps_return].
  apply keeps_then; [apply keeps_await|intros _; apply keeps_return].
Qed.

Section AsyncAlone.

Variable distance : Point -> Point -> R.

Lemma keeps_handleLongStop now plate loc :
  Async.keeps (Async.handleLongStop distance now plate loc).
Proof.
  unfold Async.handleLongStop. apply keeps_then; [apply keeps_emit|]. intros _.
  apply keeps_then; [apply keeps_await|].
  intros [[|trip trips]|]; try apply keeps_return.
  cbv zeta. apply keeps_then; [apply keeps_await|].
  intros [customers|]; [|apply keeps_return].
  apply keeps_then; [|intros _; apply keeps_checkTripCompletion].
  apply keeps_forEach. intros customer. cbv zeta.
  destruct (Rle_dec _ 1); [|apply keeps_return].
  apply keeps_then; [apply keeps_await|intros _; apply keeps_return].
Qed.

Lemma agrees_handleLongStop now plate loc :
  Async.agrees (Async.handleLongStop distance now plate loc)
               (handleLongStop distance now plate loc).
Proof.
  unfold Async.handleLongStop, handleLongStop.
  apply agrees_then; [apply agrees_emit|]. intros _.
  unfold selectStartedTrips. apply agrees_await_then.
  intros [|trip trips]; [apply agrees_return|].
  cbv zeta. unfold selectIncomplete. apply agrees_await_then. intros customers.
  apply agrees_then; [|intros _; apply agrees_checkTripCompletion].
  apply agrees_forEach. intros customer. cbv zeta.
  destruct (Rle_dec _ 1); [|apply agrees_return].
  apply agrees_await_unit.
Qed.

Lemma agrees_processVehicleData now vehicleData :
  Async.agrees (Async.processVehicleData distance now vehicleData)
               (processVehicleData distance now vehicleData).
Proof.
  unfold Async.processVehicleData, processVehicleData.
  apply agrees_try.
  2: { intros e. apply agrees_then; [apply agrees_emit|intros _; apply agrees_raise]. }
  destruct (truthy (Plate vehicleData)); [|apply agrees_return].
  destruct (Latitude vehicleData) as [Lat|]; [|apply agrees_return].
  destruct (Longitude vehicleData) as [Lng|]; [|apply agrees_return].
  unfold selectOpenTrips. apply agrees_await_then.
  intros [|trip trips]; [apply agrees_return|].
  cbv zeta. apply agrees_then.
  - destruct (isNone (actual_start_time trip) && (0 <? Speed vehicleData)%Z);
      [|apply agrees_return].
    unfold updateStartTime. apply agrees_await_then. intros _. apply agrees_return.
  - intros [t|]; [|apply agrees_return].
    unfold processStartedTrip, insertCoordinate.
    apply agrees_await_then. intros _.
    unfold selectIncomplete. apply agrees_await_then. intros customers.
    apply agrees_forEach. intros customer. cbv zeta.
    destruct (Rle_dec _ 1); [|apply agrees_return].
    unfold updateCompleted. apply agrees_await_then. intros _.
    apply agrees_checkTripCompletion.
Qed.

(** Stop tracking: without interruption the map still holds the object the
    handler has read when the handler assigns to it. *)
Lemma agrees_trackStop now vehicleData Lat Lng locTime :
  Async.agrees (Async.trackStop distance now vehicleData Lat Lng locTime)
               (trackStop distance now vehicleData Lat Lng locTime).
Proof.
  unfold Async.trackStop, trackStop.
  destruct (Speed vehicleData =? 0)%Z; [|intros s Hs; simpl; auto].
  intros s Hs.
  change (Async.uninterrupted (Async.Then (Async.StopsGet ?plate) ?k) s)
    with (Async.uninterrupted (k (Async.stopsGet plate s)) s).
  change (bind getMem ?k (Async.world s)) with (k (mem (Async.world s)) (Async.world s)).
  cbv beta. unfold Async.stopsGet.
  destruct (vehicleStops (mem (Async.world s)) !! Plate vehicleData) as [stopInfo|]
    eqn:Hlook; [|simpl; auto].
  change (Async.uninterrupted (Async.Then (Async.StopsAssign ?plate ?object ?f) ?k) s)
    with (Async.uninterrupted (k tt) (Async.stopsAssign plate object f s)).
  change (bind (modifyMem ?f) ?k (Async.world s))
    with (k tt (withMem f (Async.world s))).
  cbv beta.
  set (watched := mkStopInfo (stopStart stopInfo) (location stopInfo) locTime
                             (processed stopInfo)).
  assert (Async.stopsAssign (Plate vehicleData) (Async.epoch (Plate vehicleData) s)
            (fun info => mkStopInfo (stopStart info) (location info) locTime
                                    (processed info)) s
          = Async.onWorld
              (withMem (setVehicleStops (insert (Plate vehicleData) watched))) s) as Hs1.
  { unfold Async.stopsAssign. rewrite Hlook, Nat.eqb_refl. reflexivity. }
  rewrite Hs1. clear Hs1.
  set (s1 := Async.onWorld _ s).
  change (withMem (setVehicleStops (insert (Plate vehicleData) watched)) (Async.world s))
    with (Async.world s1).
  destruct (Qle_bool 5 (stopDuration locTime (stopStart stopInfo))
            && negb (processed stopInfo)); [|simpl; auto].
  change (Async.uninterrupted (Async.Then ?p ?k) s1)
    with (match Async.uninterrupted p s1 with
          | (Ret a, s') => Async.uninterrupted (k a) s'
          | (Throw e, s') => (Throw e, s')
          end).
  unfold bind.
  destruct (agrees_handleLongStop now (Plate vehicleData) (location stopInfo) s1 Hs)
    as [H1 [H2 H3]].
  destruct (keeps_handleLongStop now (Plate vehicleData) (location stopInfo) s1)
    as [H4 H5].
  destruct (Async.uninterrupted
              (Async.handleLongStop distance now (Plate vehicleData) (location stopInfo))
              s1) as [[u|e] s2];
    destruct (handleLongStop distance now (Plate vehicleData) (location stopInfo)
                (Async.world s1)) as [[u'|e'] w2];
    cbn [fst snd] in H1, H2, H3, H4, H5; try discriminate.
  - subst w2. cbn [Async.uninterrupted fst snd].
    assert (vehicleStops (mem (Async.world s2)) !! Plate vehicleData = Some watched)
      as Hlook2.
    { rewrite H4. unfold s1. simpl. apply lookup_insert_eq. }
    unfold Async.stopsAssign, Async.epoch. rewrite Hlook2, H5.
    change (Async.epochs s1) with (Async.epochs s). rewrite Nat.eqb_refl.
    simpl. auto.
  - inversion H1; subst. auto.
Qed.

Lemma agrees_onMessage now data :
  Async.agrees (Async.onMessage distance now data) (onMessage distance now data).
Proof.
  unfold Async.onMessage, onMessage.
  apply agrees_try; [|intros e; apply agrees_emit].
  destruct data as [|vehicleData]; [apply agrees_raise|].
  apply agrees_then; [apply agrees_modifyMem|]. intros _.
  destruct (Latitude vehicleData) as [Lat|]; [|apply agrees_emit].
  destruct (Longitude vehicleData) as [Lng|]; [|apply agrees_emit].
  destruct (LocTime vehicleData) as [|raw|locTime];
    [apply agrees_return|apply agrees_emit|].
  apply agrees_then; [apply agrees_trackStop|].
  intros _. apply agrees_processVehicleData.
Qed.

(** Run without interruption and with thrown failures, the asynchronous
    function of an input does what its handler does. *)
Lemma agrees_handle i : Async.agrees (Async.handle distance i) (handle distance i).
Proof.
  destruct i as [|now data|new|new old]; simpl Async.handle; simpl handle.
  - apply agrees_onOpen.
  - apply agrees_onMessage.
  - apply agrees_modifyMem.
  - unfold onTripUpdated.
    destruct (negb (isNone (actual_end_time new)) && isNone (actual_end_time old));
      [apply agrees_modifyMem|apply agrees_return].
Qed.

End AsyncAlone.

(** ** The server run one input at a time *)

Lemma settle_settled {A} n (o : Outcome A) ready s :
  Async.settle n (Async.Settled o, ready, s) = (Async.Settled o, ready, s).
Proof. destruct n; reflexivity. Qed.

Lemma settle_more {A} n m (x : Async.Status A * bool * Async.Store) o ready s :
  Async.settle n x = (Async.Settled o, ready, s) ->
  Async.settle (n + m) x = (Async.Settled o, ready, s).
Proof.
  revert x. induction n as [|n IH]; intros x H.
  - simpl in H. subst x. apply settle_settled.
  - destruct x as [[[o'|p] r'] s']; simpl in *; auto.
Qed.

Lemma settle_then {A B} (k : A -> Async.Task B) n1 n2 a o r1 s1 r2 s2 :
  forall (p : Async.Task A) ready s,
  Async.settle n1 (Async.advance p ready s) = (Async.Settled (Ret a), r1, s1) ->
  Async.settle n2 (Async.advance (k a) r1 s1) = (Async.Settled o, r2, s2) ->
  Async.settle (n1 + n2) (Async.advance (Async.Then p k) ready s)
  = (Async.Settled o, r2, s2).
Proof.
  induction n1 as [|n1 IH]; intros p ready s H1 H2.
  - simpl in H1. simpl Async.advance. rewrite H1. exact H2.
  - simpl Async.advance.
    destruct (Async.advance p ready s) as [[[o'|p'] r'] s'] eqn:Hp.
    + simpl in H1. inversion H1; subst.
      rewrite Nat.add_comm. apply settle_more. exact H2.
    + simpl in H1. simpl. apply IH; assumption.
Qed.

Lemma settle_then_throw {A B} (k : A -> Async.Task B) n e r1 s1 :
  forall (p : Async.Task A) ready s,
  Async.settle n (Async.advance p ready s) = (Async.Settled (Throw e), r1, s1) ->
  Async.settle n (Async.advance (Async.Then p k) ready s)
  = (Async.Settled (Throw e), r1, s1).
Proof.
  induction n as [|n IH]; intros p ready s H1.
  - simpl in H1. simpl. rewrite H1. reflexivity.
  - simpl Async.advance.
    destruct (Async.advance p ready s) as [[[o'|p'] r'] s'] eqn:Hp.
    + simpl in H1. inversion H1; subst. reflexivity.
    + simpl in H1. simpl. apply IH; assumption.
Qed.

Lemma settle_try {A} (h : Exn -> Async.Task A) n1 n2 e o r1 s1 r2 s2 :
  forall (p : Async.Task A) ready s,
  Async.settle n1 (Async.advance p ready s) = (Async.Settled (Throw e), r1, s1) ->
  Async.settle n2 (Async.advance (h e) r1 s1) = (Async.Settled o, r2, s2) ->
  Async.settle (n1 + n2) (Async.advance (Async.Try p h) ready s)
  = (Async.Settled o, r2, s2).
Proof.
  induction n1 as [|n1 IH]; intros p ready s H1 H2.
  - simpl in H1. simpl Async.advance. rewrite H1. exact H2.
  - simpl Async.advance.
    destruct (Async.advance p ready s) as [[[o'|p'] r'] s'] eqn:Hp.
    + simpl in H1. inversion H1; subst.
      rewrite Nat.add_comm. apply settle_more. exact H2.
    + simpl in H1. simpl. apply IH; assumption.
Qed.

Lemma settle_try_ret {A} (h : Exn -> Async.Task A) n a r1 s1 :
  forall (p : Async.Task A) ready s,
  Async.settle n (Async.advance p ready s) = (Async.Settled (Ret a), r1, s1) ->
  Async.settle n (Async.advance (Async.Try p h) ready s)
  = (Async.Settled (Ret a), r1, s1).
Proof.
  induction n as [|n IH]; intros p ready s H1.
  - simpl in H1. simpl. rewrite H1. reflexivity.
  - simpl Async.advance.
    destruct (Async.advance p ready s) as [[[o'|p'] r'] s'] eqn:Hp.
    + simpl in H1. inversion H1; subst. reflexivity.
    + simpl in H1. simpl. apply IH; assumption.
Qed.

(** Given its replies one after the other, a task settles, and as
    [uninterrupted] says. *)
Lemma settle_uninterrupted {A} (p : Async.Task A) : forall ready s,
  exists n ready',
    Async.settle n (Async.advance p ready s)
    = (Async.Settled (fst (Async.uninterrupted p s)), ready',
       snd (Async.uninterrupted p s)).
Proof.
  induction p as [A a|A e|A B p IHp k IHk|A p IHp h IHh|A c f|ev| |f
                  |plate|plate info|plate|plate object f];
    intros ready s; try (exists 0%nat, ready; reflexivity).
  - destruct (IHp ready s) as [n1 [r1 H1]].
    simpl Async.uninterrupted.
    destruct (Async.uninterrupted p s) as [[a|e] s1] eqn:Hp; simpl in H1.
    + destruct (IHk a r1 s1) as [n2 [r2 H2]].
      exists (n1 + n2)%nat, r2. eapply settle_then; eauto.
    + exists n1, r1. apply settle_then_throw. exact H1.
  - destruct (IHp ready s) as [n1 [r1 H1]].
    simpl Async.uninterrupted.
    destruct (Async.uninterrupted p s) as [[a|e] s1] eqn:Hp; simpl in H1.
    + exists n1, r1. apply settle_try_ret. exact H1.
    + destruct (IHh e r1 s1) as [n2 [r2 H2]].
      exists (n1 + n2)%nat, r2. eapply settle_try; eauto.
  - destruct ready.
    + exists 0%nat, false. simpl. destruct (Async.perform c f s); reflexivity.
    + exists 1%nat, false. simpl. destruct (Async.perform c f s); reflexivity.
Qed.

Section OneAtATime.

Variable distance : Point -> Point -> R.

Lemma serve_app turns1 turns2 sv :
  Async.serve distance (turns1 ++ turns2) sv
  = Async.serve distance turns2 (Async.serve distance turns1 sv).
Proof. unfold Async.serve. apply fold_left_app. Qed.

Lemma serve_single n : forall x : Async.Status unit * bool * Async.Store,
  Async.serve distance (repeat (Async.Replied 0) n) (Async.single x)
  = Async.single (Async.settle n x).
Proof.
  induction n as [|n IH]; intros [[[o|p] r] s]; [reflexivity|reflexivity| |].
  - rewrite settle_settled. rewrite <- (settle_settled n o r s) at 2.
    rewrite <- IH. reflexivity.
  - simpl repeat. simpl Async.settle. rewrite <- IH.
    unfold Async.serve. simpl fold_left. f_equal.
Qed.

(** One input served alone settles once it has been given the replies it
    needs, and further replies change nothing. *)
Lemma serve_one i s :
  exists needed, forall extra,
    Async.serve distance
      (Async.Arrives i :: repeat (Async.Replied 0) (needed + extra))
      (Async.mkServer s [])
    = Async.mkServer (snd (Async.uninterrupted (Async.handle distance i) s)) [].
Proof.
  destruct (settle_uninterrupted (Async.handle distance i) false s) as [n [r Hn]].
  exists n. intros extra.
  change (Async.Arrives i :: repeat (Async.Replied 0) (n + extra))
    with ([Async.Arrives i] ++ repeat (Async.Replied 0) (n + extra)).
  rewrite serve_app.
  assert (Async.serve distance [Async.Arrives i] (Async.mkServer s [])
          = Async.single (Async.advance (Async.handle distance i) false s)) as Hfirst.
  { unfold Async.serve. simpl. unfold Async.deliver. simpl.
    destruct (Async.advance (Async.handle distance i) false s)
      as [[[o'|p'] r'] s']; reflexivity. }
  rewrite Hfirst, serve_single, (settle_more _ _ _ _ _ _ Hn). reflexivity.
Qed.

(** [run] is the server under the schedules that hand every input to its
    handler and give that handler the replies it needs before the next input
    arrives, failures being thrown. *)
Lemma run_is_one_at_a_time inputs : forall s,
  Async.reports s = [] ->
  exists needed,
    length needed = length inputs
    /\ forall replies,
         Forall2 le needed replies ->
         let sv := Async.serve distance (Async.oneAtATime (combine inputs replies))
                               (Async.mkServer s []) in
         Async.waiting sv = []
         /\ Async.world (Async.store sv) = exec (run distance inputs) (Async.world s)
         /\ Async.reports (Async.store sv) = [].
Proof.
  induction inputs as [|i rest IH]; intros s Hs.
  - exists []. split; [reflexivity|]. intros replies _. simpl. auto.
  - destruct (serve_one i s) as [n Hone].
    destruct (agrees_handle distance i s Hs) as [_ [Hworld Hreports]].
    set (s1 := snd (Async.uninterrupted (Async.handle distance i) s)) in *.
    destruct (IH s1 Hreports) as [needed [Hlen Hrest]].
    exists (n :: needed). split; [simpl; congruence|].
    intros replies Hall.
    inversion Hall as [|n' m needed' replies' Hle Hall' Heq1 Heq2]; subst.
    cbv zeta. simpl combine. unfold Async.oneAtATime. simpl flat_map.
    fold (Async.oneAtATime (combine rest replies')).
    change (Async.Arrives i :: repeat (Async.Replied 0) m
            ++ Async.oneAtATime (combine rest replies'))
      with ((Async.Arrives i :: repeat (Async.Replied 0) m)
            ++ Async.oneAtATime (combine rest replies')).
    rewrite serve_app.
    replace m with (n + (m - n))%nat by lia.
    rewrite Hone.
    destruct (Hrest replies' Hall') as [Hw' [Hworld' Hreports']].
    split; [exact Hw'|]. split; [|exact Hreports'].
    rewrite Hworld', Hworld. unfold exec. rewrite run_cons. reflexivity.
Qed.

End OneAtATime.

(** An assignment to an object that the map no longer holds.  The vehicle
    moves while the handler of a sample at rest waits in
    [await handleLongStop(...)]: the entry of the plate is deleted, and the
    [stopInfo.processed = true] of the waiting handler does not bring it
    back. *)
Example detached_interval_stays_deleted :
  let sv := Async.serve greatCircleKm
              [arrives (restSample 0); Async.Replied 0;
               arrives (restSample 300000); arrives (moveSample 301000);
               Async.Replied 0; Async.Replied 0; Async.Replied 0]
              (Async.atRest (initialWorld noTrips)) in
  Async.waiting sv = []
  /\ vehicleStops (mem (Async.world (Async.store sv))) !! "BH47JSGP" = None
  /\ longStops (events (Async.world (Async.store sv)))
     = [("BH47JSGP", mkLocation (-26.1440) 28.0436)].
Proof. repeat split; reflexivity. Qed.

(** ** Handlers that overlap, failures that are returned *)




